(** * Mean-field variational inference for continuous-time Bayesian networks

    A shallow embedding of [python/ctbn.py] and [python/cherry.py]
    (ihh/evoldeeds).

    Numbers.  The program computes in float32 on JAX arrays.  The embedding
    idealises a float as a real number of the Standard Library ([R]): rounding,
    overflow, infinities and NaN are outside the model.  The one float constant
    the code names, [smallest_float32] (the smallest normal float32, 2^-126),
    is kept as that real number, so the clamping done by [safe_log] and
    [safe_recip] is part of the model.

    Arrays.  A vector is a [list R], a matrix a list of rows, index and mask
    arrays are lists of naturals (masks hold the integers 0 and 1 in the
    program).  Reading an array at an index follows JAX: an index past the end
    is clamped to the last element ([at_]).  A function that raises on
    arrays of the documented shapes (a failed assertion, a NumPy broadcasting
    error, an integer that does not fit int32) returns [None] or an error
    value.  On arrays that do not have the documented shapes the definitions
    loop over the shape of their first operand; the theorems state the shapes
    they need. *)

From Stdlib Require Import String.
From Stdlib Require Import Reals Lra Lia ZArith QArith Bool Arith List Sorted.
Import ListNotations.

Open Scope R_scope.

(** ** Arrays *)

Abbreviation vec := (list R).
Abbreviation mat := (list (list R)).
Abbreviation ten3 := (list (list (list R))).
Abbreviation ten4 := (list (list (list (list R)))).
Abbreviation ivec := (list nat).
Abbreviation imat := (list (list nat)).

(** JAX indexing for reads: out-of-bound indices are clamped. *)
Definition at_ {A : Type} (d : A) (l : list A) (i : nat) : A :=
  nth (Nat.min i (pred (length l))) l d.

Definition vget (v : vec) (i : nat) : R := at_ 0 v i.
Definition row (m : mat) (i : nat) : vec := at_ [] m i.
Definition mget (m : mat) (i j : nat) : R := vget (row m i) j.
Definition t3get (t : ten3) (a i j : nat) : R := mget (at_ [] t a) i j.
Definition t4get (t : ten4) (a b i j : nat) : R := t3get (at_ [] t a) b i j.

Definition iget (v : ivec) (i : nat) : nat := at_ 0%nat v i.
Definition irow (m : imat) (i : nat) : ivec := at_ [] m i.
Definition imget (m : imat) (i j : nat) : nat := iget (irow m i) j.

(** [m.shape[0]] and [m.shape[-1]] of a rectangular array with at least one
    row. *)
Definition nrows {A : Type} (m : list (list A)) : nat := length m.
Definition ncols {A : Type} (m : list (list A)) : nat := length (hd [] m).

Definition mk_vec (n : nat) (f : nat -> R) : vec := map f (seq 0 n).
Definition mk_mat (r c : nat) (f : nat -> nat -> R) : mat :=
  map (fun i => mk_vec c (f i)) (seq 0 r).
Definition mk_ten3 (a r c : nat) (f : nat -> nat -> nat -> R) : ten3 :=
  map (fun i => mk_mat r c (f i)) (seq 0 a).
Definition mk_ten4 (a b r c : nat) (f : nat -> nat -> nat -> nat -> R) : ten4 :=
  map (fun i => mk_ten3 b r c (f i)) (seq 0 a).

(** [jnp.sum] of a vector, and a sum over an index range (an einsum
    contraction over one label). *)
Definition vsum (v : vec) : R := fold_right Rplus 0 v.
Definition big_sum (n : nat) (f : nat -> R) : R := vsum (mk_vec n f).

(** Elementwise operations on matrices of one shape. *)
Definition mat_map (f : R -> R) (m : mat) : mat := map (map f) m.
Definition mat_zip (f : R -> R -> R) (a b : mat) : mat :=
  mk_mat (nrows a) (ncols a) (fun i j => f (mget a i j) (mget b i j)).
Definition mat_scale (m : mat) (c : R) : mat := mat_map (fun x => x * c) m.
Definition transpose (m : mat) : mat :=
  mk_mat (ncols m) (nrows m) (fun i j => mget m j i).

Definition eye (N : nat) : mat :=
  mk_mat N N (fun i j => if Nat.eqb i j then 1 else 0).
Definition ones (N : nat) : mat := mk_mat N N (fun _ _ => 1).
Definition diag (v : vec) : mat :=
  mk_mat (length v) (length v) (fun i j => if Nat.eqb i j then vget v i else 0).

(** ** Numeric helpers of the program *)

(** [jnp.finfo('float32').smallest_normal] *)
Definition smallest_float32 : R := / 2 ^ 126.

Definition safe_log (x : R) : R := ln (Rmax x smallest_float32).
Definition safe_recip (x : R) : R := 1 / Rmax x smallest_float32.

(** [product(x, axis)] along one axis, given as the list of factors. *)
Definition product (xs : vec) : R := exp (vsum (map safe_log xs)).

Definition offdiag_mask (N : nat) : mat := mat_zip Rminus (ones N) (eye N).

(** NumPy broadcasting of two axes of sizes m and n: they are equal or one
    of them is 1; otherwise the operation raises. *)
Definition broadcastable (m n : nat) : bool :=
  Nat.eqb m n || Nat.eqb m 1 || Nat.eqb n 1.

Definition symmetrise (matrix : mat) : mat :=
  mat_map (fun x => x / 2) (mat_zip Rplus matrix (transpose matrix)).

Definition row_normalise (matrix : mat) : mat :=
  mat_zip Rminus matrix (diag (map vsum matrix)).

(** ** Rate parameters *)

Record ctbn_params : Type := mk_params { S_ : mat; J_ : mat; h_ : vec }.

Definition normalise_ctbn_params (params : ctbn_params) : ctbn_params :=
  {| S_ := symmetrise (row_normalise (mat_map Rabs (S_ params)));
     J_ := symmetrise (J_ params);
     h_ := h_ params |}.

(** ** Mean-field rates

    [nbr_mask] and [seq_mask] hold the integers 0 and 1.  Where the program
    multiplies by a mask the embedding injects it into the reals ([INR]); where
    it raises to the power of a mask ([x ** mask]) the embedding uses [pow]
    with that natural exponent, which is what the float power is at an
    integer exponent. *)

Section Rates.

Variables (nbr_idx nbr_mask : imat) (params : ctbn_params) (mu : mat).

(** Mean-field averaged rates for the components [idx]: an (A,N,N) tensor. *)
Definition q_bar (idx : ivec) : ten3 :=
  let N := ncols mu in
  let M := ncols nbr_idx in
  let S := S_ params in
  let J := J_ params in
  let h := h_ params in
  let exp_2J := mat_map (fun v => exp (2 * v)) J in
  let mu_nbr a k x := mget mu (imget nbr_idx (iget idx a) k) x in
  let mu_exp_2JC a k y :=
    big_sum N (fun x => mu_nbr a k x * mget exp_2J y x)
      ^ imget nbr_mask (iget idx a) k in
  let S := mat_zip Rmult S (offdiag_mask N) in
  mk_ten3 (length idx) N N (fun a x y =>
    mget S x y * exp (vget h y) * product (mk_vec M (fun k => mu_exp_2JC a k y))).

(** [offdiag_mask(M) * jnp.outer(nbr_mask[i], nbr_mask[i])], entry (j,k). *)
Definition nonself_nbr_mask (i j k : nat) : nat :=
  ((if Nat.eqb j k then 0 else 1) * (imget nbr_mask i j * imget nbr_mask i k))%nat.

(** Mean-field averaged rate conditioned on the state of one neighbour: an
    (M,N,N,N) tensor.  In [mu[nbr_idx[i]] ** nbr_mask[i,:]] the base has
    shape (M,N) and the exponent shape (M,): NumPy aligns the exponent with
    the last axis of the base, so the power raises a broadcasting error
    unless N = M, M = 1 or N = 1; the function then returns nothing
    ([None]).  Where the power does not raise, entry (k,x) of [mu_nbr] is
    mu[nbr_idx[i,k], x] ** nbr_mask[i, x], with x over the larger of N and
    M and an axis of size 1 read at its only position (what the clamped
    reads do); the einsum that follows sums over that range of x. *)
Definition q_bar_cond (i : nat) : option ten4 :=
  let M := ncols nbr_idx in
  let N := ncols mu in
  let S := S_ params in
  let J := J_ params in
  let h := h_ params in
  let cond_energy j x y := INR (imget nbr_mask i j) * mget J x y in
  let exp_2J := mat_map (fun v => exp (2 * v)) J in
  let exp_2JC j k y x := mget exp_2J y x ^ nonself_nbr_mask i j k in
  if broadcastable N M then
    let X := Nat.max N M in
    let mu_nbr k x := mget mu (imget nbr_idx i k) x ^ imget nbr_mask i x in
    let mu_exp_JC j k y := big_sum X (fun x => mu_nbr k x * exp_2JC j k y x) in
    let S := mat_zip Rmult S (offdiag_mask N) in
    Some (mk_ten4 M N N N (fun j a b c =>
      mget S b c * exp (vget h c) * exp (-2 * cond_energy j a c)
      * product (mk_vec M (fun k => mu_exp_JC j k c))))
  else None.

(** Geometrically-averaged mean-field rates for the components [idx]. *)
Definition q_tilde (idx : ivec) : ten3 :=
  let N := ncols mu in
  let M := ncols nbr_idx in
  let S := S_ params in
  let J := J_ params in
  let h := h_ params in
  let mean_energy a y :=
    big_sum M (fun k => big_sum N (fun x =>
      mget mu (imget nbr_idx (iget idx a) k) x
      * INR (imget nbr_mask (iget idx a) k) * mget J y x)) in
  let S := mat_zip Rmult S (offdiag_mask N) in
  mk_ten3 (length idx) N N (fun a x y =>
    mget S x y * exp (vget h y + 2 * mean_energy a y)).

Definition q_tilde_cond (i : nat) : ten4 :=
  let M := ncols nbr_idx in
  let N := ncols mu in
  let S := S_ params in
  let J := J_ params in
  let h := h_ params in
  let cond_energy j x y := INR (imget nbr_mask i j) * mget J x y in
  let mean_energy j y :=
    big_sum M (fun k => big_sum N (fun x =>
      mget mu (imget nbr_idx i k) x * INR (nonself_nbr_mask i j k) * mget J y x)) in
  let S := mat_zip Rmult S (offdiag_mask N) in
  mk_ten4 M N N N (fun j a b c =>
    mget S b c * exp (vget h c) * exp (2 * cond_energy j a c)
    * exp (2 * mean_energy j c)).

Variable rho : mat.

(** Joint probability of the transition x -> y for the components [idx]. *)
Definition gamma (idx : ivec) : ten3 :=
  let N := ncols mu in
  let qt := q_tilde idx in
  mk_ten3 (length idx) N N (fun a x y =>
    mget mu (iget idx a) x * t3get qt a x y * mget rho (iget idx a) y
    * safe_recip (mget rho (iget idx a) x)).

(** Raises where [q_bar_cond] does. *)
Definition psi (i : nat) : option vec :=
  let M := ncols nbr_idx in
  let N := ncols mu in
  let gammas := gamma (irow nbr_idx i) in
  match q_bar_cond i with
  | None => None
  | Some qbar_cond =>
      let qtilde_cond := q_tilde_cond i in
      let log_qtilde_cond j x y z :=
        let q := t4get qtilde_cond j x y z in
        safe_log (if Rlt_dec q 0 then 1 else q) in
      Some (mk_vec N (fun x =>
        - big_sum M (fun j => big_sum N (fun y => big_sum N (fun z =>
            mget mu (imget nbr_idx i j) y * t4get qbar_cond j x y z
            * INR (imget nbr_mask i j))))
        + big_sum M (fun j => big_sum N (fun y => big_sum N (fun z =>
            t3get gammas j y z * log_qtilde_cond j x y z
            * INR (imget nbr_mask i j))))))
  end.

(** Raises where [psi] does. *)
Definition rho_deriv (i : nat) : option vec :=
  let N := ncols mu in
  let qbar := at_ [] (q_bar [i]) 0 in
  let qbar_diag x := - big_sum N (fun y => mget qbar x y) in
  match psi i with
  | None => None
  | Some _psi =>
      let qtilde := q_tilde [i] in
      Some (mk_vec N (fun x =>
        - mget rho i x * (qbar_diag x + vget _psi x)
        - big_sum N (fun y => mget rho i y * t3get qtilde 0 x y)))
  end.

Definition mu_deriv (i : nat) : vec :=
  let N := ncols mu in
  let _gamma := at_ [] (gamma [i]) 0 in
  mk_vec N (fun x =>
    big_sum N (fun y => mget _gamma y x) - big_sum N (fun y => mget _gamma x y)).

(** The two einsum operands of [F_deriv] at (i,x,y), before the contraction. *)
Definition F_mask (seq_mask : ivec) (i x y : nat) : R :=
  INR (iget seq_mask i) * mget (offdiag_mask (ncols mu)) x y.

Definition F_rate_term (seq_mask : ivec) (i x y : nat) : R :=
  let idx := seq 0 (nrows mu) in
  mget mu i x * t3get (q_bar idx) i x y * F_mask seq_mask i x y.

Definition F_gamma_term (seq_mask : ivec) (i x y : nat) : R :=
  let idx := seq 0 (nrows mu) in
  let qtilde := q_tilde idx in
  let _gamma := gamma idx in
  let mask := F_mask seq_mask i x y in
  let log_qtilde :=
    safe_log (if Req_dec_T mask 0 then 1 else t3get qtilde i x y) in
  let gamma_coeff :=
    log_qtilde + 1 + safe_log (mget mu i x) - safe_log (t3get _gamma i x y) in
  t3get _gamma i x y * gamma_coeff * mask.

Definition F_deriv (seq_mask : ivec) : R :=
  let K := nrows mu in
  let N := ncols mu in
  let sum3 f := big_sum K (fun i => big_sum N (fun x => big_sum N (fun y => f i x y))) in
  - sum3 (F_rate_term seq_mask) + sum3 (F_gamma_term seq_mask).

End Rates.

(** Rate matrix of a single component without neighbours. *)
Definition q_single_offdiag (params : ctbn_params) : mat :=
  let S := S_ params in
  let h := h_ params in
  let N := nrows S in
  let SO := mat_zip Rmult S (offdiag_mask N) in
  mk_mat (nrows SO) (ncols SO) (fun x y => mget SO x y * exp (vget h y)).

Definition q_single (params : ctbn_params) : mat :=
  row_normalise (q_single_offdiag params).

(** ** Trajectories and the solvers the program calls

    A trajectory object is anything with [evaluate(t)]: it is modelled by its
    evaluation function.  The matrix exponential ([jax.scipy.linalg.expm]),
    the ODE integrator ([diffrax.diffeqsolve] with Dopri5 and a PID step
    controller) and [jax.random.permutation] are library code: they are
    parameters of the development, and a theorem states what it assumes of
    them.  So is [bounded_optimize] of the module [bounded_while_loop], which
    is not among the sources. *)

Definition Soln := R -> vec.

(** [old_arr.at[n].set(v)]: an update past the end is dropped. *)
Fixpoint set_nth {A : Type} (l : list A) (n : nat) (v : A) : list A :=
  match l, n with
  | [], _ => []
  | _ :: tl, O => v :: tl
  | a :: tl, S n' => a :: set_nth tl n' v
  end.

Definition replace_nth {A : Type} (old_arr : list A) (n : nat) (new_nth_elt : A)
  : list A :=
  map (fun '(k, old_kth_elt) => if Nat.eqb k n then new_nth_elt else old_kth_elt)
      (combine (seq 0 (length old_arr)) old_arr).

Definition vec_zip (f : R -> R -> R) (a b : vec) : vec :=
  mk_vec (length a) (fun i => f (vget a i) (vget b i)).

Definition column (m : mat) (j : nat) : vec := map (fun r => vget r j) m.

(** [mapM] for the option monad: the first failure aborts. *)
Fixpoint mapM {A B : Type} (f : A -> option B) (l : list A) : option (list B) :=
  match l with
  | [] => Some []
  | a :: tl =>
      match f a with
      | None => None
      | Some b => match mapM f tl with
                  | None => None
                  | Some bs => Some (b :: bs)
                  end
      end
  end.

(** [jnp.where(t < T, mu, rho)] with a scalar condition. *)
Definition where_lt (t T : R) (mu rho : mat) : mat :=
  if Rlt_dec t T then mu else rho.

Definition eval_mu_rho (mu_solns rho_solns : list Soln) (t : R) : mat * mat :=
  (map (fun mu_soln => mu_soln t) mu_solns,
   map (fun rho_soln => rho_soln t) rho_solns).

(** *** Exact posterior for a complete rate matrix *)

Section Exact.

Variable expm : mat -> mat.

(** The fields [self.N], [self.q], [self.T], [self.x], [self.y] and
    [self.exp_qT]; [ExactMu] is a subclass with the same constructor. *)
Record ExactRho : Type := mk_ExactRho {
  exN : nat; exq : mat; exT : R; exx : nat; exy : nat; exp_qT : R }.

(** [ExactRho.__init__]; [None] is the failed assertion on the shape of q. *)
Definition ExactRho_init (q : mat) (T : R) (x y : nat) : option ExactRho :=
  let N := nrows q in
  if Nat.eqb (nrows q) N && Nat.eqb (ncols q) N then
    Some {| exN := N; exq := row_normalise q; exT := T; exx := x; exy := y;
            exp_qT := mget (expm (mat_scale q T)) x y |}
  else None.

Definition ExactRho_evaluate (self : ExactRho) (t : R) : vec :=
  let rho := column (expm (mat_scale (exq self) (exT self - t))) (exy self) in
  map (fun r => Rmin r 1) rho.

Definition ExactMu_evaluate (self : ExactRho) (t : R) : vec :=
  let rho := ExactRho_evaluate self t in
  let exp_qt := row (expm (mat_scale (exq self) t)) (exx self) in
  let mu := vec_zip (fun a b => a * b / exp_qT self) exp_qt rho in
  map (fun m => m / vsum mu) mu.

End Exact.

(** *** Right-hand sides handed to the integrator *)

Section Terms.

Variables (seq_mask : ivec) (nbr_idx nbr_mask : imat) (params : ctbn_params).
Variables (mu_solns rho_solns : list Soln) (T : R).

Definition F_term (t : R) (F_t : R) : R :=
  let '(mu, rho) := eval_mu_rho mu_solns rho_solns t in
  let mu := where_lt t T mu rho in
  F_deriv nbr_idx nbr_mask params mu rho seq_mask.

(** Raises where [rho_deriv] does. *)
Definition rho_term (i : nat) (t : R) (rho_i_t : vec) : option vec :=
  let '(mu, rho) := eval_mu_rho mu_solns rho_solns t in
  let mu := where_lt t T mu rho in
  let rho := set_nth rho i rho_i_t in
  match rho_deriv nbr_idx nbr_mask params mu rho i with
  | None => None
  | Some _rho_deriv => Some (map (fun d => INR (iget seq_mask i) * d) _rho_deriv)
  end.

Definition mu_term (i : nat) (t : R) (mu_i_t : vec) : vec :=
  let '(mu, rho) := eval_mu_rho mu_solns rho_solns t in
  let mu := set_nth mu i mu_i_t in
  let mu := where_lt t T mu rho in
  map (fun d => INR (iget seq_mask i) * d)
      (mu_deriv nbr_idx nbr_mask params mu rho i).

End Terms.

(** ** The coordinate-ascent driver *)

Section Driver.

Variable expm : mat -> mat.

(** [diffrax.diffeqsolve(terms, Dopri5, t0, t1, dt0=None, y0, PIDController(rtol, atol))]:
    with [SaveAt(dense=True)] the result is a trajectory; without, the program
    reads its last saved value [ys[-1]].  The right-hand side may raise, and
    so may the call ([None]). *)
Variable diffeqsolve_dense :
  forall (rtol atol : R) (term : R -> vec -> option vec) (t0 t1 : R) (y0 : vec),
    option Soln.
Variable diffeqsolve_last :
  forall (rtol atol : R) (term : R -> R -> option R) (t0 t1 : R) (y0 : R), option R.

(** [jax.random.permutation(key, K)]: a function of the key. *)
Variable Key : Type.
Variable permutation : Key -> nat -> list nat.

(** [bounded_optimize(score_fun, update_fun, init_val, max_steps, min_inc)]. *)
Variable bounded_optimize :
  forall State : Type,
    (State -> option R) -> (State -> option State) -> State -> nat -> R ->
    option (R * State).

Definition default_rtol : R := 1 / 1000.
Definition default_atol : R := 1 / 1000000.

Definition solve_F (seq_mask : ivec) (nbr_idx nbr_mask : imat)
  (params : ctbn_params) (mu_solns rho_solns : list Soln) (T : R) : option R :=
  diffeqsolve_last default_rtol default_atol
    (fun t F_t => Some (F_term seq_mask nbr_idx nbr_mask params mu_solns rho_solns T t F_t))
    0 T 0.

Definition solve_rho (i : nat) (rho_i_T : vec) (seq_mask : ivec)
  (nbr_idx nbr_mask : imat) (params : ctbn_params)
  (mu_solns rho_solns : list Soln) (T : R) : option Soln :=
  diffeqsolve_dense default_rtol default_atol
    (rho_term seq_mask nbr_idx nbr_mask params mu_solns rho_solns T i) T 0 rho_i_T.

Definition solve_mu (i : nat) (mu_i_0 : vec) (seq_mask : ivec)
  (nbr_idx nbr_mask : imat) (params : ctbn_params)
  (mu_solns rho_solns : list Soln) (T : R) : option Soln :=
  diffeqsolve_dense default_rtol default_atol
    (fun t mu_i_t =>
       Some (mu_term seq_mask nbr_idx nbr_mask params mu_solns rho_solns T i t mu_i_t))
    0 T mu_i_0.

(** (mu_solns, rho_solns) and the state threaded through the outer loop. *)
Definition inner_state : Type := (list Soln * list Soln)%type.
Definition outer_state : Type := (inner_state * Z)%type.

Section Sweep.

Variables (prng : Key) (seq_mask : ivec) (nbr_idx nbr_mask : imat).
(** [params] is the normalised parameter set here. *)
Variables (params : ctbn_params) (T : R) (K : nat) (mu_0 rho_T : mat).

Definition score_fun (outer : outer_state) : option R :=
  let '(mu_solns, rho_solns) := fst outer in
  solve_F seq_mask nbr_idx nbr_mask params mu_solns rho_solns T.

(** A solve that raises ends the step. *)
Definition loop_body_fun (inner : inner_state) (i : nat) : option (inner_state * unit) :=
  let '(mu_solns, rho_solns) := inner in
  match solve_rho i (row rho_T i) seq_mask nbr_idx nbr_mask params mu_solns rho_solns T with
  | None => None
  | Some new_rho_i =>
      let rho_solns := replace_nth rho_solns i new_rho_i in
      match solve_mu i (row mu_0 i) seq_mask nbr_idx nbr_mask params mu_solns rho_solns T with
      | None => None
      | Some new_mu_i =>
          let mu_solns := replace_nth mu_solns i new_mu_i in
          Some ((mu_solns, rho_solns), tt)
      end
  end.

(** [jax.lax.scan], keeping the carry; a step that raises ends the scan. *)
Fixpoint scan {C X : Type} (f : C -> X -> option (C * unit)) (init : C) (xs : list X)
  : option C :=
  match xs with
  | [] => Some init
  | x :: tl =>
      match f init x with
      | None => None
      | Some (c, _) => scan f c tl
      end
  end.

(** The visiting order of a sweep, given the index visited last. *)
Definition sweep_order (last_i : Z) : list nat :=
  let order := permutation prng K in
  if Z.eqb last_i (Z.of_nat (iget order 0)) then rev order else order.

Definition update_fun (outer : outer_state) : option outer_state :=
  let '(inner, last_i) := outer in
  let order := sweep_order last_i in
  match scan loop_body_fun inner order with
  | None => None
  | Some inner => Some (inner, Z.of_nat (last order 0%nat))
  end.

End Sweep.

(** [jnp.eye(N)[xs]] *)
Definition one_hot_rows (N : nat) (xs : ivec) : mat :=
  map (fun x => row (eye N) x) xs.

Definition initial_state (xs ys : ivec) (seq_mask : ivec) (nbr_idx nbr_mask : imat)
  (params : ctbn_params) (T : R) : option outer_state :=
  let K := nrows nbr_idx in
  let N := nrows (S_ params) in
  let params := normalise_ctbn_params params in
  let mu_0 := one_hot_rows N xs in
  let rho_T := one_hot_rows N ys in
  let q1 := q_single params in
  match mapM (fun i => ExactRho_init expm q1 T (iget xs i) (iget ys i)) (seq 0 K),
        mapM (fun i => ExactRho_init expm q1 T (iget xs i) (iget ys i)) (seq 0 K)
  with
  | Some init_rho, Some init_mu =>
      let init_rho_solns := map (ExactRho_evaluate expm) init_rho in
      let init_mu_solns := map (ExactMu_evaluate expm) init_mu in
      match mapM (fun i => solve_rho i (row rho_T i) seq_mask nbr_idx nbr_mask params
                             init_mu_solns init_rho_solns T) (seq 0 K) with
      | None => None
      | Some rho_solns =>
          match mapM (fun i => solve_mu i (row mu_0 i) seq_mask nbr_idx nbr_mask params
                                 init_mu_solns rho_solns T) (seq 0 K) with
          | None => None
          | Some mu_solns => Some ((mu_solns, rho_solns), (-1)%Z)
          end
      end
  | _, _ => None
  end.

Definition ctbn_variational_log_cond (prng : Key) (xs ys : ivec) (seq_mask : ivec)
  (nbr_idx nbr_mask : imat) (params : ctbn_params) (T : R)
  (min_inc : R) (max_updates : nat) : option (R * inner_state) :=
  let K := nrows nbr_idx in
  let N := nrows (S_ params) in
  let nparams := normalise_ctbn_params params in
  let mu_0 := one_hot_rows N xs in
  let rho_T := one_hot_rows N ys in
  match initial_state xs ys seq_mask nbr_idx nbr_mask params T with
  | None => None
  | Some init =>
      match bounded_optimize outer_state
              (score_fun seq_mask nbr_idx nbr_mask nparams T)
              (update_fun prng seq_mask nbr_idx nbr_mask nparams T K mu_0 rho_T)
              init max_updates min_inc with
      | None => None
      | Some (log_elbo, (mu_rho, _last_i)) => Some (log_elbo, mu_rho)
      end
  end.

End Driver.

(** ** Sparse neighbourhoods *)

(** [int.bit_length] *)
Definition bit_length (z : Z) : Z :=
  if Z.eqb z 0 then 0%Z else (Z.log2 (Z.abs z) + 1)%Z.

(** [round_up_to_power(x)] with the default base 2: [1 << (x-1).bit_length()]. *)
Definition round_up_to_power (x : Z) : Z := Z.shiftl 1 (bit_length (x - 1)).

Inductive py_error : Type :=
| AssertionError (msg : string)
| ValueError.

(** [C[i,:].nonzero()[0]]: the positions of the nonzero entries of a row. *)
Definition nonzero (r : list Z) : list nat :=
  map fst (filter (fun '(_, c) => negb (Z.eqb c 0)) (combine (seq 0 (length r)) r)).

(** Python's [max] of a list of lengths; the empty list raises ValueError. *)
Definition py_max (l : list nat) : py_error + nat :=
  match l with
  | [] => inl ValueError
  | a :: tl => inr (fold_left Nat.max tl a)
  end.

(** Python's [[v] * n]: a negative count gives the empty list. *)
Definition py_repeat {A : Type} (v : A) (n : Z) : list A := repeat v (Z.to_nat n).

Definition markov_blankets : Type :=
  (ivec * imat * imat * option ivec * option ivec)%type.

Definition get_Markov_blankets (C : list (list Z)) (xs ys : option ivec)
  (K M : option Z) : py_error + markov_blankets :=
  let K_prepad := nrows C in
  if negb (Nat.eqb (nrows C) K_prepad && Nat.eqb (ncols C) K_prepad) then
    inl (AssertionError "C must be a square matrix")
  else if match xs with Some l => negb (Nat.eqb (length l) K_prepad) | None => false end then
    inl (AssertionError "length of xs must equal size of C")
  else if match ys with Some l => negb (Nat.eqb (length l) K_prepad) | None => false end then
    inl (AssertionError "length of ys must equal size of C")
  else
    let K := match K with
             | None => round_up_to_power (Z.of_nat K_prepad)
             | Some k => k
             end in
    let nbr_idx_list := map (fun i => nonzero (at_ [] C i)) (seq 0 K_prepad) in
    let checked_M :=
      match M with
      | None =>
          match py_max (map (@length nat) nbr_idx_list) with
          | inl e => inl e
          | inr mx => inr (round_up_to_power (Z.of_nat mx))
          end
      | Some m =>
          match py_max (map (@length nat) nbr_idx_list) with
          | inl e => inl e
          | inr mx =>
              if Z.geb m (Z.of_nat mx) then inr m
              else inl (AssertionError
                     "M must be at least as large as the largest number of neighbors")
          end
      end in
    match checked_M with
    | inl e => inl e
    | inr M =>
        let seq_idx := seq 0 (Z.to_nat K) in
        let seq_mask := map (fun k => if Nat.ltb k K_prepad then 1 else 0)%nat seq_idx in
        let nbr_mask :=
          map (fun nbr_idx =>
                 repeat 1%nat (length nbr_idx)
                 ++ py_repeat 0%nat (M - Z.of_nat (length nbr_idx))) nbr_idx_list
          ++ py_repeat (py_repeat 0%nat M) (K - Z.of_nat K_prepad) in
        let nbr_idx :=
          map (fun nbrs => nbrs ++ py_repeat 0%nat (M - Z.of_nat (length nbrs)))
              nbr_idx_list in
        let xs := option_map (fun l => l ++ py_repeat 0%nat (K - Z.of_nat K_prepad)) xs in
        let ys := option_map (fun l => l ++ py_repeat 0%nat (K - Z.of_nat K_prepad)) ys in
        inr (seq_mask, nbr_idx, nbr_mask, xs, ys)
    end.

(** ** Shapes and the statements the properties are about *)

(** A matrix with r rows, every row of length c. *)
Definition has_shape (r c : nat) (m : mat) : Prop :=
  length m = r /\ Forall (fun rw => length rw = c) m.

Definition big_prod (n : nat) (f : nat -> R) : R := fold_right Rmult 1 (mk_vec n f).

(** The factor of neighbour slot [k] of component [i] for target state [y]:
    (sum over x' of mu[nbr_idx[i,k]][x'] * exp(2*J[y,x'])) ^ nbr_mask[i,k]. *)
Definition neighbour_factor (nbr_idx nbr_mask : imat) (params : ctbn_params)
  (mu : mat) (i k y : nat) : R :=
  big_sum (ncols mu) (fun x' =>
    mget mu (imget nbr_idx i k) x' * exp (2 * mget (J_ params) y x'))
  ^ imget nbr_mask i k.

(** Entry (a,x,y) as the specification states it. *)
Definition q_bar_stated (idx : ivec) (nbr_idx nbr_mask : imat)
  (params : ctbn_params) (mu : mat) (a x y : nat) : R :=
  if Nat.eqb x y then 0
  else mget (S_ params) x y * exp (vget (h_ params) y)
       * big_prod (ncols nbr_idx) (fun k =>
           neighbour_factor nbr_idx nbr_mask params mu (iget idx a) k y).

(** Entry (a,x,y) with every factor clamped from below at the smallest normal
    float32, as [product] computes it through [safe_log]. *)
Definition q_bar_clamped (idx : ivec) (nbr_idx nbr_mask : imat)
  (params : ctbn_params) (mu : mat) (a x y : nat) : R :=
  if Nat.eqb x y then 0
  else mget (S_ params) x y * exp (vget (h_ params) y)
       * big_prod (ncols nbr_idx) (fun k =>
           Rmax (neighbour_factor nbr_idx nbr_mask params mu (iget idx a) k y)
                smallest_float32).

(** A fallible step run over a list from left to right, and a fallible step
    run n times: the first step that raises ends the run. *)
Definition foldM {C X : Type} (f : C -> X -> option C) (xs : list X) (init : C)
  : option C :=
  fold_left (fun acc x => match acc with Some c => f c x | None => None end)
            xs (Some init).
Definition iterM {C : Type} (n : nat) (f : C -> option C) (init : C) : option C :=
  Nat.iter n (fun acc => match acc with Some c => f c | None => None end) (Some init).

(** A rate matrix (generator): square, every row summing to zero. *)
Definition is_rate_matrix (Q : mat) : Prop :=
  has_shape (length Q) (length Q) Q /\ Forall (fun rw => vsum rw = 0) Q.

(** Two stacked matrices are indistinguishable to the real components when
    they have the same rows at every index whose [seq_mask] is nonzero. *)
Definition agree_on_real (seq_mask : ivec) (K : nat) (m m' : mat) : Prop :=
  forall i, (i < K)%nat -> iget seq_mask i <> 0%nat -> row m i = row m' i.

(** No real component has a padded component as a masked-in neighbour. *)
Definition real_neighbours (seq_mask : ivec) (K : nat) (nbr_idx nbr_mask : imat) : Prop :=
  forall i k, (i < K)%nat -> iget seq_mask i <> 0%nat ->
    (k < ncols nbr_idx)%nat -> imget nbr_mask i k <> 0%nat ->
    iget seq_mask (imget nbr_idx i k) <> 0%nat.

(** The messages of the assertions of [get_Markov_blankets]. *)
Definition assertion_messages : list string :=
  ["C must be a square matrix";
   "length of xs must equal size of C";
   "length of ys must equal size of C";
   "M must be at least as large as the largest number of neighbors"]%string.

(** ** Concrete inputs *)

(** The raw parameter set on which normalisation is evaluated below: N = 2,
    an exchangeability matrix that is not symmetric. *)
Definition raw_asymmetric : ctbn_params :=
  {| S_ := [[0; 1]; [0; 0]]; J_ := [[0; 0]; [0; 0]]; h_ := [0; 0] |}.

(** An input with a strong repulsive coupling: two components, two states,
    each component the only neighbour of the other, J[0,1] = J[1,0] = -100. *)
Definition repulsive_params : ctbn_params :=
  {| S_ := [[-1; 1]; [1; -1]]; J_ := [[0; -100]; [-100; 0]]; h_ := [0; 0] |}.
Definition pair_nbr_idx : imat := [[1]; [0]]%nat.
Definition pair_nbr_mask : imat := [[1]; [1]]%nat.
Definition pair_mu : mat := [[1; 0]; [0; 1]].

(** A star of three components over three states: component 0 has the
    neighbours 1 and 2, which sit in the states 1 and 2.  State 0 is strongly
    repelled by a neighbour in state 1 (J[0,1] = -100) and attracted by a
    neighbour in state 2 (J[0,2] = 40). *)
Definition mixed_params : ctbn_params :=
  {| S_ := [[-2; 1; 1]; [1; -2; 1]; [1; 1; -2]];
     J_ := [[0; -100; 40]; [-100; 0; 0]; [40; 0; 0]];
     h_ := [0; 0; 0] |}.
Definition star_nbr_idx : imat := [[1; 2]; [0; 0]; [0; 0]]%nat.
Definition star_nbr_mask : imat := [[1; 1]; [1; 0]; [1; 0]]%nat.
Definition star_mu : mat := [[1; 0; 0]; [0; 1; 0]; [0; 0; 1]].

(** The decoupled pair: two components, two states, no coupling. *)
Definition decoupled_params : ctbn_params :=
  {| S_ := [[-1; 1]; [1; -1]]; J_ := [[0; 0]; [0; 0]]; h_ := [0; 0] |}.
Definition pair_seq_mask : ivec := [1; 1]%nat.
Definition start_in_0 : Soln := fun _ => [1; 0].
Definition end_in_1 : Soln := fun _ => [0; 1].

(** Three states with equal exchange rates and no coupling, and four
    components in a ring: the contact matrix
    [[0,1,0,1],[1,0,1,0],[0,1,0,1],[1,0,1,0]] as [get_Markov_blankets] lays it
    out, with two neighbour slots. *)
Definition three_state_params : ctbn_params :=
  {| S_ := [[-2; 1; 1]; [1; -2; 1]; [1; 1; -2]];
     J_ := [[0; 0; 0]; [0; 0; 0]; [0; 0; 0]];
     h_ := [0; 0; 0] |}.
Definition ring_nbr_idx : imat := [[1; 3]; [0; 2]; [1; 3]; [0; 2]]%nat.
Definition ring_nbr_mask : imat := [[1; 1]; [1; 1]; [1; 1]; [1; 1]]%nat.

(** Two states, the second favoured by the bias h and by itself as a
    neighbour's state (J symmetric). *)
Definition biased_params : ctbn_params :=
  {| S_ := [[-1; 1]; [1; -1]]; J_ := [[0; -100]; [-100; -150]]; h_ := [0; 150] |}.

(** One real component followed by one padded component, with no neighbours. *)
Definition padded_seq_mask : ivec := [1; 0]%nat.
Definition no_nbr_idx : imat := [[0]; [0]]%nat.
Definition no_nbr_mask : imat := [[0]; [0]]%nat.

(** Stand-ins for the library functions, used to instantiate the theorems:
    the identity for [expm], a solver that evaluates its right-hand side at
    the initial condition and returns the constant trajectory, and the
    permutation 0, 1, ..., K-1 for every key. *)
Definition identity_expm : mat -> mat := fun m => m.
Definition constant_dense (rtol atol : R) (term : R -> vec -> option vec) (t0 t1 : R)
  (y0 : vec) : option Soln :=
  match term t0 y0 with
  | None => None
  | Some _ => Some (fun _ => y0)
  end.
Definition constant_last (rtol atol : R) (term : R -> R -> option R) (t0 t1 : R)
  (y0 : R) : option R :=
  match term t0 y0 with
  | None => None
  | Some _ => Some y0
  end.
Definition ascending (key : nat) (K : nat) : list nat := seq 0 K.

(** A stand-in for [bounded_optimize]: one update, then the score. *)
Definition one_sweep (State : Type) (score_fun : State -> option R)
  (update_fun : State -> option State) (init_val : State) (max_steps : nat)
  (min_inc : R) : option (R * State) :=
  match update_fun init_val with
  | None => None
  | Some st => match score_fun st with
               | None => None
               | Some F => Some (F, st)
               end
  end.

(** ** Further numeric helpers *)

(** [jnp.max] of a vector; a zero-size array has no maximum and the
    reduction raises. *)
Definition vmax (v : vec) : option R :=
  match v with
  | [] => None
  | a :: tl => Some (fold_left Rmax tl a)
  end.

(** [logsumexp(x)] of ctbn.py with its default [axis=None], on a vector. *)
Definition logsumexp (x : vec) : option R :=
  match vmax x with
  | None => None
  | Some max_x => Some (ln (vsum (map (fun v => exp (v - max_x)) x)) + max_x)
  end.

(** [logsumexp(x, axis=-1)] on a (K,N) matrix.  [keepdims] is False, so
    [max_x] has shape (K,), and [x - max_x] aligns it with the last axis of
    x: the subtraction raises a broadcasting error unless N = K, K = 1 or
    N = 1.  Where it does not raise, the difference has the entries
    x[i,j] - max_x[j], with j over the larger of N and K and an axis of size
    1 read at its only position (what the clamped reads do); the sum runs
    over j, and entry i of the result is
    log(sum_j exp(x[i,j] - max_x[j])) + max_x[i].  A row of size zero has no
    maximum. *)
Definition logsumexp_rows (K N : nat) (x : mat) : option vec :=
  if Nat.eqb N 0 then None
  else
    match mapM vmax x with
    | None => None
    | Some max_x =>
        if broadcastable N K then
          Some (mk_vec K (fun i =>
            ln (big_sum (Nat.max N K) (fun j => exp (mget x i j - vget max_x j)))
            + vget max_x i))
        else None
    end.

(** Weak L2 regulariser for J and h: [alpha * (sum(J**2) + sum(h**2))]. *)
Definition ctbn_param_regularizer (params : ctbn_params) (alpha : R) : R :=
  alpha * (vsum (map vsum (mat_map (fun v => v ^ 2) (J_ params)))
           + vsum (map (fun v => v ^ 2) (h_ params))).

(** Log-pseudolikelihood.  [params['J'][nbr_idx,:]] reads row
    [nbr_idx[i][j]] of J, as the program writes it; [E_iy] has the shape
    (K,N), and the function raises where [logsumexp(E_iy, axis=-1)] does. *)
Definition ctbn_pseudo_log_marg (xs seq_mask : ivec) (nbr_idx nbr_mask : imat)
  (params : ctbn_params) : option R :=
  let K := nrows nbr_idx in
  let params := normalise_ctbn_params params in
  let M := ncols nbr_idx in
  let N := ncols (J_ params) in
  let E_iy :=
    mk_mat K N (fun i y =>
      vget (h_ params) y
      + big_sum M (fun j =>
          mget (J_ params) (imget nbr_idx i j) y * INR (imget nbr_mask i j))) in
  match logsumexp_rows K N E_iy with
  | None => None
  | Some log_Zi =>
      let L_i := mk_vec K (fun i => mget E_iy i (iget xs i) - vget log_Zi i) in
      Some (big_sum K (fun i => vget L_i i * INR (iget seq_mask i)))
  end.

(** ** Valid inputs of [get_Markov_blankets] *)

(** The neighbours of component [i]: the nonzero columns of row [i] of C. *)
Definition neighbours (C : list (list Z)) (i : nat) : list nat := nonzero (at_ [] C i).

(** A square contact matrix over n >= 1 components, sequences of that length
    when supplied, a supplied K that is at least n and a supplied M that is
    at least every neighbour count: the inputs on which no assertion fails. *)
Definition valid_blanket_input (n : nat) (C : list (list Z)) (xs ys : option ivec)
  (K M : option Z) : Prop :=
  (1 <= n)%nat
  /\ length C = n /\ Forall (fun r => length r = n) C
  /\ match xs with Some l => length l = n | None => True end
  /\ match ys with Some l => length l = n | None => True end
  /\ match K with Some k => (Z.of_nat n <= k)%Z | None => True end
  /\ match M with
     | Some m => forall i, (i < n)%nat -> (Z.of_nat (length (neighbours C i)) <= m)%Z
     | None => True
     end.

(** What the function returns once the assertions have passed. *)
Definition blankets_result (n : nat) (C : list (list Z)) (xs ys : option ivec)
  (Kz Mz : Z) : markov_blankets :=
  (map (fun k => if Nat.ltb k n then 1 else 0)%nat (seq 0 (Z.to_nat Kz)),
   map (fun i => neighbours C i
                 ++ py_repeat 0%nat (Mz - Z.of_nat (length (neighbours C i))))
       (seq 0 n),
   map (fun i => repeat 1%nat (length (neighbours C i))
                 ++ py_repeat 0%nat (Mz - Z.of_nat (length (neighbours C i))))
       (seq 0 n)
   ++ py_repeat (py_repeat 0%nat Mz) (Kz - Z.of_nat n),
   option_map (fun l => l ++ py_repeat 0%nat (Kz - Z.of_nat n)) xs,
   option_map (fun l => l ++ py_repeat 0%nat (Kz - Z.of_nat n)) ys).

(** ** The exact conditional rate *)

(** Rate of the substitution x_i -> y_i of component [i] given the states
    [x] of all components. *)
Definition q_k (i : nat) (x : ivec) (y_i : nat) (nbr_idx nbr_mask : imat)
  (params : ctbn_params) : R :=
  let S := S_ params in
  let J := J_ params in
  let h := h_ params in
  mget S (iget x i) y_i
  * exp (vget h y_i
         + 2 * big_sum (ncols nbr_idx) (fun k =>
                 INR (imget nbr_mask i k) * mget J y_i (iget x (imget nbr_idx i k)))).

(** ** Joint states as numbers

    [idx] and [N] are Python integers, which have no bound; the sequences
    are int32 arrays, as JAX makes them. *)

(** [idx_to_seq(idx, N, K)]: the K digits of idx in base N, lowest first. *)
Definition idx_to_seq (idx N K : nat) : ivec :=
  map (fun j => ((idx / N ^ j) mod N)%nat) (seq 0 K).

Definition int32_max : Z := (2 ^ 31 - 1)%Z.

(** The wrap-around of int32 arithmetic (two's complement). *)
Definition wrap_int32 (z : Z) : Z := ((z + 2 ^ 31) mod 2 ^ 32 - 2 ^ 31)%Z.

(** [seq_to_idx(seq, N)].  In [seq[j] * (N**j)] the power is a Python
    integer that is converted to int32 for the product: when it does not
    fit the conversion raises OverflowError ([None]).  The product and the
    sum are int32 operations and wrap around. *)
Definition seq_to_idx (sq : ivec) (N : nat) : option Z :=
  match mapM (fun j =>
                let p := (Z.of_nat N ^ Z.of_nat j)%Z in
                if (int32_max <? p)%Z then None
                else Some (wrap_int32 (Z.of_nat (nth j sq 0%nat) * p)))
             (seq 0 (length sq)) with
  | None => None
  | Some terms => Some (fold_left (fun acc t => wrap_int32 (acc + t)) terms 0%Z)
  end.

(** The number with the digits [sq] in base N. *)
Definition digits_value (sq : ivec) (N : nat) : nat :=
  list_sum (map (fun j => (nth j sq 0 * N ^ j)%nat) (seq 0 (length sq))).

(** ** Cherries (cherry.py)

    [pickCherries] works on a tree given by the parent of each node (a
    negative parent marks the root) and the length of the branch to it.
    Branch lengths are numbers that the function only adds and compares:
    they are modelled as rationals, so that the model runs.  The function
    checks its input when it is called, builds and sorts the list of leaf
    pairs at once, and hands back the generator [cherryPairs], modelled by
    the list of what it yields. *)

(** What a call does: it raises, it does not return, or it returns. *)
Inductive outcome (A : Type) : Type :=
| Raises (e : py_error)
| Diverges
| Returns (a : A).

Arguments Raises {A} e.
Arguments Diverges {A}.
Arguments Returns {A} a.

Definition Qltb (a b : Q) : bool := negb (Qle_bool b a).

Definition enumerate {A : Type} (l : list A) : list (nat * A) :=
  combine (seq 0 (length l)) l.

(** [l[k] += 1] *)
Fixpoint incr_nth (l : list nat) (k : nat) : list nat :=
  match l, k with
  | [], _ => []
  | a :: tl, O => S a :: tl
  | a :: tl, S k' => a :: incr_nth tl k'
  end.

(** A pair of leaves with its distance, as the generators yield it. *)
Definition cherry : Type := (nat * nat * Q)%type.

Section Cherries.

Variables (parentIndex : list Z) (distanceToParent : list Q).

(** [parentIndex[n]] and [distanceToParent[n]] of a node that is stepped
    from: such a node is not the root, so its parent is not negative. *)
Definition parent_of (n : nat) : nat := Z.to_nat (nth n parentIndex 0%Z).
Definition distance_of (n : nat) : Q := nth n distanceToParent 0%Q.

Definition count_children : list nat :=
  fold_left (fun nChildren parent =>
               if Z.leb 0 parent then incr_nth nChildren (Z.to_nat parent)
               else nChildren)
            parentIndex (repeat 0%nat (length parentIndex)).

Definition find_leaves : list nat :=
  map fst (filter (fun '(_, n) => Nat.eqb n 0) (enumerate count_children)).

(** The loop [while ia != ja].  A round either lowers ia + ja or leaves the
    state as it is (a node that is its own parent), after which the loop
    never ends; [fuel] counts the rounds, and [None] is the run that does
    not end. *)
Fixpoint mrca_walk (fuel ia ja : nat) (dij : Q) : option Q :=
  match fuel with
  | O => None
  | S fuel' =>
      if Nat.eqb ia ja then Some dij
      else if Nat.ltb ja ia
           then mrca_walk fuel' (parent_of ia) ja (dij + distance_of ia)%Q
           else mrca_walk fuel' ia (parent_of ja) (dij + distance_of ja)%Q
  end.

(** The loop from the leaves i and j with dij = 0; i + j + 1 rounds are
    enough for every run that ends. *)
Definition leaf_distance (i j : nat) : option Q := mrca_walk (S (i + j)) i j 0%Q.

(** The inner loop of [leafPairs]: the pairs of leaf i with the later
    leaves, and the availability flags after it. *)
Fixpoint pairs_from (i : nat) (js : list nat) (available : list bool)
  : option (list cherry * list bool) :=
  match js with
  | [] => Some ([], available)
  | j :: js' =>
      if nth j available false then
        match leaf_distance i j with
        | None => None
        | Some dij =>
            if Qltb 0 dij then
              match pairs_from i js' available with
              | None => None
              | Some (ps, available') => Some ((i, j, dij) :: ps, available')
              end
            else pairs_from i js' (set_nth available j false)
        end
      else pairs_from i js' available
  end.

Fixpoint leafPairs (leaves : list nat) (available : list bool)
  : option (list cherry * list bool) :=
  match leaves with
  | [] => Some ([], available)
  | i :: rest =>
      if nth i available false then
        match pairs_from i rest available with
        | None => None
        | Some (ps, available') =>
            match leafPairs rest available' with
            | None => None
            | Some (qs, available'') => Some (ps ++ qs, available'')
            end
        end
      else leafPairs rest available
  end.

End Cherries.

(** [sorted(..., key=lambda x: x[1])]: a stable sort by distance. *)
Fixpoint insert_by_distance (x : cherry) (l : list cherry) : list cherry :=
  match l with
  | [] => [x]
  | y :: l' => if Qltb (snd y) (snd x) then y :: insert_by_distance x l'
               else x :: y :: l'
  end.

Definition sorted_by_distance (l : list cherry) : list cherry :=
  fold_right insert_by_distance [] l.

Fixpoint cherryPairs (lp : list cherry) (available : list bool) : list cherry :=
  match lp with
  | [] => []
  | (i, j, dij) :: rest =>
      if nth i available false && nth j available false
      then (i, j, dij) :: cherryPairs rest (set_nth (set_nth available i false) j false)
      else cherryPairs rest available
  end.

Definition pickCherries (parentIndex : list Z) (distanceToParent : list Q)
  : outcome (list cherry) :=
  if negb (Nat.eqb (length parentIndex) (length distanceToParent)) then
    Raises (AssertionError "Parent index and distance to parent must have the same length")
  else if negb (Nat.eqb (length (filter (fun '(n, p) => Z.ltb (Z.of_nat n) p)
                                        (enumerate parentIndex))) 0) then
    Raises (AssertionError "Parent index must be sorted in preorder")
  else if negb (if list_eq_dec Nat.eq_dec
                     (map fst (filter (fun '(_, p) => Z.ltb p 0) (enumerate parentIndex)))
                     [0%nat]
                then true else false) then
    Raises (AssertionError "There must be exactly one root node")
  else if negb (Nat.eqb (length (filter (fun d => Qltb d 0) distanceToParent)) 0) then
    Raises (AssertionError "All distances must be nonnegative")
  else
    let nodes := length parentIndex in
    let leaves := find_leaves parentIndex in
    let available := repeat true nodes in
    match leafPairs parentIndex distanceToParent leaves available with
    | None => Diverges
    | Some (pairs, available) =>
        let lp := sorted_by_distance pairs in
        Returns (cherryPairs lp available)
    end.

(** The messages of the assertions of [pickCherries]. *)
Definition cherry_messages : list string :=
  ["Parent index and distance to parent must have the same length";
   "Parent index must be sorted in preorder";
   "There must be exactly one root node";
   "All distances must be nonnegative"]%string.

(** The nodes named by a list of pairs. *)
Definition cherry_nodes (l : list cherry) : list nat :=
  flat_map (fun c => [fst (fst c); snd (fst c)]) l.

(** A tree of seven nodes: the root 0 with children 1 and 2, the leaves 3, 4
    under 1 and the leaves 5, 6 under 2. *)
Definition seven_parents : list Z := [-1; 0; 0; 1; 1; 2; 2]%Z.
Definition seven_distances : list Q := [0; 1; 1; 1; 2; 1 # 2; 1 # 2]%Q.

(** What a returned pair is: two leaves, the smaller first, at a positive
    distance that is the length of the path between them. *)
Definition leaf_pair (parentIndex : list Z) (distanceToParent : list Q) (c : cherry)
  : Prop :=
  let '(i, j, dij) := c in
  (i < j)%nat
  /\ In i (find_leaves parentIndex) /\ In j (find_leaves parentIndex)
  /\ (0 < dij)%Q
  /\ leaf_distance parentIndex distanceToParent i j = Some dij.

Definition closer (a b : cherry) : Prop := (snd a <= snd b)%Q.

(** The inputs on which no assertion of [pickCherries] fails: as many
    distances as nodes, no parent after its child, node 0 the only node with
    a negative parent, no negative distance. *)
Definition valid_tree (parentIndex : list Z) (distanceToParent : list Q) : Prop :=
  length parentIndex = length distanceToParent
  /\ (forall n, (n < length parentIndex)%nat -> (nth n parentIndex 0 <= Z.of_nat n)%Z)
  /\ (0 < length parentIndex)%nat
  /\ (nth 0 parentIndex 0 < 0)%Z
  /\ (forall n, (1 <= n < length parentIndex)%nat -> (0 <= nth n parentIndex 0)%Z)
  /\ (forall x, In x distanceToParent -> (0 <= x)%Q).

(** A padding node is its own parent.  In a tree without padding above a
    real node, the parent of a node that is not padding is not padding. *)
Definition no_padding_above (parentIndex : list Z) : Prop :=
  forall n, (1 <= n < length parentIndex)%nat ->
    nth n parentIndex 0%Z <> Z.of_nat n ->
    nth (Z.to_nat (nth n parentIndex 0%Z)) parentIndex 0%Z <> nth n parentIndex 0%Z.

(** A leaf at distance zero from an earlier leaf: [leafPairs] drops it as a
    duplicate. *)
Definition duplicate_leaf (parentIndex : list Z) (distanceToParent : list Q)
  (x : nat) : Prop :=
  exists i dij,
    In i (find_leaves parentIndex) /\ (i < x)%nat
    /\ leaf_distance parentIndex distanceToParent i x = Some dij /\ (dij <= 0)%Q.

(** A contact matrix on three components: component 0 touches 1 and 2. *)
Definition triangle_contacts : list (list Z) := [[0; 1; 1]; [1; 0; 0]; [1; 0; 0]]%Z.

(** Two components, the first in state 0 and the second in state 1. *)
Definition states_01 : ivec := [0; 1]%nat.

(** ** Discretised times (cherry.py) *)

(** [jnp.round]: rounding to the nearest integer, a tie going to the even
    neighbour. *)
Definition jnp_round (x : R) : R :=
  let f := Int_part x in
  let d := frac_part x in
  if Rlt_dec d (1 / 2) then IZR f
  else if Rlt_dec (1 / 2) d then IZR (f + 1)
  else if Z.even f then IZR f else IZR (f + 1).

(** [defaultLogBase = 10**.1] *)
Definition defaultLogBase : R := Rpower 10 (1 / 10).

Definition discretizeTime (t logBase : R) : R :=
  jnp_round (ln t / ln logBase).

(** [jnp.power(logBase, t)] at a positive base. *)
Definition undiscretizeTime (t logBase : R) : R := Rpower logBase t.

(** * Properties *)

(** ** Array lemmas *)

Lemma at_in_range {A : Type} (d : A) (l : list A) (i : nat) :
  (i < length l)%nat -> at_ d l i = nth i l d.
Proof.
  intros Hi. unfold at_. f_equal. lia.
Qed.

Lemma at_clamped {A : Type} (d : A) (l : list A) (i : nat) :
  at_ d l i = at_ d l (Nat.min i (pred (length l))).
Proof.
  unfold at_. f_equal. lia.
Qed.

Lemma vget_mk_vec (n : nat) (f : nat -> R) (i : nat) :
  (i < n)%nat -> vget (mk_vec n f) i = f i.
Proof.
  intros Hi. unfold vget, mk_vec.
  rewrite at_in_range by (rewrite length_map, length_seq; exact Hi).
  rewrite nth_indep with (d' := f 0%nat) by (rewrite length_map, length_seq; exact Hi).
  rewrite map_nth, seq_nth by exact Hi. reflexivity.
Qed.

Lemma row_mk_mat (r c : nat) (f : nat -> nat -> R) (i : nat) :
  (i < r)%nat -> row (mk_mat r c f) i = mk_vec c (f i).
Proof.
  intros Hi. unfold row, mk_mat.
  rewrite at_in_range by (rewrite length_map, length_seq; exact Hi).
  rewrite nth_indep with (d' := mk_vec c (f 0%nat))
    by (rewrite length_map, length_seq; exact Hi).
  rewrite (map_nth (fun i => mk_vec c (f i))), seq_nth by exact Hi. reflexivity.
Qed.

Lemma mget_mk_mat (r c : nat) (f : nat -> nat -> R) (i j : nat) :
  (i < r)%nat -> (j < c)%nat -> mget (mk_mat r c f) i j = f i j.
Proof.
  intros Hi Hj. unfold mget. rewrite row_mk_mat by exact Hi.
  apply vget_mk_vec. exact Hj.
Qed.

Lemma slice_mk_ten3 (n r c : nat) (f : nat -> nat -> nat -> R) (a : nat) :
  (a < n)%nat -> at_ [] (mk_ten3 n r c f) a = mk_mat r c (f a).
Proof.
  intros Ha. unfold mk_ten3.
  rewrite at_in_range by (rewrite length_map, length_seq; exact Ha).
  rewrite nth_indep with (d' := mk_mat r c (f 0%nat))
    by (rewrite length_map, length_seq; exact Ha).
  rewrite (map_nth (fun i => mk_mat r c (f i))), seq_nth by exact Ha. reflexivity.
Qed.

Lemma t3get_mk_ten3 (n r c : nat) (f : nat -> nat -> nat -> R) (a i j : nat) :
  (a < n)%nat -> (i < r)%nat -> (j < c)%nat ->
  t3get (mk_ten3 n r c f) a i j = f a i j.
Proof.
  intros Ha Hi Hj. unfold t3get. rewrite slice_mk_ten3 by exact Ha.
  apply mget_mk_mat; assumption.
Qed.

Lemma nrows_mk_mat (r c : nat) (f : nat -> nat -> R) : nrows (mk_mat r c f) = r.
Proof.
  unfold nrows, mk_mat. rewrite length_map, length_seq. reflexivity.
Qed.

Lemma ncols_mk_mat (r c : nat) (f : nat -> nat -> R) :
  (0 < r)%nat -> ncols (mk_mat r c f) = c.
Proof.
  intros Hr. unfold ncols, mk_mat. destruct r as [|r']; [lia|].
  cbn [seq map hd]. unfold mk_vec. rewrite length_map, length_seq. reflexivity.
Qed.

Lemma nrows_mat_map (f : R -> R) (m : mat) : nrows (mat_map f m) = nrows m.
Proof.
  unfold nrows, mat_map. apply length_map.
Qed.

Lemma ncols_mat_map (f : R -> R) (m : mat) : ncols (mat_map f m) = ncols m.
Proof.
  unfold ncols, mat_map. destruct m as [|r0 tl]; cbn [map hd length].
  - reflexivity.
  - apply length_map.
Qed.

Lemma big_sum_ext (n : nat) (f g : nat -> R) :
  (forall i, (i < n)%nat -> f i = g i) -> big_sum n f = big_sum n g.
Proof.
  intros H. unfold big_sum, mk_vec. f_equal.
  apply map_ext_in. intros i Hi. apply in_seq in Hi. apply H. lia.
Qed.

Lemma big_sum_zero (n : nat) (f : nat -> R) :
  (forall i, (i < n)%nat -> f i = 0) -> big_sum n f = 0.
Proof.
  intros H. unfold big_sum, mk_vec.
  assert (Hall : forall i, In i (seq 0 n) -> f i = 0).
  { intros i Hi. apply in_seq in Hi. apply H. lia. }
  induction (seq 0 n) as [|a l IH]; cbn [map vsum fold_right].
  - reflexivity.
  - rewrite Hall by (left; reflexivity). fold (vsum (map f l)).
    rewrite IH by (intros i Hi; apply Hall; right; exact Hi). lra.
Qed.

(** ** Parameter normalisation *)

Lemma Rabs_zero : Rabs 0 = 0.
Proof. apply Rabs_R0. Qed.

Lemma Rabs_one : Rabs 1 = 1.
Proof. apply Rabs_R1. Qed.

Ltac eval_entries :=
  cbn; rewrite ?Rabs_zero, ?Rabs_one;
  repeat (f_equal; try lra).

Lemma normalise_asymmetric_S :
  S_ (normalise_ctbn_params raw_asymmetric) = [[-1; 1/2]; [1/2; 0]].
Proof.
  eval_entries.
Qed.

(** C4 (evaluation at the failing input).  On the raw, non-symmetric
    exchangeability matrix [[0,1],[0,0]], [normalise_ctbn_params] returns the
    S component [[-1,1/2],[1/2,0]]: its first row sums to -1/2 and its second
    row to 1/2, so the result is not a generator. *)
Theorem normalise_rows_not_zero_sum :
  let S' := S_ (normalise_ctbn_params raw_asymmetric) in
  S' = [[-1; 1/2]; [1/2; 0]]
  /\ vsum (row S' 0) = - (1/2)
  /\ vsum (row S' 1) = 1/2.
Proof.
  cbv zeta. rewrite normalise_asymmetric_S.
  repeat split; cbn; lra.
Qed.

(** C5 (evaluation at the failing input).  Applied to its own output on
    [[0,1],[0,0]], [normalise_ctbn_params] changes the S component from
    [[-1,1/2],[1/2,0]] to [[-1/2,1/2],[1/2,-1/2]]. *)
Theorem normalise_not_idempotent :
  let once := normalise_ctbn_params raw_asymmetric in
  let twice := normalise_ctbn_params once in
  S_ once = [[-1; 1/2]; [1/2; 0]]
  /\ S_ twice = [[-(1/2); 1/2]; [1/2; -(1/2)]]
  /\ S_ twice <> S_ once.
Proof.
  cbv zeta.
  assert (H2 : S_ (normalise_ctbn_params (normalise_ctbn_params raw_asymmetric))
               = [[-(1/2); 1/2]; [1/2; -(1/2)]]).
  { unfold normalise_ctbn_params at 1. cbn [S_].
    rewrite normalise_asymmetric_S.
    cbn.
    replace (Rabs (-1)) with 1 by (unfold Rabs; destruct (Rcase_abs (-1)); lra).
    replace (Rabs (1 / 2)) with (1 / 2) by (rewrite Rabs_pos_eq; lra).
    rewrite ?Rabs_zero.
    repeat (f_equal; try lra). }
  split; [apply normalise_asymmetric_S|].
  split; [exact H2|].
  rewrite H2, normalise_asymmetric_S. intros Heq.
  injection Heq as Heq _. lra.
Qed.

(** ** The mean-field rate [q_bar] *)

Lemma smallest_float32_pos : 0 < smallest_float32.
Proof.
  unfold smallest_float32. apply Rinv_0_lt_compat. apply pow_lt. lra.
Qed.

Lemma smallest_float32_lt_1 : smallest_float32 < 1.
Proof.
  unfold smallest_float32.
  assert (H : 1 < 2 ^ 126) by (apply Rlt_pow_R1; [lra | lia]).
  apply Rmult_lt_reg_r with (2 ^ 126); [lra|].
  rewrite Rinv_l by lra. lra.
Qed.

Lemma Rmax_floor_pos (x : R) : 0 < Rmax x smallest_float32.
Proof.
  eapply Rlt_le_trans; [apply smallest_float32_pos | apply Rmax_r].
Qed.

Lemma exp_safe_log (x : R) : exp (safe_log x) = Rmax x smallest_float32.
Proof.
  unfold safe_log. apply exp_ln. apply Rmax_floor_pos.
Qed.

Lemma product_clamped (xs : vec) :
  product xs = fold_right Rmult 1 (map (fun x => Rmax x smallest_float32) xs).
Proof.
  unfold product. induction xs as [|x xs IH]; cbn [map vsum fold_right].
  - apply exp_0.
  - fold (vsum (map safe_log xs)). rewrite exp_plus, exp_safe_log, IH. reflexivity.
Qed.

Lemma product_mk_vec (n : nat) (f : nat -> R) :
  product (mk_vec n f) = big_prod n (fun k => Rmax (f k) smallest_float32).
Proof.
  rewrite product_clamped. unfold big_prod, mk_vec. rewrite map_map. reflexivity.
Qed.

Lemma big_prod_ext (n : nat) (f g : nat -> R) :
  (forall i, (i < n)%nat -> f i = g i) -> big_prod n f = big_prod n g.
Proof.
  intros H. unfold big_prod, mk_vec. f_equal.
  apply map_ext_in. intros i Hi. apply in_seq in Hi. apply H. lia.
Qed.

Lemma mget_offdiag_mask (N x y : nat) :
  (x < N)%nat -> (y < N)%nat ->
  mget (offdiag_mask N) x y = if Nat.eqb x y then 0 else 1.
Proof.
  intros Hx Hy. unfold offdiag_mask, mat_zip.
  assert (HN : (0 < N)%nat) by lia.
  unfold ones at 1 2. rewrite nrows_mk_mat, ncols_mk_mat by exact HN.
  rewrite mget_mk_mat by assumption.
  unfold ones, eye. rewrite !mget_mk_mat by assumption.
  destruct (Nat.eqb x y); lra.
Qed.

Lemma row_length_of_shape (r c : nat) (m : mat) (i : nat) :
  has_shape r c m -> (i < r)%nat -> length (row m i) = c.
Proof.
  intros [Hlen Hall] Hi. unfold row. rewrite at_in_range by lia.
  rewrite Forall_forall in Hall. apply Hall. apply nth_In. lia.
Qed.

Lemma mget_mat_map (f : R -> R) (r c : nat) (m : mat) (i j : nat) :
  has_shape r c m -> (i < r)%nat -> (j < c)%nat ->
  mget (mat_map f m) i j = f (mget m i j).
Proof.
  intros Hs Hi Hj. pose proof (row_length_of_shape r c m i Hs Hi) as Hrow.
  destruct Hs as [Hlen _].
  unfold mget, row in *. unfold mat_map.
  rewrite (at_in_range [] (map (map f) m)) by (rewrite length_map; lia).
  rewrite (at_in_range [] m) in * by lia.
  rewrite nth_indep with (d' := map f []) by (rewrite length_map; lia).
  rewrite (map_nth (map f)).
  unfold vget. rewrite !at_in_range by (rewrite ?length_map; lia).
  rewrite nth_indep with (d' := f 0) by (rewrite length_map; lia).
  apply map_nth.
Qed.

Lemma mget_mat_zip (f : R -> R -> R) (a b : mat) (i j : nat) :
  (i < nrows a)%nat -> (j < ncols a)%nat ->
  mget (mat_zip f a b) i j = f (mget a i j) (mget b i j).
Proof.
  intros Hi Hj. unfold mat_zip. apply mget_mk_mat; assumption.
Qed.

Lemma ncols_of_shape (r c : nat) (m : mat) :
  has_shape r c m -> (0 < r)%nat -> ncols m = c.
Proof.
  intros [Hlen Hall] Hr. unfold ncols. destruct m as [|r0 tl]; cbn in *; [lia|].
  inversion Hall; assumption.
Qed.

(** What [q_bar] returns at an entry in range, for well-shaped S and J. *)
Lemma q_bar_entry (idx : ivec) (nbr_idx nbr_mask : imat) (params : ctbn_params)
  (mu : mat) (a x y : nat) :
  let N := ncols mu in
  has_shape N N (S_ params) -> has_shape N N (J_ params) ->
  (a < length idx)%nat -> (x < N)%nat -> (y < N)%nat ->
  t3get (q_bar nbr_idx nbr_mask params mu idx) a x y
  = q_bar_clamped idx nbr_idx nbr_mask params mu a x y.
Proof.
  intros N HS HJ Ha Hx Hy. unfold q_bar. fold N.
  rewrite t3get_mk_ten3 by assumption.
  rewrite product_mk_vec.
  assert (HN : (0 < N)%nat) by lia.
  pose proof (ncols_of_shape N N _ HS HN) as HSc.
  assert (HSr : nrows (S_ params) = N) by (destruct HS as [HSl _]; exact HSl).
  rewrite mget_mat_zip by (rewrite ?HSc, ?HSr; assumption).
  rewrite mget_offdiag_mask by assumption.
  unfold q_bar_clamped. destruct (Nat.eqb x y).
  - lra.
  - rewrite Rmult_1_r. f_equal.
    apply big_prod_ext. intros k _. f_equal.
    unfold neighbour_factor. fold N. f_equal.
    apply big_sum_ext. intros x' Hx'.
    rewrite (mget_mat_map _ N N) by assumption. reflexivity.
Qed.

(** The clamped value is the stated one when no factor falls below the
    smallest normal float32. *)
Lemma q_bar_clamped_eq_stated (idx : ivec) (nbr_idx nbr_mask : imat)
  (params : ctbn_params) (mu : mat) (a x y : nat) :
  (forall k, (k < ncols nbr_idx)%nat ->
     smallest_float32 <= neighbour_factor nbr_idx nbr_mask params mu (iget idx a) k y) ->
  q_bar_clamped idx nbr_idx nbr_mask params mu a x y
  = q_bar_stated idx nbr_idx nbr_mask params mu a x y.
Proof.
  intros Hbig. unfold q_bar_clamped, q_bar_stated.
  destruct (Nat.eqb x y); [reflexivity|]. f_equal.
  apply big_prod_ext. intros k Hk. apply Rmax_left. apply Hbig. exact Hk.
Qed.

Lemma pow2_le_exp (n : nat) : 2 ^ n <= exp (INR n).
Proof.
  induction n as [|n IH].
  - cbn. rewrite exp_0. lra.
  - rewrite S_INR, exp_plus. cbn [pow].
    pose proof (exp_ineq1_le 1) as H1.
    pose proof (pow_lt 2 n ltac:(lra)) as Hp.
    rewrite Rmult_comm. apply Rmult_le_compat; lra.
Qed.

Lemma exp_minus_200_below_floor : exp (2 * -100) < smallest_float32.
Proof.
  replace (2 * -100) with (- INR 200)
    by (rewrite INR_IZR_INZ; cbn [Z.of_nat Pos.of_succ_nat Pos.succ]; lra).
  rewrite exp_Ropp. unfold smallest_float32.
  apply Rinv_lt_contravar.
  - apply Rmult_lt_0_compat; [apply pow_lt; lra | apply exp_pos].
  - eapply Rlt_le_trans; [|apply pow2_le_exp].
    apply Rlt_pow; [lra | lia].
Qed.

Lemma star_shapes :
  has_shape (ncols star_mu) (ncols star_mu) (S_ mixed_params)
  /\ has_shape (ncols star_mu) (ncols star_mu) (J_ mixed_params).
Proof.
  split; (split; [reflexivity | repeat constructor]).
Qed.

Lemma exp_80_above_1 : 1 < exp (2 * 40).
Proof.
  rewrite <- exp_0 at 1. apply exp_increasing. lra.
Qed.

(** Entry (0,1,0) of [q_bar] on the star: the factor of the neighbour in
    state 1 is exp(-200), below the smallest normal float32, and counts as
    2^-126; the factor of the neighbour in state 2 is exp(80). *)
Lemma q_bar_on_star :
  t3get (q_bar star_nbr_idx star_nbr_mask mixed_params star_mu [0%nat]) 0 1 0
  = smallest_float32 * exp (2 * 40)
  /\ q_bar_stated [0%nat] star_nbr_idx star_nbr_mask mixed_params star_mu 0 1 0
     = exp (2 * -100) * exp (2 * 40).
Proof.
  destruct star_shapes as [HS HJ].
  rewrite q_bar_entry by (try assumption; cbn; lia).
  unfold q_bar_clamped, q_bar_stated, neighbour_factor, big_prod, big_sum.
  cbn.
  replace (0 * exp (2 * 0) + (1 * exp (2 * -100) + (0 * exp (2 * 40) + 0)))
    with (exp (2 * -100)) by lra.
  replace (0 * exp (2 * 0) + (0 * exp (2 * -100) + (1 * exp (2 * 40) + 0)))
    with (exp (2 * 40)) by lra.
  pose proof exp_minus_200_below_floor as Hlt.
  pose proof exp_80_above_1 as Hgt.
  pose proof smallest_float32_lt_1 as Hs.
  rewrite !Rmult_1_r.
  rewrite Rmax_right by lra. rewrite Rmax_left by lra.
  rewrite exp_0. split; lra.
Qed.

(** C2 as stated fails: on the star, entry (0,1,0) of [q_bar] is
    2^-126 * exp(80), about 6.5e-4, and not the stated
    exp(-200) * exp(80) = exp(-120). *)
Lemma q_bar_stated_fails :
  t3get (q_bar star_nbr_idx star_nbr_mask mixed_params star_mu [0%nat]) 0 1 0
  <> q_bar_stated [0%nat] star_nbr_idx star_nbr_mask mixed_params star_mu 0 1 0.
Proof.
  destruct q_bar_on_star as [-> ->].
  pose proof exp_minus_200_below_floor as Hlt.
  pose proof exp_80_above_1 as Hgt.
  intros Heq. apply Rmult_eq_reg_r in Heq; lra.
Qed.

(** C2 (amended).  For well-shaped S and J and indices in range, entry
    (a,x,y) of [q_bar] is 0 on the diagonal and otherwise
    S[x,y] * exp(h[y]) * the product over the neighbour slots k of
    max((sum over x' of mu[nbr_idx[idx[a],k]][x'] * exp(2*J[y,x']))^nbr_mask[idx[a],k],
        smallest_float32),
    provided that product is above the smallest normal float32 (a product
    at or below it is not representable as a normal float32, which the
    program computes in). *)
Theorem q_bar_entries (idx : ivec) (nbr_idx nbr_mask : imat) (params : ctbn_params)
  (mu : mat) (a x y : nat) :
  let clamped_product :=
    big_prod (ncols nbr_idx) (fun k =>
      Rmax (big_sum (ncols mu) (fun x' =>
              mget mu (imget nbr_idx (iget idx a) k) x'
              * exp (2 * mget (J_ params) y x'))
            ^ imget nbr_mask (iget idx a) k)
           smallest_float32) in
  has_shape (ncols mu) (ncols mu) (S_ params) ->
  has_shape (ncols mu) (ncols mu) (J_ params) ->
  (a < length idx)%nat -> (x < ncols mu)%nat -> (y < ncols mu)%nat ->
  smallest_float32 < clamped_product ->
  t3get (q_bar nbr_idx nbr_mask params mu idx) a x y
  = (if Nat.eqb x y then 0
     else mget (S_ params) x y * exp (vget (h_ params) y) * clamped_product).
Proof.
  intros clamped_product HS HJ Ha Hx Hy _.
  rewrite q_bar_entry by assumption. reflexivity.
Qed.

Lemma q_bar_entries_witness :
  t3get (q_bar star_nbr_idx star_nbr_mask mixed_params star_mu [0%nat]) 0 1 0
  = mget (S_ mixed_params) 1 0 * exp (vget (h_ mixed_params) 0)
    * big_prod (ncols star_nbr_idx) (fun k =>
        Rmax (big_sum (ncols star_mu) (fun x' =>
                mget star_mu (imget star_nbr_idx (iget [0%nat] 0) k) x'
                * exp (2 * mget (J_ mixed_params) 0 x'))
              ^ imget star_nbr_mask (iget [0%nat] 0) k)
             smallest_float32).
Proof.
  apply (q_bar_entries [0%nat] star_nbr_idx star_nbr_mask mixed_params star_mu 0 1 0).
  - split; [reflexivity | repeat constructor].
  - split; [reflexivity | repeat constructor].
  - cbv. lia.
  - cbv. lia.
  - cbv. lia.
  - unfold big_prod, big_sum. cbn.
    replace (0 * exp (2 * 0) + (1 * exp (2 * -100) + (0 * exp (2 * 40) + 0)))
      with (exp (2 * -100)) by lra.
    replace (0 * exp (2 * 0) + (0 * exp (2 * -100) + (1 * exp (2 * 40) + 0)))
      with (exp (2 * 40)) by lra.
    pose proof exp_minus_200_below_floor as Hlt.
    pose proof exp_80_above_1 as Hgt.
    pose proof smallest_float32_pos as Hpos.
    pose proof smallest_float32_lt_1 as Hs.
    rewrite !Rmult_1_r.
    rewrite Rmax_right by lra. rewrite Rmax_left by lra. nra.
Defined.

(** ** The guard at the terminal boundary *)

Lemma where_lt_before (t T : R) (mu rho : mat) : t < T -> where_lt t T mu rho = mu.
Proof.
  intros H. unfold where_lt. destruct (Rlt_dec t T); [reflexivity | contradiction].
Qed.

Lemma where_lt_boundary (t T : R) (mu rho : mat) : ~ t < T -> where_lt t T mu rho = rho.
Proof.
  intros H. unfold where_lt. destruct (Rlt_dec t T); [contradiction | reflexivity].
Qed.

(** C6.  With mu and rho the stacked evaluations of the trajectories at t:
    when t is not strictly less than T, the three right-hand sides compute
    their derivative with rho in the place of mu; when t < T they use mu as
    stacked (in [mu_term] the stacked mu carries the integrated row
    [mu_i_t] at position i, in [rho_term] rho carries [rho_i_t]); [rho_term]
    raises exactly when that derivative does. *)
Theorem boundary_guard (seq_mask : ivec) (nbr_idx nbr_mask : imat)
  (params : ctbn_params) (mu_solns rho_solns : list Soln) (T t F_t : R)
  (i : nat) (y_t : vec) :
  let mu := map (fun s : Soln => s t) mu_solns in
  let rho := map (fun s : Soln => s t) rho_solns in
  let masked d := map (fun v => INR (iget seq_mask i) * v) d in
  (~ t < T ->
     F_term seq_mask nbr_idx nbr_mask params mu_solns rho_solns T t F_t
     = F_deriv nbr_idx nbr_mask params rho rho seq_mask
     /\ rho_term seq_mask nbr_idx nbr_mask params mu_solns rho_solns T i t y_t
        = option_map masked (rho_deriv nbr_idx nbr_mask params rho (set_nth rho i y_t) i)
     /\ mu_term seq_mask nbr_idx nbr_mask params mu_solns rho_solns T i t y_t
        = masked (mu_deriv nbr_idx nbr_mask params rho rho i))
  /\ (t < T ->
     F_term seq_mask nbr_idx nbr_mask params mu_solns rho_solns T t F_t
     = F_deriv nbr_idx nbr_mask params mu rho seq_mask
     /\ rho_term seq_mask nbr_idx nbr_mask params mu_solns rho_solns T i t y_t
        = option_map masked (rho_deriv nbr_idx nbr_mask params mu (set_nth rho i y_t) i)
     /\ mu_term seq_mask nbr_idx nbr_mask params mu_solns rho_solns T i t y_t
        = masked (mu_deriv nbr_idx nbr_mask params (set_nth mu i y_t) rho i)).
Proof.
  intros mu rho masked.
  unfold F_term, rho_term, mu_term, eval_mu_rho. fold mu rho.
  split; intros H.
  - rewrite !where_lt_boundary by exact H. repeat split; reflexivity.
  - rewrite !where_lt_before by exact H. repeat split; reflexivity.
Qed.

Lemma boundary_guard_witness :
  F_term pair_seq_mask pair_nbr_idx pair_nbr_mask decoupled_params
    [start_in_0; start_in_0] [end_in_1; end_in_1] 1 1 0
  = F_deriv pair_nbr_idx pair_nbr_mask decoupled_params
      [[0; 1]; [0; 1]] [[0; 1]; [0; 1]] pair_seq_mask
  /\ F_term pair_seq_mask pair_nbr_idx pair_nbr_mask decoupled_params
       [start_in_0; start_in_0] [end_in_1; end_in_1] 1 0 0
     = F_deriv pair_nbr_idx pair_nbr_mask decoupled_params
         [[1; 0]; [1; 0]] [[0; 1]; [0; 1]] pair_seq_mask.
Proof.
  split.
  - apply (proj1 (boundary_guard pair_seq_mask pair_nbr_idx pair_nbr_mask
                    decoupled_params [start_in_0; start_in_0] [end_in_1; end_in_1]
                    1 1 0 0%nat [1; 0])).
    lra.
  - apply (proj2 (boundary_guard pair_seq_mask pair_nbr_idx pair_nbr_mask
                    decoupled_params [start_in_0; start_in_0] [end_in_1; end_in_1]
                    1 0 0 0%nat [1; 0])).
    lra.
Defined.

(** ** Exact single-component trajectories *)

Lemma mk_vec_id (c : nat) (f : nat -> R) (v : vec) :
  length v = c -> (forall j, (j < c)%nat -> f j = vget v j) -> mk_vec c f = v.
Proof.
  intros Hlen Hf. apply nth_ext with (d := 0) (d' := 0).
  - unfold mk_vec. rewrite length_map, length_seq. symmetry. exact Hlen.
  - intros j Hj. unfold mk_vec in Hj. rewrite length_map, length_seq in Hj.
    rewrite <- (at_in_range 0 (mk_vec c f) j)
      by (unfold mk_vec; rewrite length_map, length_seq; exact Hj).
    fold (vget (mk_vec c f) j). rewrite vget_mk_vec by exact Hj.
    rewrite Hf by exact Hj. unfold vget. apply at_in_range. lia.
Qed.

Lemma mk_mat_id (r c : nat) (f : nat -> nat -> R) (m : mat) :
  has_shape r c m ->
  (forall i j, (i < r)%nat -> (j < c)%nat -> f i j = mget m i j) ->
  mk_mat r c f = m.
Proof.
  intros Hs Hf. pose proof Hs as [Hlen _].
  apply nth_ext with (d := []) (d' := []).
  - rewrite <- Hlen. apply nrows_mk_mat.
  - intros i Hi. fold (nrows (mk_mat r c f)) in Hi. rewrite nrows_mk_mat in Hi.
    rewrite <- (at_in_range [] (mk_mat r c f) i)
      by (fold (nrows (mk_mat r c f)); rewrite nrows_mk_mat; exact Hi).
    fold (row (mk_mat r c f) i). rewrite row_mk_mat by exact Hi.
    rewrite <- (at_in_range [] m i) by lia. fold (row m i).
    apply mk_vec_id.
    + apply (row_length_of_shape r c); assumption.
    + intros j Hj. apply Hf; assumption.
Qed.

Lemma row_normalise_rate_matrix (Q : mat) : is_rate_matrix Q -> row_normalise Q = Q.
Proof.
  intros [Hs Hz]. unfold row_normalise, mat_zip.
  destruct (Nat.eq_dec (length Q) 0) as [H0 | Hpos].
  - apply length_zero_iff_nil in H0. subst Q. reflexivity.
  - unfold nrows. rewrite (ncols_of_shape _ _ _ Hs) by lia.
    apply mk_mat_id; [exact Hs|].
    intros i j Hi Hj. unfold diag. rewrite length_map.
    rewrite mget_mk_mat by assumption.
    assert (Hv : vget (map vsum Q) i = 0).
    { unfold vget. rewrite at_in_range by (rewrite length_map; exact Hi).
      rewrite nth_indep with (d' := vsum []) by (rewrite length_map; exact Hi).
      rewrite map_nth. rewrite Forall_forall in Hz. apply Hz. apply nth_In. exact Hi. }
    rewrite Hv. destruct (Nat.eqb i j); lra.
Qed.

Lemma vsum_scaled (c : R) (v : vec) : vsum (map (fun m => m / c) v) = vsum v / c.
Proof.
  induction v as [|a v IH]; cbn [map vsum fold_right].
  - lra.
  - fold (vsum (map (fun m => m / c) v)) (vsum v). rewrite IH. lra.
Qed.

(** C7.  For a rate matrix Q the construction succeeds, [ExactRho.evaluate(t)]
    is column y of expm(Q*(T-t)) with every entry clamped to at most 1, and
    [ExactMu.evaluate(t)] is row x of expm(Q*t) times rho(t), divided by
    expm(Q*T)[x,y], then divided by its own sum, so that it sums to 1
    whenever that sum is not zero. *)
Theorem exact_trajectories (expm : mat -> mat) (Q : mat) (T : R) (x y : nat) :
  is_rate_matrix Q ->
  exists self,
    ExactRho_init expm Q T x y = Some self
    /\ forall t,
         let rho := map (fun r => Rmin r 1) (column (expm (mat_scale Q (T - t))) y) in
         let mu :=
           vec_zip (fun a b => a * b / mget (expm (mat_scale Q T)) x y)
                   (row (expm (mat_scale Q t)) x) rho in
         ExactRho_evaluate expm self t = rho
         /\ ExactMu_evaluate expm self t = map (fun m => m / vsum mu) mu
         /\ (vsum mu <> 0 -> vsum (ExactMu_evaluate expm self t) = 1).
Proof.
  intros HQ. pose proof HQ as [Hs _].
  assert (Hc : Nat.eqb (ncols Q) (nrows Q) = true).
  { unfold nrows. destruct Q as [|r0 tl]; [reflexivity|].
    rewrite (ncols_of_shape _ _ _ Hs) by (cbn; lia). apply Nat.eqb_refl. }
  unfold ExactRho_init. cbv zeta. rewrite Nat.eqb_refl, Hc. cbn [andb]. eexists.
  split; [reflexivity|].
  intros t. unfold ExactRho_evaluate, ExactMu_evaluate, ExactRho_evaluate.
  cbn [exq exT exx exy exp_qT].
  rewrite row_normalise_rate_matrix by exact HQ.
  split; [reflexivity|]. split; [reflexivity|].
  intros Hsum. rewrite vsum_scaled. field. exact Hsum.
Qed.

Lemma exact_trajectories_witness :
  exists self,
    ExactRho_init (fun m => m) (S_ decoupled_params) 1 0 1 = Some self
    /\ forall t,
         let rho := map (fun r => Rmin r 1)
                        (column (mat_scale (S_ decoupled_params) (1 - t)) 1) in
         let mu :=
           vec_zip (fun a b => a * b / mget (mat_scale (S_ decoupled_params) 1) 0 1)
                   (row (mat_scale (S_ decoupled_params) t) 0) rho in
         ExactRho_evaluate (fun m => m) self t = rho
         /\ ExactMu_evaluate (fun m => m) self t = map (fun m => m / vsum mu) mu
         /\ (vsum mu <> 0 -> vsum (ExactMu_evaluate (fun m => m) self t) = 1).
Proof.
  apply (exact_trajectories (fun m => m) (S_ decoupled_params) 1 0 1).
  split.
  - split; [reflexivity | repeat constructor].
  - repeat constructor; simpl; lra.
Defined.

(** ** Padding *)

Lemma iget_seq (K i : nat) : (i < K)%nat -> iget (seq 0 K) i = i.
Proof.
  intros Hi. unfold iget. rewrite at_in_range by (rewrite length_seq; exact Hi).
  apply seq_nth. exact Hi.
Qed.

Lemma mk_vec_ext (n : nat) (f g : nat -> R) :
  (forall i, (i < n)%nat -> f i = g i) -> mk_vec n f = mk_vec n g.
Proof.
  intros H. unfold mk_vec. apply map_ext_in. intros i Hi.
  apply in_seq in Hi. apply H. lia.
Qed.

Section Padding.

Variables (seq_mask : ivec) (nbr_idx nbr_mask : imat) (params : ctbn_params).
Variables (mu mu' rho rho' : mat).

Let K := nrows mu.
Let N := ncols mu.

Hypothesis same_rows : nrows mu' = K.
Hypothesis same_cols : ncols mu' = N.
Hypothesis mask_length : length seq_mask = K.
Hypothesis mu_agree : agree_on_real seq_mask K mu mu'.
Hypothesis rho_agree : agree_on_real seq_mask K rho rho'.
Hypothesis closed : real_neighbours seq_mask K nbr_idx nbr_mask.

(** A masked-in neighbour of a real component has the same row in mu and in
    mu', also when its index is clamped. *)
Lemma neighbour_row_agree (i k : nat) :
  (i < K)%nat -> iget seq_mask i <> 0%nat ->
  (k < ncols nbr_idx)%nat -> imget nbr_mask i k <> 0%nat ->
  row mu (imget nbr_idx i k) = row mu' (imget nbr_idx i k).
Proof.
  intros Hi Hreal Hk Hin.
  pose proof (closed i k Hi Hreal Hk Hin) as Hnbr.
  set (j := imget nbr_idx i k) in *.
  unfold iget in Hnbr. rewrite at_clamped in Hnbr. fold (iget seq_mask (Nat.min j (pred (length seq_mask)))) in Hnbr.
  unfold row. rewrite (at_clamped [] mu j), (at_clamped [] mu' j).
  fold (nrows mu) (nrows mu'). rewrite same_rows. fold K.
  rewrite mask_length in Hnbr.
  apply (mu_agree (Nat.min j (pred K))); [lia | exact Hnbr].
Qed.

Lemma q_bar_agree (i x y : nat) :
  (i < K)%nat -> (x < N)%nat -> (y < N)%nat -> iget seq_mask i <> 0%nat ->
  t3get (q_bar nbr_idx nbr_mask params mu (seq 0 K)) i x y
  = t3get (q_bar nbr_idx nbr_mask params mu' (seq 0 K)) i x y.
Proof.
  intros Hi Hx Hy Hreal. unfold q_bar. rewrite same_cols. fold N.
  rewrite !t3get_mk_ten3 by (rewrite ?length_seq; assumption).
  f_equal. f_equal. apply mk_vec_ext. intros k Hk.
  rewrite iget_seq by exact Hi.
  destruct (Nat.eq_dec (imget nbr_mask i k) 0) as [Hout | Hin].
  - rewrite Hout. reflexivity.
  - f_equal. apply big_sum_ext. intros x' _. unfold mget.
    rewrite (neighbour_row_agree i k) by assumption. reflexivity.
Qed.

Lemma q_tilde_agree (i x y : nat) :
  (i < K)%nat -> (x < N)%nat -> (y < N)%nat -> iget seq_mask i <> 0%nat ->
  t3get (q_tilde nbr_idx nbr_mask params mu (seq 0 K)) i x y
  = t3get (q_tilde nbr_idx nbr_mask params mu' (seq 0 K)) i x y.
Proof.
  intros Hi Hx Hy Hreal. unfold q_tilde. rewrite same_cols. fold N.
  rewrite !t3get_mk_ten3 by (rewrite ?length_seq; assumption).
  f_equal. f_equal. f_equal. f_equal.
  apply big_sum_ext. intros k Hk. apply big_sum_ext. intros x' _.
  rewrite iget_seq by exact Hi.
  destruct (Nat.eq_dec (imget nbr_mask i k) 0) as [Hout | Hin].
  - rewrite Hout. cbn [INR]. lra.
  - unfold mget. rewrite (neighbour_row_agree i k) by assumption. reflexivity.
Qed.

Lemma gamma_agree (i x y : nat) :
  (i < K)%nat -> (x < N)%nat -> (y < N)%nat -> iget seq_mask i <> 0%nat ->
  t3get (gamma nbr_idx nbr_mask params mu rho (seq 0 K)) i x y
  = t3get (gamma nbr_idx nbr_mask params mu' rho' (seq 0 K)) i x y.
Proof.
  intros Hi Hx Hy Hreal. unfold gamma. rewrite same_cols. fold N.
  rewrite !t3get_mk_ten3 by (rewrite ?length_seq; assumption).
  rewrite iget_seq by exact Hi.
  rewrite q_tilde_agree by assumption.
  unfold mget. rewrite (mu_agree i Hi Hreal), (rho_agree i Hi Hreal). reflexivity.
Qed.

Lemma F_mask_agree (i x y : nat) :
  F_mask mu seq_mask i x y = F_mask mu' seq_mask i x y.
Proof.
  unfold F_mask. rewrite same_cols. reflexivity.
Qed.

Lemma F_mask_padded (i x y : nat) :
  iget seq_mask i = 0%nat -> F_mask mu seq_mask i x y = 0.
Proof.
  intros Hpad. unfold F_mask. rewrite Hpad. cbn [INR]. lra.
Qed.

Lemma F_rate_term_agree (i x y : nat) :
  (i < K)%nat -> (x < N)%nat -> (y < N)%nat ->
  F_rate_term nbr_idx nbr_mask params mu seq_mask i x y
  = F_rate_term nbr_idx nbr_mask params mu' seq_mask i x y.
Proof.
  intros Hi Hx Hy. unfold F_rate_term. rewrite same_rows. fold K.
  rewrite <- F_mask_agree.
  destruct (Nat.eq_dec (iget seq_mask i) 0) as [Hpad | Hreal].
  - rewrite F_mask_padded by exact Hpad. lra.
  - rewrite q_bar_agree by assumption.
    assert (Hm : mget mu i x = mget mu' i x)
      by (unfold mget; rewrite (mu_agree i Hi Hreal); reflexivity).
    rewrite Hm. reflexivity.
Qed.

Lemma F_gamma_term_agree (i x y : nat) :
  (i < K)%nat -> (x < N)%nat -> (y < N)%nat ->
  F_gamma_term nbr_idx nbr_mask params mu rho seq_mask i x y
  = F_gamma_term nbr_idx nbr_mask params mu' rho' seq_mask i x y.
Proof.
  intros Hi Hx Hy. unfold F_gamma_term. rewrite same_rows. fold K.
  rewrite <- F_mask_agree.
  destruct (Nat.eq_dec (iget seq_mask i) 0) as [Hpad | Hreal].
  - rewrite F_mask_padded by exact Hpad. lra.
  - rewrite gamma_agree, q_tilde_agree by assumption.
    assert (Hm : mget mu i x = mget mu' i x)
      by (unfold mget; rewrite (mu_agree i Hi Hreal); reflexivity).
    rewrite Hm. reflexivity.
Qed.

Lemma F_deriv_agree :
  F_deriv nbr_idx nbr_mask params mu rho seq_mask
  = F_deriv nbr_idx nbr_mask params mu' rho' seq_mask.
Proof.
  unfold F_deriv. rewrite same_rows, same_cols. fold K N.
  f_equal; [f_equal|];
    (apply big_sum_ext; intros i Hi; apply big_sum_ext; intros x Hx;
     apply big_sum_ext; intros y Hy).
  - apply F_rate_term_agree; assumption.
  - apply F_gamma_term_agree; assumption.
Qed.

End Padding.

(** Over the reals, where 0 * x = 0 for every x, and provided no real
    component has a masked-in padded neighbour: every summand of the two
    contractions of [F_deriv] that belongs to a padded component
    (seq_mask[i] = 0) is zero, and [F_deriv] takes the same value on
    (mu, rho) and (mu', rho') whenever these have the rows of the real
    components in common.  The program multiplies by the mask last, in
    float32: there a summand of a padded component that has overflowed is
    not zero but NaN, which this lemma does not cover. *)
Lemma padding_noninterference_over_reals (seq_mask : ivec) (nbr_idx nbr_mask : imat)
  (params : ctbn_params) (mu mu' rho rho' : mat) :
  nrows mu' = nrows mu -> ncols mu' = ncols mu ->
  length seq_mask = nrows mu ->
  real_neighbours seq_mask (nrows mu) nbr_idx nbr_mask ->
  agree_on_real seq_mask (nrows mu) mu mu' ->
  agree_on_real seq_mask (nrows mu) rho rho' ->
  (forall i x y, iget seq_mask i = 0%nat ->
     F_rate_term nbr_idx nbr_mask params mu seq_mask i x y = 0
     /\ F_gamma_term nbr_idx nbr_mask params mu rho seq_mask i x y = 0)
  /\ F_deriv nbr_idx nbr_mask params mu rho seq_mask
     = F_deriv nbr_idx nbr_mask params mu' rho' seq_mask.
Proof.
  intros Hrows Hcols Hlen Hclosed Hmu Hrho. split.
  - intros i x y Hpad. unfold F_rate_term, F_gamma_term.
    rewrite F_mask_padded by exact Hpad. split; lra.
  - apply F_deriv_agree; assumption.
Qed.

(** ** Validation in [get_Markov_blankets] *)

Lemma fold_left_max_init (l : list nat) (a : nat) :
  (a <= fold_left Nat.max l a)%nat.
Proof.
  revert a. induction l as [|b l IH]; intros a; cbn [fold_left].
  - lia.
  - specialize (IH (Nat.max a b)). lia.
Qed.

Lemma fold_left_max_ge (l : list nat) (a x : nat) :
  x = a \/ In x l -> (x <= fold_left Nat.max l a)%nat.
Proof.
  intros [Hx | Hx].
  - subst x. apply fold_left_max_init.
  - revert a. induction l as [|b l IH]; intros a; [destruct Hx|].
    cbn [fold_left]. destruct Hx as [Hx | Hx].
    + subst x. pose proof (fold_left_max_init l (Nat.max a b)). lia.
    + apply IH. exact Hx.
Qed.

Lemma py_max_bounds (l : list nat) (x : nat) :
  In x l -> exists mx, py_max l = inr mx /\ (x <= mx)%nat.
Proof.
  intros Hx. destruct l as [|a tl]; [destruct Hx|].
  cbn [py_max]. eexists. split; [reflexivity|].
  apply fold_left_max_ge. destruct Hx as [Hx | Hx]; [left; symmetry; exact Hx | right; exact Hx].
Qed.

(** C9.  When C is not square, or a supplied xs or ys has not the length of
    C, or a supplied M is smaller than the number of neighbours of some
    component, [get_Markov_blankets] returns no tuple: it fails with an
    assertion that carries one of its four messages. *)
Theorem invalid_input_fails_fast (C : list (list Z)) (xs ys : option ivec)
  (K M : option Z) :
  ncols C <> nrows C
  \/ (exists l, xs = Some l /\ length l <> nrows C)
  \/ (exists l, ys = Some l /\ length l <> nrows C)
  \/ (exists m i, M = Some m /\ (i < nrows C)%nat
                  /\ (m < Z.of_nat (length (nonzero (at_ [] C i))))%Z) ->
  exists msg,
    get_Markov_blankets C xs ys K M = inl (AssertionError msg)
    /\ In msg assertion_messages.
Proof.
  intros Hbad. unfold get_Markov_blankets. cbv zeta.
  rewrite Nat.eqb_refl. cbn [andb].
  destruct (Nat.eqb (ncols C) (nrows C)) eqn:Hsq; cbn [negb].
  2: { eexists. split; [reflexivity | cbn; tauto]. }
  apply Nat.eqb_eq in Hsq.
  destruct Hbad as [Hbad | Hbad]; [contradiction|].
  destruct (match xs with
            | Some l => negb (Nat.eqb (length l) (nrows C))
            | None => false
            end) eqn:Hxs.
  { eexists. split; [reflexivity | cbn; tauto]. }
  destruct Hbad as [[l [Hl Hlen]] | Hbad].
  { subst xs. apply negb_false_iff, Nat.eqb_eq in Hxs. contradiction. }
  destruct (match ys with
            | Some l => negb (Nat.eqb (length l) (nrows C))
            | None => false
            end) eqn:Hys.
  { eexists. split; [reflexivity | cbn; tauto]. }
  destruct Hbad as [[l [Hl Hlen]] | [m [i [HM [Hi Hm]]]]].
  { subst ys. apply negb_false_iff, Nat.eqb_eq in Hys. contradiction. }
  subst M.
  set (nbr_idx_list := map (fun i => nonzero (at_ [] C i)) (seq 0 (nrows C))).
  assert (Hin : In (length (nonzero (at_ [] C i))) (map (@length nat) nbr_idx_list)).
  { apply in_map. unfold nbr_idx_list.
    apply (in_map (fun i => nonzero (at_ [] C i))). apply in_seq. lia. }
  destruct (py_max_bounds _ _ Hin) as [mx [Hmx Hle]].
  rewrite Hmx.
  destruct (Z.geb m (Z.of_nat mx)) eqn:Hge.
  { rewrite Z.geb_le in Hge. lia. }
  eexists. split; [reflexivity | cbn; tauto].
Qed.

Lemma invalid_input_fails_fast_witness :
  exists msg,
    get_Markov_blankets [[0; 1]; [1; 0]]%Z None None None (Some 0%Z)
    = inl (AssertionError msg)
    /\ In msg assertion_messages.
Proof.
  apply (invalid_input_fails_fast [[0; 1]; [1; 0]]%Z None None None (Some 0%Z)).
  right. right. right. exists 0%Z, 0%nat.
  split; [reflexivity|]. split; [simpl; lia | vm_compute; reflexivity].
Defined.

(** ** Shapes on the way to the initial trajectories *)

Lemma ncols_mk_mat_like {A : Type} (a : list (list A)) (f : nat -> nat -> R) :
  ncols (mk_mat (nrows a) (ncols a) f) = ncols a.
Proof.
  destruct a as [|r0 tl].
  - reflexivity.
  - apply ncols_mk_mat. cbn. lia.
Qed.

Lemma nrows_mat_zip (f : R -> R -> R) (a b : mat) : nrows (mat_zip f a b) = nrows a.
Proof.
  apply nrows_mk_mat.
Qed.

Lemma ncols_mat_zip (f : R -> R -> R) (a b : mat) : ncols (mat_zip f a b) = ncols a.
Proof.
  apply ncols_mk_mat_like.
Qed.

Lemma shape_symmetrise (m : mat) :
  nrows (symmetrise m) = nrows m /\ ncols (symmetrise m) = ncols m.
Proof.
  unfold symmetrise. rewrite nrows_mat_map, ncols_mat_map, nrows_mat_zip, ncols_mat_zip.
  split; reflexivity.
Qed.

Lemma shape_row_normalise (m : mat) :
  nrows (row_normalise m) = nrows m /\ ncols (row_normalise m) = ncols m.
Proof.
  unfold row_normalise. rewrite nrows_mat_zip, ncols_mat_zip. split; reflexivity.
Qed.

Lemma shape_q_single (params : ctbn_params) :
  nrows (q_single params) = nrows (S_ params)
  /\ ncols (q_single params) = ncols (S_ params).
Proof.
  unfold q_single, q_single_offdiag. cbv zeta.
  destruct (shape_row_normalise
              (mk_mat (nrows (mat_zip Rmult (S_ params) (offdiag_mask (nrows (S_ params)))))
                      (ncols (mat_zip Rmult (S_ params) (offdiag_mask (nrows (S_ params)))))
                      (fun x y =>
                         mget (mat_zip Rmult (S_ params) (offdiag_mask (nrows (S_ params)))) x y
                         * exp (vget (h_ params) y)))) as [Hr Hc].
  rewrite Hr, Hc, nrows_mk_mat, ncols_mk_mat_like, nrows_mat_zip, ncols_mat_zip.
  split; reflexivity.
Qed.

Lemma shape_normalised_S (params : ctbn_params) :
  nrows (S_ (normalise_ctbn_params params)) = nrows (S_ params)
  /\ ncols (S_ (normalise_ctbn_params params)) = ncols (S_ params).
Proof.
  cbn [normalise_ctbn_params S_].
  destruct (shape_symmetrise (row_normalise (mat_map Rabs (S_ params)))) as [Hr Hc].
  destruct (shape_row_normalise (mat_map Rabs (S_ params))) as [Hr' Hc'].
  rewrite Hr, Hc, Hr', Hc', nrows_mat_map, ncols_mat_map. split; reflexivity.
Qed.

Lemma mapM_total {A B : Type} (f : A -> option B) (l : list A) :
  (forall a, In a l -> exists b, f a = Some b) -> exists bs, mapM f l = Some bs.
Proof.
  induction l as [|a l IH]; intros H; cbn [mapM].
  - eexists. reflexivity.
  - destruct (H a (or_introl eq_refl)) as [b Hb]. rewrite Hb.
    destruct IH as [bs Hbs]; [intros a' Ha'; apply H; right; exact Ha'|].
    rewrite Hbs. eexists. reflexivity.
Qed.

Lemma ExactRho_init_square (expm : mat -> mat) (q : mat) (T : R) (x y : nat) :
  ncols q = nrows q -> exists self, ExactRho_init expm q T x y = Some self.
Proof.
  intros Hsq. unfold ExactRho_init. cbv zeta.
  rewrite Hsq, Nat.eqb_refl. cbn [andb]. eexists. reflexivity.
Qed.

(** ** The driver *)

Lemma ExactRho_init_value (expm : mat -> mat) (q : mat) (T : R) (x y : nat) :
  ncols q = nrows q ->
  ExactRho_init expm q T x y
  = Some {| exN := nrows q; exq := row_normalise q; exT := T; exx := x; exy := y;
            exp_qT := mget (expm (mat_scale q T)) x y |}.
Proof.
  intros Hsq. unfold ExactRho_init. cbv zeta.
  rewrite Hsq, Nat.eqb_refl. reflexivity.
Qed.

Lemma mapM_pointwise {A B : Type} (f : A -> option B) (g : A -> B) (l : list A) :
  (forall a, In a l -> f a = Some (g a)) -> mapM f l = Some (map g l).
Proof.
  induction l as [|a l IH]; intros H; cbn [mapM map]; [reflexivity|].
  rewrite (H a (or_introl eq_refl)), IH; [reflexivity|].
  intros a' Ha'. apply H. right. exact Ha'.
Qed.

Lemma mapM_head_fails {A B : Type} (f : A -> option B) (a : A) (l : list A) :
  f a = None -> mapM f (a :: l) = None.
Proof.
  intros H. cbn [mapM]. rewrite H. reflexivity.
Qed.

Lemma broadcastable_false (m n : nat) :
  m <> n -> m <> 1%nat -> n <> 1%nat -> broadcastable m n = false.
Proof.
  intros H1 H2 H3. unfold broadcastable.
  apply Nat.eqb_neq in H1, H2, H3. rewrite H1, H2, H3. reflexivity.
Qed.

(** [rho_deriv] raises when the number of states and the number of
    neighbour slots do not broadcast. *)
Lemma rho_deriv_raises (nbr_idx nbr_mask : imat) (params : ctbn_params)
  (mu rho : mat) (i : nat) :
  broadcastable (ncols mu) (ncols nbr_idx) = false ->
  rho_deriv nbr_idx nbr_mask params mu rho i = None.
Proof.
  intros Hb. unfold rho_deriv, psi, q_bar_cond. cbv zeta. rewrite Hb. reflexivity.
Qed.

Lemma rho_deriv_returns (nbr_idx nbr_mask : imat) (params : ctbn_params)
  (mu rho : mat) (i : nat) :
  broadcastable (ncols mu) (ncols nbr_idx) = true ->
  exists d, rho_deriv nbr_idx nbr_mask params mu rho i = Some d.
Proof.
  intros Hb. unfold rho_deriv, psi, q_bar_cond. cbv zeta. rewrite Hb.
  eexists. reflexivity.
Qed.

Section DriverProperties.

Variable expm : mat -> mat.
Variable diffeqsolve_dense :
  forall (rtol atol : R) (term : R -> vec -> option vec) (t0 t1 : R) (y0 : vec),
    option Soln.
Variable diffeqsolve_last :
  forall (rtol atol : R) (term : R -> R -> option R) (t0 t1 : R) (y0 : R), option R.
Variable Key : Type.
Variable permutation : Key -> nat -> list nat.
Variable bounded_optimize :
  forall State : Type,
    (State -> option R) -> (State -> option State) -> State -> nat -> R ->
    option (R * State).

Variables (prng : Key) (xs ys seq_mask : ivec) (nbr_idx nbr_mask : imat).
Variables (params : ctbn_params) (T : R).

(** What the theorem assumes of the libraries: the matrix exponential has as
    many rows as its argument, and the integrator evaluates the right-hand
    side at the initial condition, so that an exception raised there is the
    exception of the call. *)
Hypothesis expm_keeps_rows : forall m, nrows (expm m) = nrows m.
Hypothesis solver_evaluates_term :
  forall rtol atol term t0 t1 y0,
    term t0 y0 = None -> diffeqsolve_dense rtol atol term t0 t1 y0 = None.

Let K := nrows nbr_idx.
Let N := nrows (S_ params).
Let M := ncols nbr_idx.

(** C1 (evaluation at the failing inputs).  With at least one component, a
    square S over N states and M neighbour slots such that N <> M, M <> 1
    and N <> 1, the driver raises in its first [solve_rho], before any
    sweep: [q_bar_cond] cannot broadcast [mu[nbr_idx[i]] ** nbr_mask[i,:]].
    It performs no sweep and returns neither a bound nor trajectories,
    whatever [max_updates] and [min_inc] are. *)
Theorem first_solve_raises (min_inc : R) (max_updates : nat) :
  ncols (S_ params) = N -> (1 <= K)%nat ->
  N <> M -> M <> 1%nat -> N <> 1%nat ->
  initial_state expm diffeqsolve_dense xs ys seq_mask nbr_idx nbr_mask params T = None
  /\ ctbn_variational_log_cond expm diffeqsolve_dense diffeqsolve_last Key permutation
       bounded_optimize prng xs ys seq_mask nbr_idx nbr_mask params T min_inc max_updates
     = None.
Proof.
  intros Hsq HK HNM HM HN.
  assert (Hinit : initial_state expm diffeqsolve_dense xs ys seq_mask nbr_idx nbr_mask
                    params T = None).
  { unfold initial_state. cbv zeta. fold K.
    set (nparams := normalise_ctbn_params params).
    set (q1 := q_single nparams).
    assert (Hq : ncols q1 = nrows q1).
    { unfold q1. destruct (shape_q_single nparams) as [Hr Hc].
      destruct (shape_normalised_S params) as [Hr' Hc'].
      rewrite Hr, Hc. unfold nparams. rewrite Hr', Hc'. exact Hsq. }
    assert (Hq1 : nrows q1 = N).
    { unfold q1. destruct (shape_q_single nparams) as [Hr _].
      destruct (shape_normalised_S params) as [Hr' _].
      rewrite Hr. unfold nparams. rewrite Hr'. reflexivity. }
    rewrite (mapM_pointwise _ (fun i =>
               {| exN := nrows q1; exq := row_normalise q1; exT := T;
                  exx := iget xs i; exy := iget ys i;
                  exp_qT := mget (expm (mat_scale q1 T)) (iget xs i) (iget ys i) |}))
      by (intros i _; apply ExactRho_init_value; exact Hq).
    destruct K as [|K'] eqn:EK; [lia|].
    cbn [seq]. rewrite mapM_head_fails; [reflexivity|].
    unfold solve_rho. apply solver_evaluates_term.
    unfold rho_term, eval_mu_rho.
    rewrite where_lt_boundary by lra.
    rewrite rho_deriv_raises; [reflexivity|].
    match goal with |- broadcastable ?m _ = false => assert (Hc : m = N) end.
    { unfold ncols. cbn [map hd]. unfold ExactRho_evaluate, column. cbn [exq exT exy].
      rewrite !length_map.
      fold (nrows (expm (mat_scale (row_normalise q1) (T - T)))).
      rewrite expm_keeps_rows. unfold mat_scale. rewrite nrows_mat_map.
      destruct (shape_row_normalise q1) as [Hr _]. rewrite Hr. exact Hq1. }
    rewrite Hc. apply broadcastable_false; assumption. }
  split; [exact Hinit|].
  unfold ctbn_variational_log_cond. cbv zeta. rewrite Hinit. reflexivity.
Qed.

End DriverProperties.

(** Four components in a ring, two neighbour slots each, over three
    states. *)
Lemma first_solve_raises_witness :
  ctbn_variational_log_cond identity_expm constant_dense constant_last nat ascending
    one_sweep 0%nat [0; 0; 0; 0]%nat [1; 1; 1; 1]%nat [1; 1; 1; 1]%nat
    ring_nbr_idx ring_nbr_mask three_state_params 1 (1 / 1000) 4
  = None.
Proof.
  apply (first_solve_raises identity_expm constant_dense constant_last nat ascending
           one_sweep 0%nat [0; 0; 0; 0]%nat [1; 1; 1; 1]%nat [1; 1; 1; 1]%nat
           ring_nbr_idx ring_nbr_mask three_state_params 1).
  - reflexivity.
  - intros rtol atol term t0 t1 y0 H. unfold constant_dense. rewrite H. reflexivity.
  - reflexivity.
  - cbn. lia.
  - cbn. lia.
  - cbn. lia.
  - cbn. lia.
Defined.

(** ** One sweep *)

Lemma length_replace_nth {A : Type} (l : list A) (n : nat) (v : A) :
  length (replace_nth l n v) = length l.
Proof.
  unfold replace_nth. rewrite length_map, length_combine, length_seq. lia.
Qed.

Lemma nth_enumerate_map {A B : Type} (g : nat * A -> B) (l : list A) (s k : nat)
  (d : B) (a : A) :
  (k < length l)%nat ->
  nth k (map g (combine (seq s (length l)) l)) d = g ((s + k)%nat, nth k l a).
Proof.
  revert s k. induction l as [|x l IH]; intros s k Hk; cbn [length] in *; [lia|].
  cbn [seq combine map]. destruct k as [|k].
  - cbn [nth]. rewrite Nat.add_0_r. reflexivity.
  - cbn [nth]. rewrite IH by lia. f_equal. f_equal. lia.
Qed.

(** [replace_nth] puts the new element at position n and keeps the others. *)
Lemma nth_replace_nth {A : Type} (l : list A) (n k : nat) (v d : A) :
  (k < length l)%nat ->
  nth k (replace_nth l n v) d = if Nat.eqb k n then v else nth k l d.
Proof.
  intros Hk. unfold replace_nth.
  rewrite (nth_enumerate_map _ l 0 k d d) by exact Hk. reflexivity.
Qed.

Lemma last_in {A : Type} (l : list A) (d : A) : l <> [] -> In (last l d) l.
Proof.
  induction l as [|a l IH]; intros Hne; [contradiction|].
  destruct l as [|b l']; [left; reflexivity|].
  right. apply IH. discriminate.
Qed.

Lemma last_differs_from_first (p : list nat) :
  NoDup p -> (2 <= length p)%nat -> last p 0%nat <> iget p 0.
Proof.
  intros Hnd Hlen. destruct p as [|a [|b tl]]; cbn [length] in Hlen; try lia.
  unfold iget. rewrite at_in_range by (cbn; lia). cbn [nth].
  inversion Hnd as [|? ? Hnotin _]; subst.
  intros Heq. apply Hnotin. rewrite <- Heq.
  change (last (a :: b :: tl) 0%nat) with (last (b :: tl) 0%nat).
  apply last_in. discriminate.
Qed.

Lemma foldM_none {C X : Type} (f : C -> X -> option C) (xs : list X) :
  fold_left (fun acc x => match acc with Some c => f c x | None => None end) xs None
  = None.
Proof.
  induction xs as [|x xs IH]; cbn [fold_left]; [reflexivity | exact IH].
Qed.

Lemma foldM_cons {C X : Type} (f : C -> X -> option C) (x : X) (xs : list X) (init : C) :
  foldM f (x :: xs) init
  = match f init x with Some c => foldM f xs c | None => None end.
Proof.
  unfold foldM. cbn [fold_left]. destruct (f init x); [reflexivity | apply foldM_none].
Qed.

(** [scan] visits the list from left to right and stops at the first step
    that raises. *)
Lemma scan_foldM {C X : Type} (f : C -> X -> option (C * unit)) (xs : list X) (init : C) :
  scan f init xs = foldM (fun c x => option_map fst (f c x)) xs init.
Proof.
  revert init. induction xs as [|x xs IH]; intros init; [reflexivity|].
  rewrite foldM_cons. cbn [scan]. destruct (f init x) as [[c u]|]; cbn [option_map fst].
  - apply IH.
  - reflexivity.
Qed.

Lemma iterM_S {C : Type} (n : nat) (f : C -> option C) (init : C) :
  iterM (S n) f init = match iterM n f init with Some c => f c | None => None end.
Proof.
  reflexivity.
Qed.

Section SweepProperties.

Variable diffeqsolve_dense :
  forall (rtol atol : R) (term : R -> vec -> option vec) (t0 t1 : R) (y0 : vec),
    option Soln.
Variable Key : Type.
Variable permutation : Key -> nat -> list nat.

Variables (prng : Key) (seq_mask : ivec) (nbr_idx nbr_mask : imat).
Variables (params : ctbn_params) (T : R) (K : nat) (mu_0 rho_T : mat).

Let sweep : outer_state -> option outer_state :=
  update_fun diffeqsolve_dense Key permutation prng seq_mask nbr_idx nbr_mask
    params T K mu_0 rho_T.
Let resolve (inner : inner_state) (i : nat) : option inner_state :=
  option_map fst
    (loop_body_fun diffeqsolve_dense seq_mask nbr_idx nbr_mask params T mu_0 rho_T
       inner i).
Let order_after (outer : outer_state) : list nat :=
  sweep_order Key permutation prng K (snd outer).
Let ended (order : list nat) (inner : option inner_state) : option outer_state :=
  option_map (fun st => (st, Z.of_nat (last order 0%nat))) inner.

Lemma sweep_unfolded (outer : outer_state) :
  sweep outer = ended (order_after outer) (foldM resolve (order_after outer) (fst outer)).
Proof.
  destruct outer as [inner last_i]. unfold sweep, update_fun, order_after, ended.
  cbn [fst snd]. rewrite scan_foldM. fold resolve.
  destruct (foldM resolve _ inner); reflexivity.
Qed.

(** C3.  A sweep draws [permutation prng K], reverses it when its first
    element is the index visited last, and visits the indices of that order
    one after the other, ending at the first solve that raises; when none
    does, the last index of the order is the new last index.  At index i the
    new rho_i is solved against the arrays as they stand and put at position
    i of [rho_solns]; the new mu_i is then solved against the arrays that
    hold this new rho_i and put at position i of [mu_solns]; the other
    positions are kept, and the next index starts from these arrays.  The
    step raises exactly when one of its two solves does. *)
Theorem sweep_is_sequential (inner : inner_state) (last_i : Z) :
  let p := permutation prng K in
  let order := if Z.eqb last_i (Z.of_nat (iget p 0)) then rev p else p in
  sweep (inner, last_i) = ended order (foldM resolve order inner)
  /\ forall (st : inner_state) (i : nat),
       let mu_solns := fst st in
       let rho_solns := snd st in
       let new_rho_i :=
         solve_rho diffeqsolve_dense i (row rho_T i) seq_mask nbr_idx nbr_mask
           params mu_solns rho_solns T in
       let new_mu_i rho_solns' :=
         solve_mu diffeqsolve_dense i (row mu_0 i) seq_mask nbr_idx nbr_mask
           params mu_solns rho_solns' T in
       (resolve st i = None <->
          new_rho_i = None
          \/ exists r, new_rho_i = Some r /\ new_mu_i (replace_nth rho_solns i r) = None)
       /\ forall st', resolve st i = Some st' ->
            let mu_solns' := fst st' in
            let rho_solns' := snd st' in
            exists r m,
              new_rho_i = Some r /\ new_mu_i rho_solns' = Some m
              /\ length rho_solns' = length rho_solns
              /\ length mu_solns' = length mu_solns
              /\ forall (k : nat) (d : Soln),
                   ((k < length rho_solns)%nat ->
                    nth k rho_solns' d = if Nat.eqb k i then r else nth k rho_solns d)
                   /\ ((k < length mu_solns)%nat ->
                       nth k mu_solns' d = if Nat.eqb k i then m else nth k mu_solns d).
Proof.
  intros p order. split.
  - rewrite sweep_unfolded. unfold order_after, sweep_order. cbn [fst snd].
    fold p. fold order. reflexivity.
  - intros [mu_solns rho_solns] i. cbn [fst snd]. cbv zeta.
    unfold resolve, loop_body_fun.
    destruct (solve_rho diffeqsolve_dense i (row rho_T i) seq_mask nbr_idx nbr_mask
                params mu_solns rho_solns T) as [r|] eqn:Hr.
    + destruct (solve_mu diffeqsolve_dense i (row mu_0 i) seq_mask nbr_idx nbr_mask
                  params mu_solns (replace_nth rho_solns i r) T) as [m|] eqn:Hm;
        cbn [option_map fst].
      * split.
        -- split; [discriminate|].
           intros [H | [r' [H' Hnone]]]; [discriminate|].
           injection H' as <-. rewrite Hm in Hnone. discriminate.
        -- intros st' Hst. injection Hst as <-. cbn [fst snd].
           exists r, m. split; [reflexivity|]. split; [exact Hm|].
           rewrite !length_replace_nth. split; [reflexivity|]. split; [reflexivity|].
           intros k d. split; intros Hk; apply nth_replace_nth; exact Hk.
      * split.
        -- split; [|reflexivity]. intros _. right. exists r. split; [reflexivity | exact Hm].
        -- intros st' Hst. discriminate.
    + cbn [option_map]. split.
      * split; [|reflexivity]. intros _. left. reflexivity.
      * intros st' Hst. discriminate.
Qed.

(** C10.  The key is the same in every sweep, so in whatever state n sweeps
    have left the loop, the order of sweep n+1 is the one list
    [permutation prng K] or its reversal. *)
Theorem every_sweep_same_permutation (init : outer_state) (n : nat) (st : outer_state) :
  iterM n sweep init = Some st ->
  let p := permutation prng K in
  let order := order_after st in
  (order = p \/ order = rev p)
  /\ iterM (S n) sweep init = ended order (foldM resolve order (fst st)).
Proof.
  intros Hst p order. split.
  - unfold order, order_after, sweep_order. fold p.
    destruct (Z.eqb _ _); [right | left]; reflexivity.
  - rewrite iterM_S, Hst. apply sweep_unfolded.
Qed.

(** X14.  With at least two components and a permutation without
    repetition, the first index of the permutation is never the last index
    of the previous sweep: from the initial last index -1 every sweep uses
    the same order, never its reversal. *)
Lemma order_never_reversed (inner : inner_state) (n : nat) (st : outer_state) :
  NoDup (permutation prng K) -> (2 <= length (permutation prng K))%nat ->
  iterM n sweep (inner, (-1)%Z) = Some st ->
  order_after st = permutation prng K.
Proof.
  intros Hnd Hlen Hst.
  pose proof (last_differs_from_first _ Hnd Hlen) as Hdiff.
  assert (Hlast : snd st = (-1)%Z
                  \/ snd st = Z.of_nat (last (permutation prng K) 0%nat)).
  { revert st Hst. induction n as [|n IH]; intros st Hst.
    - injection Hst as <-. left. reflexivity.
    - right. rewrite iterM_S in Hst.
      destruct (iterM n sweep (inner, (-1)%Z)) as [prev|]; [|discriminate].
      specialize (IH prev eq_refl).
      rewrite sweep_unfolded in Hst. unfold ended in Hst.
      destruct (foldM resolve (order_after prev) (fst prev)); [|discriminate].
      injection Hst as <-. cbn [snd]. unfold order_after, sweep_order.
      destruct (Z.eqb (snd prev) (Z.of_nat (iget (permutation prng K) 0))) eqn:Heq;
        [|reflexivity].
      apply Z.eqb_eq in Heq. destruct IH as [IH | IH]; rewrite IH in Heq; lia. }
  unfold order_after, sweep_order.
  destruct (Z.eqb _ _) eqn:Heq; [|reflexivity].
  apply Z.eqb_eq in Heq. destruct Hlast as [H | H]; rewrite H in Heq; lia.
Qed.

End SweepProperties.

(** *** Sweeps that return

    With one neighbour slot the right-hand side of the rho equation does not
    raise, and with the stand-in solver every sweep returns. *)

Lemma broadcastable_one (m : nat) : broadcastable m 1 = true.
Proof.
  unfold broadcastable. rewrite !orb_true_r. reflexivity.
Qed.

Lemma rho_term_returns (seq_mask : ivec) (nbr_idx nbr_mask : imat)
  (params : ctbn_params) (mu_solns rho_solns : list Soln) (T : R) (i : nat)
  (t : R) (y : vec) :
  ncols nbr_idx = 1%nat ->
  exists d, rho_term seq_mask nbr_idx nbr_mask params mu_solns rho_solns T i t y = Some d.
Proof.
  intros HM. unfold rho_term, eval_mu_rho.
  match goal with |- context [rho_deriv ?a ?b ?c ?m ?r ?j] =>
    destruct (rho_deriv_returns a b c m r j) as [d Hd] end.
  - rewrite HM. apply broadcastable_one.
  - rewrite Hd. eexists. reflexivity.
Qed.

Lemma constant_sweep_returns (Key : Type) (permutation : Key -> nat -> list nat)
  (prng : Key) (seq_mask : ivec) (nbr_idx nbr_mask : imat) (params : ctbn_params)
  (T : R) (K : nat) (mu_0 rho_T : mat) (outer : outer_state) :
  ncols nbr_idx = 1%nat ->
  exists st,
    update_fun constant_dense Key permutation prng seq_mask nbr_idx nbr_mask params T
      K mu_0 rho_T outer = Some st.
Proof.
  intros HM. destruct outer as [inner last_i]. unfold update_fun.
  generalize (sweep_order Key permutation prng K last_i) at 1. intros order.
  assert (Hscan : exists inner',
            scan (loop_body_fun constant_dense seq_mask nbr_idx nbr_mask params T
                    mu_0 rho_T) inner order = Some inner').
  { revert inner. induction order as [|i order IH]; intros inner; cbn [scan].
    - eexists. reflexivity.
    - destruct inner as [mu_solns rho_solns]. unfold loop_body_fun.
      unfold solve_rho, solve_mu, constant_dense.
      destruct (rho_term_returns seq_mask nbr_idx nbr_mask params mu_solns rho_solns T
                  i T (row rho_T i) HM) as [d Hd].
      rewrite Hd. apply IH. }
  destruct Hscan as [inner' Hscan]. rewrite Hscan. eexists. reflexivity.
Qed.

Lemma constant_sweeps_return (Key : Type) (permutation : Key -> nat -> list nat)
  (prng : Key) (seq_mask : ivec) (nbr_idx nbr_mask : imat) (params : ctbn_params)
  (T : R) (K : nat) (mu_0 rho_T : mat) (init : outer_state) (n : nat) :
  ncols nbr_idx = 1%nat ->
  exists st,
    iterM n (update_fun constant_dense Key permutation prng seq_mask nbr_idx nbr_mask
               params T K mu_0 rho_T) init = Some st.
Proof.
  intros HM. induction n as [|n [prev IH]].
  - eexists. reflexivity.
  - rewrite iterM_S, IH. apply constant_sweep_returns. exact HM.
Qed.

Lemma every_sweep_same_permutation_witness :
  exists st,
    iterM 1
      (update_fun constant_dense nat ascending 0%nat pair_seq_mask pair_nbr_idx
         pair_nbr_mask decoupled_params 1 2 [[1; 0]; [1; 0]] [[0; 1]; [0; 1]])
      (([start_in_0; start_in_0], [end_in_1; end_in_1]), (-1)%Z) = Some st
    /\ (sweep_order nat ascending 0%nat 2 (snd st) = ascending 0%nat 2
        \/ sweep_order nat ascending 0%nat 2 (snd st) = rev (ascending 0%nat 2)).
Proof.
  destruct (constant_sweep_returns nat ascending 0%nat pair_seq_mask pair_nbr_idx
              pair_nbr_mask decoupled_params 1 2 [[1; 0]; [1; 0]] [[0; 1]; [0; 1]]
              (([start_in_0; start_in_0], [end_in_1; end_in_1]), (-1)%Z) eq_refl)
    as [st Hst].
  exists st. split; [exact Hst|].
  apply (every_sweep_same_permutation constant_dense nat ascending 0%nat pair_seq_mask
           pair_nbr_idx pair_nbr_mask decoupled_params 1 2 [[1; 0]; [1; 0]]
           [[0; 1]; [0; 1]]
           (([start_in_0; start_in_0], [end_in_1; end_in_1]), (-1)%Z) 1 st Hst).
Defined.

(** ** What normalisation does guarantee *)

Lemma has_shape_mk_mat (r c : nat) (f : nat -> nat -> R) : has_shape r c (mk_mat r c f).
Proof.
  split.
  - apply nrows_mk_mat.
  - unfold mk_mat. apply Forall_forall. intros rw Hin.
    apply in_map_iff in Hin. destruct Hin as [i [<- _]].
    unfold mk_vec. rewrite length_map, length_seq. reflexivity.
Qed.

Lemma has_shape_mat_zip (f : R -> R -> R) (N : nat) (a b : mat) :
  has_shape N N a -> has_shape N N (mat_zip f a b).
Proof.
  intros Ha. unfold mat_zip.
  destruct (Nat.eq_dec N 0) as [-> | Hpos].
  - destruct Ha as [Hlen _]. apply length_zero_iff_nil in Hlen. subst a.
    split; [reflexivity | constructor].
  - rewrite (ncols_of_shape N N a Ha) by lia.
    destruct Ha as [Hlen _]. unfold nrows. rewrite Hlen. apply has_shape_mk_mat.
Qed.

Lemma mget_transpose (m : mat) (i j : nat) :
  (i < ncols m)%nat -> (j < nrows m)%nat -> mget (transpose m) i j = mget m j i.
Proof.
  intros Hi Hj. unfold transpose. rewrite mget_mk_mat by assumption. reflexivity.
Qed.

Lemma symmetrise_entry (N : nat) (m : mat) (i j : nat) :
  has_shape N N m -> (i < N)%nat -> (j < N)%nat ->
  mget (symmetrise m) i j = (mget m i j + mget m j i) / 2.
Proof.
  intros Hm Hi Hj. unfold symmetrise.
  rewrite (mget_mat_map _ N N) by (try apply has_shape_mat_zip; assumption).
  pose proof (ncols_of_shape N N m Hm ltac:(lia)) as Hc.
  assert (Hr : nrows m = N) by (destruct Hm as [Hlen _]; exact Hlen).
  rewrite mget_mat_zip by (rewrite ?Hc, ?Hr; assumption).
  rewrite mget_transpose by (rewrite ?Hc, ?Hr; assumption).
  reflexivity.
Qed.

(** [symmetrise] of a square matrix is symmetric. *)
Lemma symmetrise_symmetric (N : nat) (m : mat) (i j : nat) :
  has_shape N N m -> (i < N)%nat -> (j < N)%nat ->
  mget (symmetrise m) i j = mget (symmetrise m) j i.
Proof.
  intros Hm Hi Hj. rewrite !(symmetrise_entry N) by assumption. lra.
Qed.

Lemma row_normalise_offdiag (N : nat) (m : mat) (i j : nat) :
  has_shape N N m -> (i < N)%nat -> (j < N)%nat -> i <> j ->
  mget (row_normalise m) i j = mget m i j.
Proof.
  intros Hm Hi Hj Hne. unfold row_normalise.
  pose proof (ncols_of_shape N N m Hm ltac:(lia)) as Hc.
  assert (Hr : nrows m = N) by (destruct Hm as [Hlen _]; exact Hlen).
  rewrite mget_mat_zip by (rewrite ?Hc, ?Hr; assumption).
  unfold diag. rewrite length_map. fold (nrows m). rewrite Hr.
  rewrite mget_mk_mat by assumption.
  apply Nat.eqb_neq in Hne. rewrite Hne. lra.
Qed.

Lemma has_shape_mat_map (f : R -> R) (r c : nat) (m : mat) :
  has_shape r c m -> has_shape r c (mat_map f m).
Proof.
  intros [Hlen Hall]. split.
  - unfold mat_map. rewrite length_map. exact Hlen.
  - unfold mat_map. apply Forall_forall. intros rw Hin.
    apply in_map_iff in Hin. destruct Hin as [rw0 [<- Hin0]].
    rewrite length_map. rewrite Forall_forall in Hall. apply Hall. exact Hin0.
Qed.

(** X11.  For every well-shaped raw parameter set the normalised S is
    symmetric and nonnegative off the diagonal, the normalised J is
    symmetric and h is returned as it is. *)
Lemma normalise_guarantees (params : ctbn_params) (N i j : nat) :
  has_shape N N (S_ params) -> has_shape N N (J_ params) ->
  (i < N)%nat -> (j < N)%nat ->
  let params' := normalise_ctbn_params params in
  mget (S_ params') i j = mget (S_ params') j i
  /\ (i <> j -> 0 <= mget (S_ params') i j)
  /\ mget (J_ params') i j = mget (J_ params') j i
  /\ h_ params' = h_ params.
Proof.
  intros HS HJ Hi Hj. cbv zeta. cbn [normalise_ctbn_params S_ J_ h_].
  assert (HA : has_shape N N (mat_map Rabs (S_ params)))
    by (apply has_shape_mat_map; exact HS).
  assert (HX : has_shape N N (row_normalise (mat_map Rabs (S_ params))))
    by (apply has_shape_mat_zip; exact HA).
  split; [apply (symmetrise_symmetric N); assumption|].
  split; [|split; [apply (symmetrise_symmetric N); assumption | reflexivity]].
  intros Hne. rewrite (symmetrise_entry N) by assumption.
  rewrite !(row_normalise_offdiag N) by (try assumption; intros H; apply Hne; symmetry; exact H).
  rewrite !(mget_mat_map _ N N) by assumption.
  pose proof (Rabs_pos (mget (S_ params) i j)).
  pose proof (Rabs_pos (mget (S_ params) j i)). lra.
Qed.

(** *** Symmetric input

    When the absolute values of the raw S are symmetric, the composition in
    [normalise_ctbn_params] does produce a generator and is idempotent. *)

Lemma big_sum_plus (n : nat) (f g : nat -> R) :
  big_sum n (fun i => f i + g i) = big_sum n f + big_sum n g.
Proof.
  unfold big_sum, mk_vec. induction (seq 0 n) as [|a l IH]; cbn [map vsum fold_right].
  - lra.
  - fold (vsum (map (fun i => f i + g i) l)) (vsum (map f l)) (vsum (map g l)).
    rewrite IH. lra.
Qed.

Lemma big_sum_delta (n i : nat) (c : R) :
  (i < n)%nat -> big_sum n (fun j => if Nat.eqb i j then c else 0) = c.
Proof.
  intros Hi. unfold big_sum, mk_vec.
  assert (Hgen : forall s m, (s <= i < s + m)%nat ->
            vsum (map (fun j => if Nat.eqb i j then c else 0) (seq s m)) = c).
  { intros s m. revert s. induction m as [|m IH]; intros s Hs; [lia|].
    cbn [seq map vsum fold_right].
    fold (vsum (map (fun j => if Nat.eqb i j then c else 0) (seq (S s) m))).
    destruct (Nat.eqb i s) eqn:He.
    - apply Nat.eqb_eq in He. subst s.
      assert (Hz : vsum (map (fun j => if Nat.eqb i j then c else 0) (seq (S i) m)) = 0).
      { clear. assert (Hall : forall j, In j (seq (S i) m) -> Nat.eqb i j = false).
        { intros j Hj. apply in_seq in Hj. apply Nat.eqb_neq. lia. }
        induction (seq (S i) m) as [|a l IHl]; cbn [map vsum fold_right]; [reflexivity|].
        rewrite Hall by (left; reflexivity).
        fold (vsum (map (fun j => if Nat.eqb i j then c else 0) l)).
        rewrite IHl by (intros j Hj; apply Hall; right; exact Hj). lra. }
      rewrite Hz. lra.
    - apply Nat.eqb_neq in He. rewrite IH by lia. lra. }
  apply Hgen. lia.
Qed.

Lemma vsum_row (N : nat) (m : mat) (i : nat) :
  has_shape N N m -> (i < N)%nat -> vsum (row m i) = big_sum N (mget m i).
Proof.
  intros Hm Hi. unfold big_sum. f_equal. symmetry.
  apply mk_vec_id; [apply (row_length_of_shape N N); assumption | reflexivity].
Qed.

Lemma row_normalise_entry (N : nat) (m : mat) (i j : nat) :
  has_shape N N m -> (i < N)%nat -> (j < N)%nat ->
  mget (row_normalise m) i j
  = mget m i j + (if Nat.eqb i j then - big_sum N (mget m i) else 0).
Proof.
  intros Hm Hi Hj. unfold row_normalise.
  pose proof (ncols_of_shape N N m Hm ltac:(lia)) as Hc.
  assert (Hr : nrows m = N) by (destruct Hm as [Hlen _]; exact Hlen).
  rewrite mget_mat_zip by (rewrite ?Hc, ?Hr; assumption).
  unfold diag. rewrite length_map. fold (nrows m). rewrite Hr.
  rewrite mget_mk_mat by assumption.
  destruct (Nat.eqb i j); [|lra].
  unfold vget. rewrite at_in_range by (rewrite length_map; fold (nrows m); lia).
  rewrite nth_indep with (d' := vsum []) by (rewrite length_map; fold (nrows m); lia).
  rewrite map_nth. rewrite <- (at_in_range [] m i) by (fold (nrows m); lia).
  fold (row m i). rewrite (vsum_row N) by assumption. lra.
Qed.

Lemma mat_ext (N : nat) (a b : mat) :
  has_shape N N a -> has_shape N N b ->
  (forall i j, (i < N)%nat -> (j < N)%nat -> mget a i j = mget b i j) -> a = b.
Proof.
  intros Ha Hb Heq.
  rewrite <- (mk_mat_id N N (mget a) a Ha) by reflexivity.
  apply mk_mat_id; assumption.
Qed.

Section SymmetricInput.

Variables (params : ctbn_params) (N : nat).
Hypothesis S_shape : has_shape N N (S_ params).
Hypothesis J_shape : has_shape N N (J_ params).
Hypothesis abs_symmetric :
  forall i j, (i < N)%nat -> (j < N)%nat ->
    Rabs (mget (S_ params) i j) = Rabs (mget (S_ params) j i).

Let A := mat_map Rabs (S_ params).
Let S' := S_ (normalise_ctbn_params params).

Lemma abs_input_shape : has_shape N N A.
Proof.
  apply has_shape_mat_map. exact S_shape.
Qed.

Lemma normalised_S_shape : has_shape N N S'.
Proof.
  unfold S'. cbn [normalise_ctbn_params S_]. unfold symmetrise.
  apply has_shape_mat_map. apply has_shape_mat_zip. apply has_shape_mat_zip.
  exact abs_input_shape.
Qed.

Lemma abs_input_entry (i j : nat) :
  (i < N)%nat -> (j < N)%nat -> mget A i j = Rabs (mget (S_ params) i j).
Proof.
  intros Hi Hj. unfold A. apply (mget_mat_map _ N N); assumption.
Qed.

Lemma normalised_S_entry (i j : nat) :
  (i < N)%nat -> (j < N)%nat ->
  mget S' i j = mget A i j + (if Nat.eqb i j then - big_sum N (mget A i) else 0).
Proof.
  intros Hi Hj. unfold S'. cbn [normalise_ctbn_params S_]. fold A.
  rewrite (symmetrise_entry N) by (try apply has_shape_mat_zip; try apply abs_input_shape; assumption).
  rewrite !(row_normalise_entry N) by (try apply abs_input_shape; assumption).
  rewrite (abs_input_entry j i), (abs_input_entry i j) by assumption.
  rewrite (abs_symmetric j i) by assumption.
  destruct (Nat.eqb i j) eqn:He.
  - apply Nat.eqb_eq in He. subst j. rewrite Nat.eqb_refl. lra.
  - rewrite Nat.eqb_sym, He. lra.
Qed.

Lemma rows_sum_to_zero (i : nat) : (i < N)%nat -> vsum (row S' i) = 0.
Proof.
  intros Hi. rewrite (vsum_row N) by (try apply normalised_S_shape; assumption).
  rewrite (big_sum_ext N _ (fun j => mget A i j
             + (if Nat.eqb i j then - big_sum N (mget A i) else 0)))
    by (intros j Hj; apply normalised_S_entry; assumption).
  rewrite big_sum_plus, big_sum_delta by exact Hi. lra.
Qed.

Lemma abs_normalised_S_entry (i j : nat) :
  (i < N)%nat -> (j < N)%nat ->
  Rabs (mget S' i j)
  = mget A i j + (if Nat.eqb i j then Rabs (mget S' i i) - mget A i i else 0).
Proof.
  intros Hi Hj. destruct (Nat.eqb i j) eqn:He.
  - apply Nat.eqb_eq in He. subst j. lra.
  - rewrite normalised_S_entry by assumption. rewrite He, Rplus_0_r.
    rewrite abs_input_entry by assumption. rewrite Rabs_Rabsolu. lra.
Qed.

Lemma normalise_S_fixed : S_ (normalise_ctbn_params (normalise_ctbn_params params)) = S'.
Proof.
  pose proof normalised_S_shape as HS'.
  assert (HB : has_shape N N (mat_map Rabs S')) by (apply has_shape_mat_map; exact HS').
  cbn [normalise_ctbn_params S_]. fold S'.
  apply (mat_ext N).
  - unfold symmetrise. apply has_shape_mat_map. apply has_shape_mat_zip.
    apply has_shape_mat_zip. exact HB.
  - exact HS'.
  - intros i j Hi Hj.
    rewrite (symmetrise_entry N) by (try apply has_shape_mat_zip; assumption).
    rewrite !(row_normalise_entry N) by assumption.
    assert (Hrow : forall a, (a < N)%nat ->
              big_sum N (mget (mat_map Rabs S') a)
              = big_sum N (mget A a) + (Rabs (mget S' a a) - mget A a a)).
    { intros a Ha.
      rewrite (big_sum_ext N _ (fun b => mget A a b
                 + (if Nat.eqb a b then Rabs (mget S' a a) - mget A a a else 0))).
      - rewrite big_sum_plus, big_sum_delta by exact Ha. reflexivity.
      - intros b Hb. rewrite (mget_mat_map _ N N) by assumption.
        apply abs_normalised_S_entry; assumption. }
    rewrite !Hrow by assumption.
    rewrite !(mget_mat_map _ N N) by assumption.
    change (symmetrise (row_normalise (mat_map Rabs (S_ params)))) with S'.
    rewrite (abs_normalised_S_entry i j), (abs_normalised_S_entry j i) by assumption.
    rewrite (normalised_S_entry i j) by assumption.
    rewrite (abs_input_entry j i), (abs_input_entry i j) by assumption.
    rewrite (abs_symmetric j i) by assumption.
    destruct (Nat.eqb i j) eqn:He.
    + apply Nat.eqb_eq in He. subst j. rewrite Nat.eqb_refl.
      rewrite abs_input_entry by assumption. lra.
    + rewrite Nat.eqb_sym, He. lra.
Qed.

Lemma normalise_J_fixed :
  J_ (normalise_ctbn_params (normalise_ctbn_params params))
  = J_ (normalise_ctbn_params params).
Proof.
  cbn [normalise_ctbn_params J_].
  assert (HJ' : has_shape N N (symmetrise (J_ params))).
  { unfold symmetrise. apply has_shape_mat_map. apply has_shape_mat_zip. exact J_shape. }
  apply (mat_ext N).
  - unfold symmetrise at 1. apply has_shape_mat_map. apply has_shape_mat_zip. exact HJ'.
  - exact HJ'.
  - intros i j Hi Hj. rewrite (symmetrise_entry N _ i j HJ') by assumption.
    rewrite (symmetrise_symmetric N _ j i) by assumption. lra.
Qed.

(** X12.  On an input whose |S| is symmetric the normalised S has rows
    summing to zero and a second normalisation changes nothing. *)
Lemma normalise_on_symmetric_input :
  (forall i, (i < N)%nat -> vsum (row S' i) = 0)
  /\ normalise_ctbn_params (normalise_ctbn_params params)
     = normalise_ctbn_params params.
Proof.
  split; [exact rows_sum_to_zero|].
  pose proof normalise_S_fixed as HS. pose proof normalise_J_fixed as HJ.
  unfold S' in HS.
  destruct (normalise_ctbn_params (normalise_ctbn_params params)) as [s2 j2 h2] eqn:E2.
  destruct (normalise_ctbn_params params) as [s1 j1 h1] eqn:E1.
  cbn [S_ J_] in HS, HJ. subst s2 j2.
  f_equal.
  assert (Hh : h_ (normalise_ctbn_params (mk_params s1 j1 h1)) = h1) by reflexivity.
  rewrite E2 in Hh. exact Hh.
Qed.

End SymmetricInput.

(** ** The neighbourhood scenario

    The contact matrix [[0,1],[1,0]] gives K = 2, M = 1,
    nbr_idx = [[1],[0]] and nbr_mask = [[1],[1]]. *)
Example neighbourhood_of_a_pair :
  get_Markov_blankets [[0; 1]; [1; 0]]%Z None None None None
  = inr ([1; 1]%nat, [[1]; [0]]%nat, [[1]; [1]]%nat, None, None).
Proof.
  reflexivity.
Qed.

(** * Further properties of the code *)

(** ** Clamped logarithm, reciprocal and product *)

(** [safe_log] never falls below the logarithm of the smallest normal
    float32; it is the logarithm from that value on and constant below it. *)
Theorem safe_log_floor (x : R) :
  ln smallest_float32 <= safe_log x
  /\ (smallest_float32 <= x -> safe_log x = ln x)
  /\ (x <= smallest_float32 -> safe_log x = ln smallest_float32).
Proof.
  pose proof smallest_float32_pos as Hpos. unfold safe_log.
  split; [|split].
  - destruct (Rle_dec x smallest_float32) as [Hle | Hgt].
    + rewrite Rmax_right by exact Hle. lra.
    + rewrite Rmax_left by lra. left. apply ln_increasing; lra.
  - intros Hge. rewrite Rmax_left by exact Hge. reflexivity.
  - intros Hle. rewrite Rmax_right by exact Hle. reflexivity.
Qed.

(** X1.  [safe_recip] is positive and at most 1/smallest_float32 = 2^126,
    also at zero and at negative arguments; from the smallest normal float32
    on it is the reciprocal. *)
Theorem safe_recip_bounded (x : R) :
  0 < safe_recip x <= 2 ^ 126
  /\ (smallest_float32 <= x -> x * safe_recip x = 1).
Proof.
  pose proof smallest_float32_pos as Hpos.
  pose proof (Rmax_floor_pos x) as Hm.
  pose proof (Rmax_r x smallest_float32) as Hr.
  assert (H2 : 0 < 2 ^ 126) by (apply pow_lt; lra).
  unfold safe_recip. split; [split|].
  - unfold Rdiv. rewrite Rmult_1_l. apply Rinv_0_lt_compat. exact Hm.
  - unfold Rdiv. rewrite Rmult_1_l.
    replace (2 ^ 126) with (/ smallest_float32)
      by (unfold smallest_float32; apply Rinv_inv).
    apply Rinv_le_contravar; assumption.
  - intros Hge. rewrite Rmax_left by exact Hge. field. lra.
Qed.

Lemma fold_mult_pos (xs : vec) :
  Forall (fun x => 0 < x) xs -> 0 < fold_right Rmult 1 xs.
Proof.
  induction 1 as [|x xs Hx _ IH]; cbn [fold_right]; [lra|].
  apply Rmult_lt_0_compat; assumption.
Qed.

Lemma clamped_pair :
  fold_right Rmult 1 (map (fun x => Rmax x smallest_float32) [0; 2 ^ 127]) = 2.
Proof.
  pose proof smallest_float32_pos as Hpos.
  pose proof smallest_float32_lt_1 as Hs.
  assert (Hp : 1 < 2 ^ 127) by (apply Rlt_pow_R1; [lra | lia]).
  cbn [map fold_right]. rewrite Rmax_right by lra. rewrite Rmax_left by lra.
  unfold smallest_float32. change (2 ^ 127) with (2 * 2 ^ 126).
  field; apply pow_nonzero; lra.
Qed.

(** X2.  Where the product of the clamped factors is above the smallest
    normal float32, [product] is the product of the factors, each replaced
    by the smallest normal float32 when it is below it: a factor that is
    zero or negative counts as 2^-126.  It is the ordinary product when in
    addition no factor is below the smallest normal float32. *)
Theorem product_clamps_each_factor (xs : vec) :
  let clamped := fold_right Rmult 1 (map (fun x => Rmax x smallest_float32) xs) in
  smallest_float32 < clamped ->
  product xs = clamped
  /\ (Forall (fun x => smallest_float32 <= x) xs ->
      product xs = fold_right Rmult 1 xs).
Proof.
  intros clamped _. split; [apply product_clamped|].
  intros Hall. rewrite product_clamped.
  induction Hall as [|x xs' Hx _ IH]; cbn [map fold_right]; [reflexivity|].
  rewrite IH, Rmax_left by exact Hx. reflexivity.
Qed.

Lemma product_clamps_each_factor_witness : product [0; 2 ^ 127] = 2.
Proof.
  destruct (product_clamps_each_factor [0; 2 ^ 127]) as [Hc _].
  - cbv zeta. rewrite clamped_pair. pose proof smallest_float32_lt_1. lra.
  - rewrite Hc. apply clamped_pair.
Defined.

(** ** [logsumexp] *)

Lemma fold_left_Rmax_ge_init (l : vec) (a : R) : a <= fold_left Rmax l a.
Proof.
  revert a. induction l as [|b l IH]; intros a; cbn [fold_left]; [lra|].
  eapply Rle_trans; [apply (Rmax_l a b) | apply IH].
Qed.

Lemma fold_left_Rmax_ge (l : vec) (a x : R) : In x l -> x <= fold_left Rmax l a.
Proof.
  revert a. induction l as [|b l IH]; intros a Hin; [destruct Hin|].
  cbn [fold_left]. destruct Hin as [-> | Hin].
  - eapply Rle_trans; [apply (Rmax_r a x) | apply fold_left_Rmax_ge_init].
  - apply IH. exact Hin.
Qed.

Lemma vsum_exp_shift (m : R) (x : vec) :
  vsum (map (fun v => exp (v - m)) x) = exp (- m) * vsum (map exp x).
Proof.
  induction x as [|a x IH]; cbn [map vsum fold_right]; [lra|].
  fold (vsum (map (fun v => exp (v - m)) x)) (vsum (map exp x)).
  rewrite IH. unfold Rminus. rewrite exp_plus. lra.
Qed.

Lemma vsum_exp_pos (x : vec) : x <> [] -> 0 < vsum (map exp x).
Proof.
  intros Hne. destruct x as [|a x]; [contradiction|]. clear Hne.
  revert a. induction x as [|b x IH]; intros a; cbn [map vsum fold_right].
  - pose proof (exp_pos a). lra.
  - specialize (IH b). cbn [map vsum fold_right] in IH.
    pose proof (exp_pos a). lra.
Qed.

Lemma vsum_exp_ge (x : vec) (v : R) : In v x -> exp v <= vsum (map exp x).
Proof.
  induction x as [|a x IH]; intros Hin; [destruct Hin|].
  cbn [map vsum fold_right]. fold (vsum (map exp x)).
  destruct Hin as [-> | Hin].
  - destruct x as [|b x]; [cbn; lra|].
    pose proof (vsum_exp_pos (b :: x) ltac:(discriminate)). lra.
  - specialize (IH Hin). pose proof (exp_pos a). lra.
Qed.

Lemma logsumexp_value (x : vec) :
  x <> [] -> logsumexp x = Some (ln (vsum (map exp x))).
Proof.
  intros Hne. unfold logsumexp, vmax. destruct x as [|a x]; [contradiction|].
  f_equal. set (m := fold_left Rmax x a).
  rewrite vsum_exp_shift.
  rewrite ln_mult by (try apply exp_pos; apply vsum_exp_pos; discriminate).
  rewrite ln_exp. lra.
Qed.

(** X3.  The shifted computation of [logsumexp] is the logarithm of the sum
    of the exponentials for every nonempty vector, whatever its maximum; the
    result is at least every entry; on an empty vector there is no result. *)
Theorem logsumexp_is_log_of_sum (x : vec) :
  logsumexp [] = None
  /\ (x <> [] ->
      logsumexp x = Some (ln (vsum (map exp x)))
      /\ forall v, In v x -> v <= ln (vsum (map exp x))).
Proof.
  split; [reflexivity|]. intros Hne. split; [apply logsumexp_value; exact Hne|].
  intros v Hin. rewrite <- (ln_exp v) at 1.
  pose proof (vsum_exp_ge x v Hin) as Hge. pose proof (exp_pos v) as Hpos.
  destruct Hge as [Hlt | Heq].
  - left. apply ln_increasing; assumption.
  - rewrite Heq. lra.
Qed.

Lemma logsumexp_is_log_of_sum_witness :
  logsumexp [0; 1] = Some (ln (vsum (map exp [0; 1]))).
Proof.
  apply (logsumexp_is_log_of_sum [0; 1]). discriminate.
Defined.

(** ** Regulariser and pseudolikelihood *)

Lemma vsum_nonneg (v : vec) : Forall (fun x => 0 <= x) v -> 0 <= vsum v.
Proof.
  induction 1 as [|x v Hx _ IH]; cbn [vsum fold_right]; [lra|].
  fold (vsum v). lra.
Qed.

Lemma vsum_nonneg_zero (v : vec) :
  Forall (fun x => 0 <= x) v -> vsum v = 0 -> Forall (fun x => x = 0) v.
Proof.
  induction 1 as [|x v Hx Hall IH]; cbn [vsum fold_right]; intros Hsum;
    [constructor|].
  fold (vsum v) in Hsum. pose proof (vsum_nonneg v Hall) as Hv.
  apply Forall_cons; [lra | apply IH; lra].
Qed.

Lemma squares_nonneg (v : vec) : Forall (fun x => 0 <= x) (map (fun x => x ^ 2) v).
Proof.
  apply Forall_forall. intros y Hy. apply in_map_iff in Hy.
  destruct Hy as [x [<- _]]. apply pow2_ge_0.
Qed.

Lemma squares_zero (v : vec) :
  Forall (fun x => x = 0) (map (fun x => x ^ 2) v) -> Forall (fun x => x = 0) v.
Proof.
  induction v as [|x v IH]; cbn [map]; intros H; [constructor|].
  inversion H as [|? ? Hx Hv]; subst. apply Forall_cons; [|apply IH; exact Hv].
  destruct (Req_dec x 0) as [Hz | Hnz]; [exact Hz|].
  pose proof (pow_nonzero x 2 Hnz). contradiction.
Qed.

(** X4.  For a nonnegative weight the regulariser is nonnegative, and for a
    positive weight it is zero only when every entry of J and of h is zero. *)
Theorem regularizer_nonnegative (params : ctbn_params) (alpha : R) :
  (0 <= alpha -> 0 <= ctbn_param_regularizer params alpha)
  /\ (0 < alpha -> ctbn_param_regularizer params alpha = 0 ->
      Forall (Forall (fun x => x = 0)) (J_ params)
      /\ Forall (fun x => x = 0) (h_ params)).
Proof.
  unfold ctbn_param_regularizer.
  set (rows := map vsum (mat_map (fun v => v ^ 2) (J_ params))).
  assert (Hrows : Forall (fun x => 0 <= x) rows).
  { unfold rows, mat_map. rewrite map_map. apply Forall_forall. intros y Hy.
    apply in_map_iff in Hy. destruct Hy as [r [<- _]].
    apply vsum_nonneg. apply squares_nonneg. }
  pose proof (vsum_nonneg rows Hrows) as HJ.
  pose proof (vsum_nonneg _ (squares_nonneg (h_ params))) as Hh.
  split.
  - intros Ha. apply Rmult_le_pos; lra.
  - intros Ha Hzero.
    assert (Hsum : vsum rows + vsum (map (fun v => v ^ 2) (h_ params)) = 0).
    { apply Rmult_integral in Hzero. destruct Hzero; lra. }
    split.
    + assert (Hz : Forall (fun x => x = 0) rows)
        by (apply vsum_nonneg_zero; [exact Hrows | lra]).
      unfold rows, mat_map in Hz. rewrite map_map in Hz.
      rewrite Forall_forall in Hz. apply Forall_forall. intros r Hr.
      apply squares_zero. apply vsum_nonneg_zero; [apply squares_nonneg|].
      apply Hz. apply (in_map (fun x => vsum (map (fun v => v ^ 2) x))). exact Hr.
    + apply squares_zero. apply vsum_nonneg_zero; [apply squares_nonneg | lra].
Qed.

Lemma regularizer_nonnegative_witness :
  0 <= ctbn_param_regularizer repulsive_params 1.
Proof.
  apply (proj1 (regularizer_nonnegative repulsive_params 1)). lra.
Defined.

Lemma at_in {A : Type} (d : A) (l : list A) (i : nat) : l <> [] -> In (at_ d l i) l.
Proof.
  intros Hne. unfold at_. apply nth_In.
  destruct l as [|a l]; [contradiction|]. cbn [length pred]. lia.
Qed.

Lemma mapM_map {A B : Type} (f : A -> option B) (g : A -> B) (l : list A) :
  (forall a, In a l -> f a = Some (g a)) -> mapM f l = Some (map g l).
Proof.
  induction l as [|a l IH]; intros H; cbn [mapM map]; [reflexivity|].
  rewrite (H a) by (left; reflexivity).
  rewrite IH by (intros a' Ha'; apply H; right; exact Ha'). reflexivity.
Qed.

Lemma big_sum_nonpos (n : nat) (f : nat -> R) :
  (forall i, (i < n)%nat -> f i <= 0) -> big_sum n f <= 0.
Proof.
  intros H. unfold big_sum, mk_vec.
  assert (Hall : forall i, In i (seq 0 n) -> f i <= 0).
  { intros i Hi. apply in_seq in Hi. apply H. lia. }
  induction (seq 0 n) as [|a l IH]; cbn [map vsum fold_right]; [lra|].
  fold (vsum (map f l)).
  specialize (Hall a (or_introl eq_refl)) as Ha.
  specialize (IH (fun i Hi => Hall i (or_intror Hi))). lra.
Qed.

Lemma logsumexp_rows_raises (K N : nat) (x : mat) :
  broadcastable N K = false -> logsumexp_rows K N x = None.
Proof.
  intros Hb. unfold logsumexp_rows. destruct (Nat.eqb N 0); [reflexivity|].
  destruct (mapM vmax x); [|reflexivity]. rewrite Hb. reflexivity.
Qed.

Lemma vmax_mk_vec (N : nat) (g : nat -> R) :
  (1 <= N)%nat -> exists m, vmax (mk_vec N g) = Some m.
Proof.
  intros HN. destruct N as [|N]; [lia|]. unfold mk_vec. cbn [seq map vmax].
  eexists. reflexivity.
Qed.

Lemma big_sum_as_vsum (n : nat) (g : nat -> R) (f : R -> R) :
  big_sum n (fun j => f (g j)) = vsum (map f (mk_vec n g)).
Proof.
  unfold big_sum, mk_vec. rewrite map_map. reflexivity.
Qed.

(** With one row the subtraction broadcasts as intended and the result is
    the logarithm of the sum of the exponentials of that row. *)
Lemma logsumexp_rows_one (N : nat) (f : nat -> nat -> R) :
  (1 <= N)%nat ->
  logsumexp_rows 1 N (mk_mat 1 N f)
  = Some [ln (vsum (map exp (mk_vec N (f 0%nat))))].
Proof.
  intros HN. unfold logsumexp_rows.
  destruct (Nat.eqb N 0) eqn:E0; [apply Nat.eqb_eq in E0; lia|].
  unfold mk_mat. cbn [seq map mapM].
  destruct (vmax_mk_vec N (f 0%nat) HN) as [m Hm]. rewrite Hm.
  rewrite broadcastable_one. rewrite Nat.max_l by lia.
  unfold mk_vec at 1. cbn [seq map]. f_equal. f_equal.
  change (vget [m] 0) with m.
  rewrite (big_sum_ext N _ (fun j => exp (f 0%nat j - m))).
  - rewrite (big_sum_as_vsum N (f 0%nat) (fun v => exp (v - m))).
    rewrite vsum_exp_shift.
    assert (Hne : mk_vec N (f 0%nat) <> [])
      by (unfold mk_vec; destruct N; [lia | discriminate]).
    rewrite ln_mult by (try apply exp_pos; apply vsum_exp_pos; exact Hne).
    rewrite ln_exp. lra.
  - intros j Hj.
    assert (Hx : mget [mk_vec N (f 0%nat)] 0 j = f 0%nat j).
    { unfold mget, row. rewrite at_in_range by (cbn; lia). cbn [nth].
      apply vget_mk_vec. exact Hj. }
    assert (Hmj : vget [m] j = m).
    { unfold vget. rewrite at_clamped. cbn [length pred]. rewrite Nat.min_0_r.
      reflexivity. }
    rewrite Hx, Hmj. reflexivity.
Qed.

(** The energies of the two components of the pair under [biased_params]. *)
Lemma biased_energies :
  mk_mat 2 2 (fun i y =>
    vget (h_ (normalise_ctbn_params biased_params)) y
    + big_sum 1 (fun j =>
        mget (J_ (normalise_ctbn_params biased_params)) (imget pair_nbr_idx i j) y
        * INR (imget pair_nbr_mask i j)))
  = [[-100; 0]; [0; 50]].
Proof.
  unfold mk_mat, mk_vec, big_sum. cbn.
  repeat (f_equal; try lra).
Qed.

(** On that matrix the row maxima 0 and 50 are subtracted along the columns. *)
Lemma logsumexp_rows_biased :
  logsumexp_rows 2 2 [[-100; 0]; [0; 50]]
  = Some [ln (exp (-100) + exp (-50)); ln 2 + 50].
Proof.
  unfold logsumexp_rows. cbn [Nat.eqb mapM vmax fold_left].
  rewrite (Rmax_right (-100) 0) by lra. rewrite (Rmax_right 0 50) by lra.
  unfold broadcastable. cbn [Nat.eqb orb Nat.max].
  unfold mk_vec, big_sum. cbn.
  replace (-100 - 0) with (-100) by lra.
  replace (0 - 50) with (-50) by lra.
  replace (0 - 0) with 0 by lra.
  replace (50 - 50) with 0 by lra.
  rewrite exp_0.
  replace (exp (-100) + (exp (-50) + 0)) with (exp (-100) + exp (-50)) by lra.
  replace (1 + (1 + 0)) with 2 by lra.
  rewrite Rplus_0_r. reflexivity.
Qed.

Lemma pseudo_log_marg_biased :
  ctbn_pseudo_log_marg [1; 1]%nat pair_seq_mask pair_nbr_idx pair_nbr_mask biased_params
  = Some (- ln (exp (-100) + exp (-50)) - ln 2).
Proof.
  unfold ctbn_pseudo_log_marg. cbv zeta.
  change (nrows pair_nbr_idx) with 2%nat. change (ncols pair_nbr_idx) with 1%nat.
  assert (HN : ncols (J_ (normalise_ctbn_params biased_params)) = 2%nat).
  { cbn [normalise_ctbn_params J_].
    destruct (shape_symmetrise (J_ biased_params)) as [_ Hc]. rewrite Hc. reflexivity. }
  rewrite HN, biased_energies, logsumexp_rows_biased.
  f_equal. unfold big_sum, mk_vec. cbn. lra.
Qed.

(** X5.  [ctbn_pseudo_log_marg] works for one component only.  With K
    components and N states, both at least 2 and K <> N, it raises: the
    row maxima of [logsumexp(E_iy, axis=-1)] do not broadcast against
    [E_iy].  With K = 1 (and N >= 1) it returns a value that is never
    positive.  With K = N the subtraction broadcasts along the wrong axis
    and the value is no log-probability: on the pair under [biased_params],
    both components in state 1, it is positive. *)
Theorem pseudo_log_marg_one_component (xs seq_mask : ivec) (nbr_idx nbr_mask : imat)
  (params : ctbn_params) :
  let K := nrows nbr_idx in
  let N := ncols (J_ params) in
  ((2 <= K)%nat -> (2 <= N)%nat -> K <> N ->
     ctbn_pseudo_log_marg xs seq_mask nbr_idx nbr_mask params = None)
  /\ (K = 1%nat -> (1 <= N)%nat ->
      exists v,
        ctbn_pseudo_log_marg xs seq_mask nbr_idx nbr_mask params = Some v /\ v <= 0)
  /\ exists v,
       ctbn_pseudo_log_marg [1; 1]%nat pair_seq_mask pair_nbr_idx pair_nbr_mask
         biased_params = Some v
       /\ 0 < v.
Proof.
  intros K N.
  assert (HN : ncols (J_ (normalise_ctbn_params params)) = N).
  { cbn [normalise_ctbn_params J_]. destruct (shape_symmetrise (J_ params)) as [_ Hc].
    exact Hc. }
  split; [|split].
  - intros HK2 HN2 HKN. unfold ctbn_pseudo_log_marg. cbv zeta. fold K. rewrite HN.
    rewrite logsumexp_rows_raises; [reflexivity|].
    apply broadcastable_false; lia.
  - intros HK1 HN1. unfold ctbn_pseudo_log_marg. cbv zeta. fold K. rewrite HN, HK1.
    rewrite logsumexp_rows_one by exact HN1.
    eexists. split; [reflexivity|].
    unfold big_sum at 1. cbn [mk_vec seq map vsum fold_right].
    rewrite Rplus_0_r.
    repeat match goal with |- context [vget [?a] 0] => change (vget [a] 0) with a end.
    set (f := fun i y => vget (h_ (normalise_ctbn_params params)) y + _).
    change (fun y : nat => vget (h_ (normalise_ctbn_params params)) y + _)
      with (f 0%nat).
    assert (Hne : mk_vec N (f 0%nat) <> [])
      by (unfold mk_vec; destruct N; [lia | discriminate]).
    assert (Hrow : row (mk_mat 1 N f) 0 = mk_vec N (f 0%nat)) by reflexivity.
    assert (Hle : mget (mk_mat 1 N f) 0 (iget xs 0)
                  <= ln (vsum (map exp (mk_vec N (f 0%nat))))).
    { unfold mget. rewrite Hrow. unfold vget.
      pose proof (at_in 0 (mk_vec N (f 0%nat)) (iget xs 0) Hne) as Hin.
      set (v := at_ 0 (mk_vec N (f 0%nat)) (iget xs 0)) in *.
      rewrite <- (ln_exp v) at 1.
      pose proof (vsum_exp_ge _ v Hin) as Hge. pose proof (exp_pos v) as Hpos.
      destruct Hge as [Hlt | Heq];
        [left; apply ln_increasing; assumption | rewrite Heq; lra]. }
    pose proof (pos_INR (iget seq_mask 0)) as Hm.
    rewrite <- (Rmult_0_l (INR (iget seq_mask 0))).
    apply Rmult_le_compat_r; lra.
  - exists (- ln (exp (-100) + exp (-50)) - ln 2).
    split; [apply pseudo_log_marg_biased|].
    assert (H100 : exp (-100) < / 4).
    { replace (-100) with (- (100)) by lra. rewrite exp_Ropp.
      apply Rinv_lt_contravar; [pose proof (exp_pos 100); lra|].
      pose proof (exp_ineq1_le 100). lra. }
    assert (H50 : exp (-50) < / 4).
    { replace (-50) with (- (50)) by lra. rewrite exp_Ropp.
      apply Rinv_lt_contravar; [pose proof (exp_pos 50); lra|].
      pose proof (exp_ineq1_le 50). lra. }
    pose proof (exp_pos (-100)) as P100. pose proof (exp_pos (-50)) as P50.
    assert (Hlt : ln (exp (-100) + exp (-50)) < ln (/ 2))
      by (apply ln_increasing; lra).
    rewrite ln_Rinv in Hlt by lra. lra.
Qed.

(** ** Sparse neighbourhoods on valid input *)

(** X6.  For x >= 1, [round_up_to_power x] is a power of two that is at
    least x and less than 2x: the smallest power of two not below x.  At 0
    it is 2. *)
Theorem round_up_to_power_smallest (x : Z) :
  round_up_to_power 0 = 2%Z
  /\ ((1 <= x)%Z ->
      exists k, (0 <= k)%Z /\ round_up_to_power x = (2 ^ k)%Z
                /\ (x <= round_up_to_power x < 2 * x)%Z).
Proof.
  split; [reflexivity|]. intros Hx. unfold round_up_to_power, bit_length.
  destruct (Z.eqb (x - 1) 0) eqn:Hz.
  - apply Z.eqb_eq in Hz. exists 0%Z. rewrite Z.shiftl_1_l.
    change (2 ^ 0)%Z with 1%Z. lia.
  - apply Z.eqb_neq in Hz.
    assert (Hn : (0 < x - 1)%Z) by lia.
    rewrite Z.abs_eq by lia.
    pose proof (Z.log2_spec (x - 1) Hn) as [Hlo Hhi].
    pose proof (Z.log2_nonneg (x - 1)) as Hk.
    exists (Z.log2 (x - 1) + 1)%Z.
    rewrite Z.shiftl_1_l. split; [lia|]. split; [reflexivity|].
    replace (Z.log2 (x - 1) + 1)%Z with (Z.succ (Z.log2 (x - 1))) in * by lia.
    rewrite Z.pow_succ_r in * by lia. lia.
Qed.

Lemma round_up_to_power_smallest_witness :
  exists k, (0 <= k)%Z /\ round_up_to_power 5 = (2 ^ k)%Z
            /\ (5 <= round_up_to_power 5 < 2 * 5)%Z.
Proof.
  apply (round_up_to_power_smallest 5). lia.
Defined.

Lemma round_up_to_power_ge (x : Z) : (0 <= x)%Z -> (x <= round_up_to_power x)%Z.
Proof.
  intros Hx. destruct (Z.eq_dec x 0) as [-> | Hne]; [cbn; lia|].
  unfold round_up_to_power, bit_length.
  destruct (Z.eqb (x - 1) 0) eqn:Hz.
  - apply Z.eqb_eq in Hz. rewrite Z.shiftl_1_l. change (2 ^ 0)%Z with 1%Z. lia.
  - apply Z.eqb_neq in Hz. rewrite Z.abs_eq by lia.
    pose proof (Z.log2_spec (x - 1) ltac:(lia)) as [Hlo Hhi].
    pose proof (Z.log2_nonneg (x - 1)) as Hk.
    rewrite Z.shiftl_1_l.
    replace (Z.log2 (x - 1) + 1)%Z with (Z.succ (Z.log2 (x - 1))) in * by lia. lia.
Qed.

Lemma fold_left_max_in (l : list nat) (a : nat) :
  fold_left Nat.max l a = a \/ In (fold_left Nat.max l a) l.
Proof.
  revert a. induction l as [|b l IH]; intros a; cbn [fold_left]; [left; reflexivity|].
  destruct (IH (Nat.max a b)) as [H | H].
  - rewrite H. destruct (Nat.max_spec a b) as [[_ ->] | [_ ->]];
      [right; left; reflexivity | left; reflexivity].
  - right. right. exact H.
Qed.

Lemma py_max_attained (l : list nat) :
  l <> [] ->
  exists mx, py_max l = inr mx /\ In mx l /\ forall x, In x l -> (x <= mx)%nat.
Proof.
  intros Hne. destruct l as [|a tl]; [contradiction|]. cbn [py_max].
  eexists. split; [reflexivity|]. split.
  - destruct (fold_left_max_in tl a) as [H | H]; [left; symmetry; exact H | right; exact H].
  - intros x Hx. apply fold_left_max_ge.
    destruct Hx as [Hx | Hx]; [left; symmetry; exact Hx | right; exact Hx].
Qed.

Lemma blankets_on_valid_input (n : nat) (C : list (list Z)) (xs ys : option ivec)
  (K M : option Z) :
  valid_blanket_input n C xs ys K M ->
  exists Kz Mz,
    get_Markov_blankets C xs ys K M = inr (blankets_result n C xs ys Kz Mz)
    /\ (Z.of_nat n <= Kz)%Z
    /\ Kz = match K with Some k => k | None => round_up_to_power (Z.of_nat n) end
    /\ (forall i, (i < n)%nat -> (Z.of_nat (length (neighbours C i)) <= Mz)%Z).
Proof.
  intros (Hn & Hlen & Hrows & Hxs & Hys & HK & HM).
  unfold get_Markov_blankets. cbv zeta. unfold nrows.
  assert (Hcols : ncols C = n).
  { unfold ncols. destruct C as [|r0 tl]; cbn in *; [lia|]. inversion Hrows; assumption. }
  rewrite Hcols, Hlen, Nat.eqb_refl. cbn [andb negb].
  replace (match xs with
           | Some l => negb (Nat.eqb (length l) n)
           | None => false
           end) with false
    by (destruct xs; [rewrite Hxs, Nat.eqb_refl|]; reflexivity).
  replace (match ys with
           | Some l => negb (Nat.eqb (length l) n)
           | None => false
           end) with false
    by (destruct ys; [rewrite Hys, Nat.eqb_refl|]; reflexivity).
  set (counts := map (@length nat) (map (fun i => nonzero (at_ [] C i)) (seq 0 n))).
  assert (Hne : counts <> []).
  { unfold counts. destruct n; [lia|]. cbn. discriminate. }
  destruct (py_max_attained counts Hne) as [mx [Hmx [_ Hbound]]].
  assert (Hcount : forall i, (i < n)%nat -> (length (neighbours C i) <= mx)%nat).
  { intros i Hi. apply Hbound. unfold counts. rewrite map_map.
    apply (in_map (fun i => length (nonzero (at_ [] C i)))). apply in_seq. lia. }
  rewrite Hmx.
  set (Kz := match K with Some k => k | None => round_up_to_power (Z.of_nat n) end).
  assert (HKz : (Z.of_nat n <= Kz)%Z).
  { unfold Kz. destruct K; [exact HK | apply round_up_to_power_ge; lia]. }
  destruct M as [m|].
  - assert (Hge : Z.geb m (Z.of_nat mx) = true).
    { rewrite Z.geb_le.
      destruct (py_max_attained counts Hne) as [mx' [Hmx' [Hin _]]].
      rewrite Hmx in Hmx'. injection Hmx' as <-.
      unfold counts in Hin. rewrite map_map in Hin. apply in_map_iff in Hin.
      destruct Hin as [i [<- Hi]]. apply in_seq in Hi. apply HM. lia. }
    rewrite Hge. exists Kz, m. split; [|split; [exact HKz|split; [reflexivity|exact HM]]].
    unfold blankets_result, neighbours. rewrite !map_map. reflexivity.
  - exists Kz, (round_up_to_power (Z.of_nat mx)).
    split; [|split; [exact HKz|split; [reflexivity|]]].
    + unfold blankets_result, neighbours. rewrite !map_map. reflexivity.
    + intros i Hi. specialize (Hcount i Hi).
      pose proof (round_up_to_power_ge (Z.of_nat mx) ltac:(lia)). lia.
Qed.

Lemma in_combine_seq {A : Type} (r : list A) (s j : nat) (c d : A) :
  In (j, c) (combine (seq s (length r)) r)
  <-> (s <= j < s + length r)%nat /\ nth (j - s) r d = c.
Proof.
  revert s. induction r as [|a r IH]; intros s; cbn [length seq combine In].
  - split; [intros [] | intros [H _]; lia].
  - rewrite IH. split.
    + intros [Heq | [Hr Hn]].
      * injection Heq as <- <-. split; [lia|]. rewrite Nat.sub_diag. reflexivity.
      * split; [lia|]. replace (j - s)%nat with (S (j - S s)) by lia. exact Hn.
    + intros [Hr Hn]. destruct (Nat.eq_dec j s) as [-> | Hne].
      * left. rewrite Nat.sub_diag in Hn. cbn in Hn. subst c. reflexivity.
      * right. split; [lia|].
        replace (j - s)%nat with (S (j - S s)) in Hn by lia. exact Hn.
Qed.

(** [nonzero] lists exactly the positions of the nonzero entries. *)
Lemma nonzero_spec (r : list Z) (j : nat) :
  In j (nonzero r) <-> (j < length r)%nat /\ nth j r 0%Z <> 0%Z.
Proof.
  unfold nonzero. rewrite in_map_iff. split.
  - intros [[j' c] [Hfst Hin]]. cbn in Hfst. subst j'.
    apply filter_In in Hin. destruct Hin as [Hin Hc].
    apply (in_combine_seq r 0 j c 0%Z) in Hin. destruct Hin as [Hj Hn].
    rewrite Nat.sub_0_r in Hn. split; [lia|].
    rewrite Hn. apply negb_true_iff, Z.eqb_neq in Hc. exact Hc.
  - intros [Hj Hn]. exists (j, nth j r 0%Z). split; [reflexivity|].
    apply filter_In. split.
    + apply (in_combine_seq r 0 j _ 0%Z). rewrite Nat.sub_0_r. split; [lia | reflexivity].
    + apply negb_true_iff, Z.eqb_neq. exact Hn.
Qed.

Lemma at_map_seq {B : Type} (d : B) (f : nat -> B) (n i : nat) :
  (i < n)%nat -> at_ d (map f (seq 0 n)) i = f i.
Proof.
  intros Hi. rewrite at_in_range by (rewrite length_map, length_seq; exact Hi).
  rewrite nth_indep with (d' := f 0%nat) by (rewrite length_map, length_seq; exact Hi).
  rewrite map_nth, seq_nth by exact Hi. reflexivity.
Qed.

Lemma seq_mask_blocks (n Kn : nat) :
  (n <= Kn)%nat ->
  map (fun k => if Nat.ltb k n then 1 else 0)%nat (seq 0 Kn)
  = repeat 1%nat n ++ repeat 0%nat (Kn - n).
Proof.
  intros Hle. replace Kn with (n + (Kn - n))%nat at 1 by lia.
  rewrite seq_app, map_app. cbn [Nat.add]. f_equal.
  - assert (H : forall l, (forall k, In k l -> (k < n)%nat) ->
                map (fun k => if Nat.ltb k n then 1 else 0)%nat l = repeat 1%nat (length l)).
    { induction l as [|a l IH]; intros Hl; cbn [map length repeat]; [reflexivity|].
      rewrite IH by (intros k Hk; apply Hl; right; exact Hk).
      specialize (Hl a (or_introl eq_refl)). apply Nat.ltb_lt in Hl. rewrite Hl.
      reflexivity. }
    rewrite H by (intros k Hk; apply in_seq in Hk; lia).
    rewrite length_seq. reflexivity.
  - assert (H : forall l, (forall k, In k l -> (n <= k)%nat) ->
                map (fun k => if Nat.ltb k n then 1 else 0)%nat l = repeat 0%nat (length l)).
    { induction l as [|a l IH]; intros Hl; cbn [map length repeat]; [reflexivity|].
      rewrite IH by (intros k Hk; apply Hl; right; exact Hk).
      specialize (Hl a (or_introl eq_refl)). apply Nat.ltb_ge in Hl. rewrite Hl.
      reflexivity. }
    rewrite H by (intros k Hk; apply in_seq in Hk; lia).
    rewrite length_seq. reflexivity.
Qed.

(** X7.  On valid input the function returns a tuple in which [seq_mask] is
    n ones followed by zeros up to the padded length K >= n (the next power
    of two when K is not supplied), [nbr_mask] has K rows but [nbr_idx] only
    the n rows of the real components, all rows have one common length M,
    and a supplied xs or ys is extended by zeros to length K. *)
Theorem blankets_shapes (n : nat) (C : list (list Z)) (xs ys : option ivec)
  (K M : option Z) :
  valid_blanket_input n C xs ys K M ->
  exists seq_mask nbr_idx nbr_mask xs' ys' Kn Mn,
    get_Markov_blankets C xs ys K M = inr (seq_mask, nbr_idx, nbr_mask, xs', ys')
    /\ (n <= Kn)%nat
    /\ (K = None -> Z.of_nat Kn = round_up_to_power (Z.of_nat n))
    /\ seq_mask = repeat 1%nat n ++ repeat 0%nat (Kn - n)
    /\ length nbr_mask = Kn /\ length nbr_idx = n
    /\ Forall (fun r => length r = Mn) nbr_idx
    /\ Forall (fun r => length r = Mn) nbr_mask
    /\ xs' = option_map (fun l => l ++ repeat 0%nat (Kn - n)) xs
    /\ ys' = option_map (fun l => l ++ repeat 0%nat (Kn - n)) ys.
Proof.
  intros Hvalid.
  destruct (blankets_on_valid_input n C xs ys K M Hvalid)
    as [Kz [Mz [Hres [HKz [HK HMz]]]]].
  unfold blankets_result in Hres.
  do 5 eexists. exists (Z.to_nat Kz), (Z.to_nat Mz).
  split; [exact Hres|].
  assert (Hpad : Z.to_nat (Kz - Z.of_nat n) = (Z.to_nat Kz - n)%nat) by lia.
  split; [lia|]. split; [intros ->; lia|].
  split; [apply seq_mask_blocks; lia|].
  split; [rewrite length_app, length_map, length_seq; unfold py_repeat;
          rewrite repeat_length; lia|].
  split; [rewrite length_map, length_seq; reflexivity|].
  split; [|split; [|split]].
  - apply Forall_forall. intros r Hr. apply in_map_iff in Hr.
    destruct Hr as [i [<- Hi]]. apply in_seq in Hi.
    specialize (HMz i ltac:(lia)). unfold py_repeat.
    rewrite length_app, repeat_length. lia.
  - apply Forall_forall. intros r Hr. apply in_app_or in Hr. destruct Hr as [Hr | Hr].
    + apply in_map_iff in Hr. destruct Hr as [i [<- Hi]]. apply in_seq in Hi.
      specialize (HMz i ltac:(lia)). unfold py_repeat.
      rewrite length_app, !repeat_length. lia.
    + unfold py_repeat in Hr. apply repeat_spec in Hr. subst r.
      apply repeat_length.
  - unfold py_repeat. rewrite Hpad. reflexivity.
  - unfold py_repeat. rewrite Hpad. reflexivity.
Qed.

Lemma triangle_valid :
  valid_blanket_input 3 triangle_contacts (Some [2; 0; 1]%nat) None None None.
Proof.
  unfold valid_blanket_input, triangle_contacts.
  split; [lia|]. split; [reflexivity|]. split; [repeat constructor|].
  split; [reflexivity|]. split; exact I || (split; exact I).
Qed.

Lemma blankets_shapes_witness :
  exists seq_mask nbr_idx nbr_mask xs' ys' Kn Mn,
    get_Markov_blankets triangle_contacts (Some [2; 0; 1]%nat) None None None
    = inr (seq_mask, nbr_idx, nbr_mask, xs', ys')
    /\ (3 <= Kn)%nat
    /\ (@None Z = None -> Z.of_nat Kn = round_up_to_power (Z.of_nat 3))
    /\ seq_mask = repeat 1%nat 3 ++ repeat 0%nat (Kn - 3)
    /\ length nbr_mask = Kn /\ length nbr_idx = 3%nat
    /\ Forall (fun r => length r = Mn) nbr_idx
    /\ Forall (fun r => length r = Mn) nbr_mask
    /\ xs' = option_map (fun l => l ++ repeat 0%nat (Kn - 3)) (Some [2; 0; 1]%nat)
    /\ ys' = option_map (fun l => l ++ repeat 0%nat (Kn - 3)) None.
Proof.
  apply (blankets_shapes 3 triangle_contacts (Some [2; 0; 1]%nat) None None None).
  exact triangle_valid.
Defined.

Lemma blankets_rows (n : nat) (C : list (list Z)) (xs ys : option ivec) (Kz Mz : Z) :
  (Z.of_nat n <= Kz)%Z ->
  (forall i, (i < n)%nat -> (Z.of_nat (length (neighbours C i)) <= Mz)%Z) ->
  let '(seq_mask, nbr_idx, nbr_mask, _, _) := blankets_result n C xs ys Kz Mz in
  forall i,
    ((i < n)%nat ->
       irow nbr_idx i
       = neighbours C i ++ repeat 0%nat (Z.to_nat Mz - length (neighbours C i))
       /\ irow nbr_mask i
          = repeat 1%nat (length (neighbours C i))
            ++ repeat 0%nat (Z.to_nat Mz - length (neighbours C i)))
    /\ ((n <= i < Z.to_nat Kz)%nat -> irow nbr_mask i = repeat 0%nat (Z.to_nat Mz)).
Proof.
  intros HKz HMz. unfold blankets_result. intros i. split.
  - intros Hi. specialize (HMz i Hi).
    assert (Hpad : Z.to_nat (Mz - Z.of_nat (length (neighbours C i)))
                   = (Z.to_nat Mz - length (neighbours C i))%nat) by lia.
    unfold irow. split.
    + rewrite at_map_seq by exact Hi. unfold py_repeat. rewrite Hpad. reflexivity.
    + rewrite at_in_range
        by (rewrite length_app, length_map, length_seq; lia).
      rewrite app_nth1 by (rewrite length_map, length_seq; exact Hi).
      rewrite <- (at_in_range [] (map _ (seq 0 n)) i)
        by (rewrite length_map, length_seq; exact Hi).
      rewrite at_map_seq by exact Hi. unfold py_repeat. rewrite Hpad. reflexivity.
  - intros Hi. unfold irow.
    rewrite at_in_range
      by (rewrite length_app, length_map, length_seq; unfold py_repeat;
          rewrite repeat_length; lia).
    rewrite app_nth2 by (rewrite length_map, length_seq; lia).
    rewrite length_map, length_seq. unfold py_repeat at 1.
    rewrite nth_repeat_lt by lia. reflexivity.
Qed.

Lemma iget_app_left (a b : ivec) (k : nat) :
  (k < length a)%nat -> iget (a ++ b) k = nth k a 0%nat.
Proof.
  intros Hk. unfold iget. rewrite at_in_range by (rewrite length_app; lia).
  apply app_nth1. exact Hk.
Qed.

Lemma iget_app_right_repeat (a : ivec) (v m k : nat) :
  (length a <= k < length a + m)%nat -> iget (a ++ repeat v m) k = v.
Proof.
  intros Hk. unfold iget.
  rewrite at_in_range by (rewrite length_app, repeat_length; lia).
  rewrite app_nth2 by lia. apply nth_repeat_lt. lia.
Qed.

(** X8.  On valid input, for a real component i and a slot k < M:
    [nbr_mask[i][k]] is 1 exactly on the first slots, as many as i has
    neighbours; a masked-in slot of [nbr_idx] holds a component j < n with
    C[i][j] nonzero, and every such j fills one masked-in slot; a masked-out
    slot of [nbr_idx] holds 0.  The rows of [nbr_mask] for padded components
    hold only zeros. *)
Theorem blankets_neighbours (n : nat) (C : list (list Z)) (xs ys : option ivec)
  (K M : option Z) :
  valid_blanket_input n C xs ys K M ->
  exists seq_mask nbr_idx nbr_mask xs' ys',
    get_Markov_blankets C xs ys K M = inr (seq_mask, nbr_idx, nbr_mask, xs', ys')
    /\ (forall i k, (i < n)%nat -> (k < ncols nbr_idx)%nat ->
          imget nbr_mask i k
          = (if Nat.ltb k (length (neighbours C i)) then 1 else 0)%nat
          /\ (imget nbr_mask i k = 1%nat ->
              (imget nbr_idx i k < n)%nat
              /\ nth (imget nbr_idx i k) (nth i C []) 0%Z <> 0%Z)
          /\ (imget nbr_mask i k = 0%nat -> imget nbr_idx i k = 0%nat))
    /\ (forall i j, (i < n)%nat -> (j < n)%nat -> nth j (nth i C []) 0%Z <> 0%Z ->
          exists k, (k < ncols nbr_idx)%nat /\ imget nbr_mask i k = 1%nat
                    /\ imget nbr_idx i k = j)
    /\ (forall i k, (n <= i < length seq_mask)%nat -> (k < ncols nbr_idx)%nat ->
          imget nbr_mask i k = 0%nat).
Proof.
  intros Hvalid.
  destruct (blankets_on_valid_input n C xs ys K M Hvalid)
    as [Kz [Mz [Hres [HKz [_ HMz]]]]].
  pose proof (blankets_rows n C xs ys Kz Mz HKz HMz) as Hrows.
  destruct Hvalid as (Hn & Hlen & HCrows & _).
  unfold blankets_result in Hres, Hrows.
  do 5 eexists. split; [exact Hres|].
  set (nbr_idx := map (fun i => neighbours C i
                         ++ py_repeat 0%nat (Mz - Z.of_nat (length (neighbours C i))))
                      (seq 0 n)) in *.
  assert (Hcols : ncols nbr_idx = Z.to_nat Mz).
  { unfold ncols, nbr_idx. destruct n as [|n']; [lia|]. cbn [seq map hd].
    specialize (HMz 0%nat ltac:(lia)). unfold py_repeat.
    rewrite length_app, repeat_length. lia. }
  assert (Hrow : forall i, (i < n)%nat -> length (nth i C []) = n).
  { intros i Hi. rewrite Forall_forall in HCrows. apply HCrows. apply nth_In. lia. }
  assert (Hnbr : forall i j, (i < n)%nat ->
             In j (neighbours C i) <-> (j < n)%nat /\ nth j (nth i C []) 0%Z <> 0%Z).
  { intros i j Hi. unfold neighbours. rewrite at_in_range by lia.
    rewrite nonzero_spec, Hrow by exact Hi. reflexivity. }
  rewrite Hcols. split; [|split].
  - intros i k Hi Hk. destruct (Hrows i) as [Hreal _].
    destruct (Hreal Hi) as [Hidx Hmask]. specialize (HMz i Hi).
    unfold imget. rewrite Hidx, Hmask. clear Hidx Hmask Hreal.
    set (c := length (neighbours C i)) in *.
    destruct (Nat.ltb k c) eqn:Hkc.
    + apply Nat.ltb_lt in Hkc.
      rewrite iget_app_left by (rewrite repeat_length; exact Hkc).
      rewrite nth_repeat_lt by exact Hkc.
      split; [reflexivity|]. split; [|discriminate].
      intros _. rewrite iget_app_left by exact Hkc.
      apply Hnbr; [exact Hi|]. apply nth_In. exact Hkc.
    + apply Nat.ltb_ge in Hkc.
      rewrite iget_app_right_repeat by (rewrite repeat_length; lia).
      split; [reflexivity|]. split; [discriminate|].
      intros _. apply iget_app_right_repeat. fold c. lia.
  - intros i j Hi Hj Hnz. destruct (Hrows i) as [Hreal _].
    destruct (Hreal Hi) as [Hidx Hmask]. specialize (HMz i Hi).
    assert (Hin : In j (neighbours C i)) by (apply Hnbr; [exact Hi | split; assumption]).
    destruct (In_nth _ _ 0%nat Hin) as [k [Hk Hnth]].
    exists k. split; [lia|]. unfold imget. rewrite Hidx, Hmask. split.
    + rewrite iget_app_left by (rewrite repeat_length; exact Hk).
      apply nth_repeat_lt. exact Hk.
    + rewrite iget_app_left by exact Hk. exact Hnth.
  - intros i k Hi Hk. rewrite length_map, length_seq in Hi.
    destruct (Hrows i) as [_ Hpadded]. unfold imget. rewrite Hpadded by exact Hi.
    unfold iget. rewrite at_in_range by (rewrite repeat_length; exact Hk).
    apply nth_repeat_lt. exact Hk.
Qed.

Lemma blankets_neighbours_witness :
  exists seq_mask nbr_idx nbr_mask xs' ys',
    get_Markov_blankets triangle_contacts (Some [2; 0; 1]%nat) None None None
    = inr (seq_mask, nbr_idx, nbr_mask, xs', ys')
    /\ length seq_mask = 4%nat.
Proof.
  destruct (blankets_neighbours 3 triangle_contacts (Some [2; 0; 1]%nat) None None None
              triangle_valid)
    as (seq_mask & nbr_idx & nbr_mask & xs' & ys' & Hres & _).
  exists seq_mask, nbr_idx, nbr_mask, xs', ys'. split; [exact Hres|].
  vm_compute in Hres. injection Hres as <- _ _ _ _. reflexivity.
Defined.

(** X9.  The tuple returned on valid input has no masked-in padded
    neighbour: every masked-in slot of a real component names a real
    component. *)
Theorem blankets_have_real_neighbours (n : nat) (C : list (list Z))
  (xs ys : option ivec) (K M : option Z) :
  valid_blanket_input n C xs ys K M ->
  exists seq_mask nbr_idx nbr_mask xs' ys',
    get_Markov_blankets C xs ys K M = inr (seq_mask, nbr_idx, nbr_mask, xs', ys')
    /\ real_neighbours seq_mask (length seq_mask) nbr_idx nbr_mask.
Proof.
  intros Hvalid.
  destruct (blankets_on_valid_input n C xs ys K M Hvalid)
    as [Kz [Mz [Hres [HKz [_ HMz]]]]].
  pose proof (blankets_rows n C xs ys Kz Mz HKz HMz) as Hrows.
  destruct Hvalid as (Hn & Hlen & HCrows & _).
  unfold blankets_result in Hres, Hrows.
  do 5 eexists. split; [exact Hres|].
  set (seq_mask := map (fun k => if Nat.ltb k n then 1 else 0)%nat (seq 0 (Z.to_nat Kz))).
  assert (Hmask : forall j, (j < Z.to_nat Kz)%nat ->
             iget seq_mask j = (if Nat.ltb j n then 1 else 0)%nat).
  { intros j Hj. unfold iget, seq_mask. apply at_map_seq. exact Hj. }
  assert (HlenK : length seq_mask = Z.to_nat Kz)
    by (unfold seq_mask; rewrite length_map, length_seq; reflexivity).
  rewrite HlenK.
  assert (Hcols : ncols (map (fun i => neighbours C i
                    ++ py_repeat 0%nat (Mz - Z.of_nat (length (neighbours C i))))
                    (seq 0 n)) = Z.to_nat Mz).
  { unfold ncols. destruct n as [|n']; [lia|]. cbn [seq map hd].
    specialize (HMz 0%nat ltac:(lia)). unfold py_repeat.
    rewrite length_app, repeat_length. lia. }
  intros i k Hi Hreal Hk Hin. rewrite Hcols in Hk.
  rewrite Hmask in Hreal by exact Hi.
  destruct (Nat.ltb i n) eqn:Hin_n; [|contradiction Hreal; reflexivity].
  apply Nat.ltb_lt in Hin_n.
  destruct (Hrows i) as [Hr _]. destruct (Hr Hin_n) as [Hidx Hm].
  specialize (HMz i Hin_n).
  unfold imget in *. rewrite Hm in Hin. rewrite Hidx.
  set (c := length (neighbours C i)) in *.
  destruct (Nat.lt_ge_cases k c) as [Hkc | Hkc].
  - rewrite iget_app_left by exact Hkc.
    assert (Hj : (nth k (neighbours C i) 0 < n)%nat).
    { assert (Hinl : In (nth k (neighbours C i) 0%nat) (neighbours C i))
        by (apply nth_In; exact Hkc).
      unfold neighbours in Hinl |- *.
      rewrite at_in_range in Hinl |- * by (rewrite Hlen; exact Hin_n).
      apply nonzero_spec in Hinl. destruct Hinl as [Hlt _].
      rewrite Forall_forall in HCrows.
      rewrite (HCrows (nth i C [])) in Hlt by (apply nth_In; rewrite Hlen; exact Hin_n).
      exact Hlt. }
    rewrite Hmask by lia.
    apply Nat.ltb_lt in Hj. rewrite Hj. discriminate.
  - exfalso. apply Hin.
    apply iget_app_right_repeat. rewrite repeat_length. fold c. lia.
Qed.

Lemma blankets_have_real_neighbours_witness :
  exists seq_mask nbr_idx nbr_mask xs' ys',
    get_Markov_blankets triangle_contacts (Some [2; 0; 1]%nat) None None None
    = inr (seq_mask, nbr_idx, nbr_mask, xs', ys')
    /\ real_neighbours seq_mask (length seq_mask) nbr_idx nbr_mask.
Proof.
  apply (blankets_have_real_neighbours 3 triangle_contacts (Some [2; 0; 1]%nat)
           None None None).
  exact triangle_valid.
Defined.

(** X10.  On an empty contact matrix, with xs and ys absent or empty, the
    assertions pass and the function fails in Python's [max] of an empty
    list: a ValueError, whatever K and M are, and no tuple. *)
Theorem blankets_of_no_components (xs ys : option ivec) (K M : option Z) :
  (xs = None \/ xs = Some []) -> (ys = None \/ ys = Some []) ->
  get_Markov_blankets [] xs ys K M = inl ValueError.
Proof.
  intros [-> | ->] [-> | ->]; destruct M; reflexivity.
Qed.

Lemma blankets_of_no_components_witness :
  get_Markov_blankets [] None (Some []) (Some 4%Z) (Some 2%Z) = inl ValueError.
Proof.
  apply (blankets_of_no_components None (Some []) (Some 4%Z) (Some 2%Z)).
  - left. reflexivity.
  - right. reflexivity.
Defined.

(** ** Generators *)

Lemma has_shape_mk_mat_like (N : nat) (a : mat) (f : nat -> nat -> R) :
  has_shape N N a -> has_shape N N (mk_mat (nrows a) (ncols a) f).
Proof.
  intros Ha. destruct (Nat.eq_dec N 0) as [-> | Hpos].
  - destruct Ha as [Hlen _]. apply length_zero_iff_nil in Hlen. subst a.
    split; [reflexivity | constructor].
  - rewrite (ncols_of_shape N N a Ha) by lia.
    destruct Ha as [Hlen _]. unfold nrows. rewrite Hlen. apply has_shape_mk_mat.
Qed.

Lemma row_normalise_rows_sum_zero (N : nat) (m : mat) (i : nat) :
  has_shape N N m -> (i < N)%nat -> vsum (row (row_normalise m) i) = 0.
Proof.
  intros Hm Hi.
  rewrite (vsum_row N) by (try apply has_shape_mat_zip; assumption).
  rewrite (big_sum_ext N _ (fun j => mget m i j
             + (if Nat.eqb i j then - big_sum N (mget m i) else 0)))
    by (intros j Hj; apply row_normalise_entry; assumption).
  rewrite big_sum_plus, big_sum_delta by exact Hi. lra.
Qed.

Lemma Forall_rows (P : vec -> Prop) (m : mat) :
  (forall i, (i < length m)%nat -> P (row m i)) -> Forall P m.
Proof.
  intros H. apply Forall_forall. intros r Hr.
  destruct (In_nth m r [] Hr) as [i [Hi Hnth]].
  specialize (H i Hi). unfold row in H. rewrite at_in_range in H by exact Hi.
  rewrite Hnth in H. exact H.
Qed.

Lemma big_sum_nonneg (n : nat) (f : nat -> R) :
  (forall i, (i < n)%nat -> 0 <= f i) -> 0 <= big_sum n f.
Proof.
  intros H. unfold big_sum, mk_vec. apply vsum_nonneg.
  apply Forall_forall. intros y Hy. apply in_map_iff in Hy.
  destruct Hy as [i [<- Hi]]. apply in_seq in Hi. apply H. lia.
Qed.

Lemma q_single_offdiag_entry (params : ctbn_params) (N x y : nat) :
  has_shape N N (S_ params) -> (x < N)%nat -> (y < N)%nat ->
  mget (q_single_offdiag params) x y
  = (if Nat.eqb x y then 0 else mget (S_ params) x y * exp (vget (h_ params) y)).
Proof.
  intros HS Hx Hy. unfold q_single_offdiag. cbv zeta.
  assert (Hr : nrows (S_ params) = N) by (destruct HS as [Hl _]; exact Hl).
  pose proof (ncols_of_shape N N _ HS ltac:(lia)) as Hc.
  rewrite nrows_mat_zip, ncols_mat_zip, Hr, Hc.
  rewrite mget_mk_mat by assumption.
  rewrite mget_mat_zip by (rewrite ?Hr, ?Hc; assumption).
  rewrite mget_offdiag_mask by assumption.
  destruct (Nat.eqb x y); lra.
Qed.

Lemma has_shape_q_single_offdiag (params : ctbn_params) (N : nat) :
  has_shape N N (S_ params) -> has_shape N N (q_single_offdiag params).
Proof.
  intros HS. unfold q_single_offdiag. cbv zeta.
  apply has_shape_mk_mat_like. apply has_shape_mat_zip. exact HS.
Qed.

(** X13.  For a square S, [q_single] is a generator: it is square, every
    row sums to zero, its off-diagonal entries are S[x,y]*exp(h[y]) whatever
    the diagonal of S holds, and normalising its rows again returns it
    unchanged.  When S is nonnegative off the diagonal, so is [q_single],
    and its diagonal is nonpositive. *)
Theorem q_single_is_generator (params : ctbn_params) (N : nat) :
  has_shape N N (S_ params) ->
  is_rate_matrix (q_single params)
  /\ row_normalise (q_single params) = q_single params
  /\ (forall x y, (x < N)%nat -> (y < N)%nat -> x <> y ->
        mget (q_single params) x y = mget (S_ params) x y * exp (vget (h_ params) y))
  /\ ((forall x y, (x < N)%nat -> (y < N)%nat -> x <> y -> 0 <= mget (S_ params) x y) ->
      forall x y, (x < N)%nat -> (y < N)%nat ->
        if Nat.eqb x y then mget (q_single params) x y <= 0
        else 0 <= mget (q_single params) x y).
Proof.
  intros HS.
  pose proof (has_shape_q_single_offdiag params N HS) as HO.
  assert (HQ : has_shape N N (q_single params))
    by (unfold q_single; apply has_shape_mat_zip; exact HO).
  assert (Hrate : is_rate_matrix (q_single params)).
  { destruct HQ as [Hlen Hall]. split.
    - rewrite Hlen. split; assumption.
    - apply Forall_rows. intros i Hi. unfold q_single.
      apply (row_normalise_rows_sum_zero N); [exact HO | lia]. }
  assert (Hentry : forall x y, (x < N)%nat -> (y < N)%nat ->
            mget (q_single params) x y
            = (if Nat.eqb x y then 0 else mget (S_ params) x y * exp (vget (h_ params) y))
              + (if Nat.eqb x y
                 then - big_sum N (fun z => if Nat.eqb x z then 0
                                            else mget (S_ params) x z
                                                 * exp (vget (h_ params) z))
                 else 0)).
  { intros x y Hx Hy. unfold q_single.
    rewrite (row_normalise_entry N) by assumption.
    rewrite (q_single_offdiag_entry params N) by assumption.
    destruct (Nat.eqb x y); [|reflexivity]. f_equal. f_equal.
    apply big_sum_ext. intros z Hz. apply (q_single_offdiag_entry params N); assumption. }
  split; [exact Hrate|].
  split; [apply row_normalise_rate_matrix; exact Hrate|].
  split.
  - intros x y Hx Hy Hne. rewrite Hentry by assumption.
    apply Nat.eqb_neq in Hne. rewrite Hne. lra.
  - intros Hpos x y Hx Hy. rewrite Hentry by assumption.
    destruct (Nat.eqb x y) eqn:He.
    + assert (H0 : 0 <= big_sum N (fun z => if Nat.eqb x z then 0
                                            else mget (S_ params) x z
                                                 * exp (vget (h_ params) z))).
      { apply big_sum_nonneg. intros z Hz. destruct (Nat.eqb x z) eqn:Hxz; [lra|].
        apply Nat.eqb_neq in Hxz.
        apply Rmult_le_pos; [apply Hpos; assumption | left; apply exp_pos]. }
      lra.
    + apply Nat.eqb_neq in He. rewrite Rplus_0_r.
      apply Rmult_le_pos; [apply Hpos; assumption | left; apply exp_pos].
Qed.

Lemma q_single_is_generator_witness :
  is_rate_matrix (q_single decoupled_params)
  /\ row_normalise (q_single decoupled_params) = q_single decoupled_params.
Proof.
  destruct (q_single_is_generator decoupled_params 2) as [H1 [H2 _]].
  - split; [reflexivity | repeat constructor].
  - split; assumption.
Defined.

(** ** Witnesses for the normalisation and sweep-order properties *)

Lemma normalise_guarantees_witness :
  mget (S_ (normalise_ctbn_params raw_asymmetric)) 0 1
  = mget (S_ (normalise_ctbn_params raw_asymmetric)) 1 0.
Proof.
  apply (normalise_guarantees raw_asymmetric 2 0 1).
  - split; [reflexivity | repeat constructor].
  - split; [reflexivity | repeat constructor].
  - lia.
  - lia.
Defined.

Lemma normalise_on_symmetric_input_witness :
  normalise_ctbn_params (normalise_ctbn_params repulsive_params)
  = normalise_ctbn_params repulsive_params.
Proof.
  apply (normalise_on_symmetric_input repulsive_params 2).
  - split; [reflexivity | repeat constructor].
  - split; [reflexivity | repeat constructor].
  - intros i j Hi Hj.
    destruct i as [|[|i]]; destruct j as [|[|j]]; try lia; reflexivity.
Defined.

Lemma order_never_reversed_witness :
  exists st,
    iterM 2
      (update_fun constant_dense nat ascending 0%nat pair_seq_mask pair_nbr_idx
         pair_nbr_mask decoupled_params 1 2 [[1; 0]; [1; 0]] [[0; 1]; [0; 1]])
      (([start_in_0; start_in_0], [end_in_1; end_in_1]), (-1)%Z) = Some st
    /\ sweep_order nat ascending 0%nat 2 (snd st) = ascending 0%nat 2.
Proof.
  destruct (constant_sweeps_return nat ascending 0%nat pair_seq_mask pair_nbr_idx
              pair_nbr_mask decoupled_params 1 2 [[1; 0]; [1; 0]] [[0; 1]; [0; 1]]
              (([start_in_0; start_in_0], [end_in_1; end_in_1]), (-1)%Z) 2 eq_refl)
    as [st Hst].
  exists st. split; [exact Hst|].
  apply (order_never_reversed constant_dense nat ascending 0%nat pair_seq_mask
           pair_nbr_idx pair_nbr_mask decoupled_params 1 2 [[1; 0]; [1; 0]]
           [[0; 1]; [0; 1]] ([start_in_0; start_in_0], [end_in_1; end_in_1]) 2 st).
  - repeat constructor; simpl; intuition lia.
  - simpl. lia.
  - exact Hst.
Defined.

(** ** Mean-field rates at point masses *)

Lemma at_map {A B : Type} (d : A) (d' : B) (f : A -> B) (l : list A) (i : nat) :
  l <> [] -> at_ d' (map f l) i = f (at_ d l i).
Proof.
  intros Hne. unfold at_. rewrite length_map.
  assert (Hlt : (Nat.min i (pred (length l)) < length l)%nat)
    by (destruct l; [contradiction | cbn [length pred]; lia]).
  rewrite nth_indep with (d' := f d) by (rewrite length_map; exact Hlt).
  apply map_nth.
Qed.

Lemma iget_bounded (N : nat) (xs : ivec) (r : nat) :
  xs <> [] -> Forall (fun s => (s < N)%nat) xs -> (iget xs r < N)%nat.
Proof.
  intros Hne Hall. rewrite Forall_forall in Hall. apply Hall.
  unfold iget. apply at_in. exact Hne.
Qed.

Lemma mget_one_hot (N : nat) (xs : ivec) (r x' : nat) :
  xs <> [] -> Forall (fun s => (s < N)%nat) xs -> (x' < N)%nat ->
  mget (one_hot_rows N xs) r x' = if Nat.eqb (iget xs r) x' then 1 else 0.
Proof.
  intros Hne Hall Hx'. unfold mget, row, one_hot_rows.
  rewrite (at_map 0%nat) by exact Hne. fold (iget xs r).
  pose proof (iget_bounded N xs r Hne Hall) as Hs.
  fold (mget (eye N) (iget xs r) x'). unfold eye.
  apply mget_mk_mat; assumption.
Qed.

Lemma ncols_one_hot (N : nat) (xs : ivec) :
  xs <> [] -> Forall (fun s => (s < N)%nat) xs -> ncols (one_hot_rows N xs) = N.
Proof.
  intros Hne Hall. destruct xs as [|s xs]; [contradiction|].
  inversion Hall as [|? ? Hs _]; subst.
  unfold ncols, one_hot_rows. cbn [map hd]. unfold eye.
  rewrite row_mk_mat by exact Hs. unfold mk_vec. rewrite length_map, length_seq.
  reflexivity.
Qed.

Lemma big_sum_pick (n i : nat) (f : nat -> R) :
  (i < n)%nat -> big_sum n (fun j => (if Nat.eqb i j then 1 else 0) * f j) = f i.
Proof.
  intros Hi.
  rewrite (big_sum_ext n _ (fun j => if Nat.eqb i j then f i else 0)).
  - apply big_sum_delta. exact Hi.
  - intros j _. destruct (Nat.eqb i j) eqn:He; [|lra].
    apply Nat.eqb_eq in He. subst j. lra.
Qed.

Lemma exp_pow_nat (a : R) (m : nat) : exp a ^ m = exp (INR m * a).
Proof.
  induction m as [|m IH].
  - cbn. rewrite Rmult_0_l, exp_0. reflexivity.
  - rewrite S_INR. cbn [pow]. rewrite IH, <- exp_plus. f_equal. lra.
Qed.

Lemma big_prod_exp (n : nat) (f : nat -> R) :
  big_prod n (fun k => exp (f k)) = exp (big_sum n f).
Proof.
  unfold big_prod, big_sum, mk_vec.
  induction (seq 0 n) as [|a l IH]; cbn [map fold_right vsum].
  - symmetry. apply exp_0.
  - fold (vsum (map f l)). rewrite IH, exp_plus. reflexivity.
Qed.

Lemma big_sum_scale (n : nat) (c : R) (f : nat -> R) :
  big_sum n (fun k => c * f k) = c * big_sum n f.
Proof.
  unfold big_sum, mk_vec. induction (seq 0 n) as [|a l IH]; cbn [map vsum fold_right].
  - lra.
  - fold (vsum (map (fun k => c * f k) l)) (vsum (map f l)). rewrite IH. lra.
Qed.

(** X15.  When every component sits in one state (mu is the one-hot matrix
    of the states xs), the geometrically-averaged rate of component idx[a]
    from its state to another state y is the exact conditional rate [q_k]. *)
Theorem q_tilde_at_point_mass (idx xs : ivec) (nbr_idx nbr_mask : imat)
  (params : ctbn_params) (N a y : nat) :
  has_shape N N (S_ params) -> has_shape N N (J_ params) ->
  xs <> [] -> Forall (fun s => (s < N)%nat) xs ->
  (a < length idx)%nat -> (y < N)%nat -> y <> iget xs (iget idx a) ->
  t3get (q_tilde nbr_idx nbr_mask params (one_hot_rows N xs) idx)
        a (iget xs (iget idx a)) y
  = q_k (iget idx a) xs y nbr_idx nbr_mask params.
Proof.
  intros HS HJ Hne Hall Ha Hy Hdiff.
  pose proof (iget_bounded N xs (iget idx a) Hne Hall) as Hx.
  unfold q_tilde, q_k. cbv zeta. rewrite (ncols_one_hot N xs Hne Hall).
  rewrite t3get_mk_ten3 by assumption.
  assert (Hr : nrows (S_ params) = N) by (destruct HS as [Hl _]; exact Hl).
  pose proof (ncols_of_shape N N _ HS ltac:(lia)) as Hc.
  rewrite mget_mat_zip by (rewrite ?Hr, ?Hc; assumption).
  rewrite mget_offdiag_mask by assumption.
  assert (He : Nat.eqb (iget xs (iget idx a)) y = false)
    by (apply Nat.eqb_neq; intros H; apply Hdiff; symmetry; exact H).
  rewrite He, Rmult_1_r. f_equal. f_equal. f_equal. f_equal.
  apply big_sum_ext. intros k Hk.
  set (nb := imget nbr_idx (iget idx a) k).
  set (m := INR (imget nbr_mask (iget idx a) k)).
  rewrite (big_sum_ext N _ (fun x' =>
             (if Nat.eqb (iget xs nb) x' then 1 else 0) * (m * mget (J_ params) y x'))).
  - apply big_sum_pick. apply iget_bounded; assumption.
  - intros x' Hx'. rewrite mget_one_hot by assumption. lra.
Qed.

Lemma states_01_bounded : Forall (fun s => (s < 2)%nat) states_01.
Proof.
  repeat constructor.
Qed.

Lemma q_tilde_at_point_mass_witness :
  t3get (q_tilde pair_nbr_idx pair_nbr_mask repulsive_params
           (one_hot_rows 2 states_01) [0%nat]) 0 (iget states_01 (iget [0%nat] 0)) 1
  = q_k (iget [0%nat] 0) states_01 1 pair_nbr_idx pair_nbr_mask repulsive_params.
Proof.
  apply (q_tilde_at_point_mass [0%nat] states_01 pair_nbr_idx pair_nbr_mask
           repulsive_params 2 0 1).
  - split; [reflexivity | repeat constructor].
  - split; [reflexivity | repeat constructor].
  - discriminate.
  - exact states_01_bounded.
  - simpl. lia.
  - lia.
  - cbv. lia.
Defined.

(** X16.  At the same point masses the arithmetic mean-field rate [q_bar] is
    the exact conditional rate [q_k] as well, provided no neighbour factor
    exp(2*J[y,x_k])^mask falls below the smallest normal float32, where
    [product] would clamp it. *)
Theorem q_bar_at_point_mass (idx xs : ivec) (nbr_idx nbr_mask : imat)
  (params : ctbn_params) (N a y : nat) :
  has_shape N N (S_ params) -> has_shape N N (J_ params) ->
  xs <> [] -> Forall (fun s => (s < N)%nat) xs ->
  (a < length idx)%nat -> (y < N)%nat -> y <> iget xs (iget idx a) ->
  (forall k, (k < ncols nbr_idx)%nat ->
     smallest_float32
     <= exp (2 * mget (J_ params) y (iget xs (imget nbr_idx (iget idx a) k)))
        ^ imget nbr_mask (iget idx a) k) ->
  t3get (q_bar nbr_idx nbr_mask params (one_hot_rows N xs) idx)
        a (iget xs (iget idx a)) y
  = q_k (iget idx a) xs y nbr_idx nbr_mask params.
Proof.
  intros HS HJ Hne Hall Ha Hy Hdiff Hbig.
  pose proof (iget_bounded N xs (iget idx a) Hne Hall) as Hx.
  pose proof (ncols_one_hot N xs Hne Hall) as HN.
  rewrite q_bar_entry by (rewrite ?HN; assumption).
  unfold q_bar_clamped, q_k. cbv zeta.
  assert (He : Nat.eqb (iget xs (iget idx a)) y = false)
    by (apply Nat.eqb_neq; intros H; apply Hdiff; symmetry; exact H).
  rewrite He.
  rewrite (big_prod_ext (ncols nbr_idx) _ (fun k =>
             exp (INR (imget nbr_mask (iget idx a) k)
                  * (2 * mget (J_ params) y (iget xs (imget nbr_idx (iget idx a) k)))))).
  - rewrite big_prod_exp, Rmult_assoc, <- exp_plus. f_equal. f_equal. f_equal.
    rewrite <- big_sum_scale. apply big_sum_ext. intros k _. lra.
  - intros k Hk. unfold neighbour_factor. rewrite HN.
    rewrite (big_sum_ext N _ (fun x' =>
               (if Nat.eqb (iget xs (imget nbr_idx (iget idx a) k)) x' then 1 else 0)
               * exp (2 * mget (J_ params) y x')))
      by (intros x' Hx'; rewrite mget_one_hot by assumption; reflexivity).
    rewrite big_sum_pick by (apply iget_bounded; assumption).
    rewrite Rmax_left by (apply Hbig; exact Hk).
    apply exp_pow_nat.
Qed.

Lemma q_bar_at_point_mass_witness :
  t3get (q_bar pair_nbr_idx pair_nbr_mask decoupled_params
           (one_hot_rows 2 states_01) [0%nat]) 0 (iget states_01 (iget [0%nat] 0)) 1
  = q_k (iget [0%nat] 0) states_01 1 pair_nbr_idx pair_nbr_mask decoupled_params.
Proof.
  apply (q_bar_at_point_mass [0%nat] states_01 pair_nbr_idx pair_nbr_mask
           decoupled_params 2 0 1).
  - split; [reflexivity | repeat constructor].
  - split; [reflexivity | repeat constructor].
  - discriminate.
  - exact states_01_bounded.
  - simpl. lia.
  - lia.
  - cbv. lia.
  - intros k Hk. rewrite exp_pow_nat.
    apply Rle_trans with 1.
    + unfold smallest_float32.
      pose proof (pow_R1_Rle 2 126 ltac:(lra)) as Hp.
      apply Rle_trans with (/ 1); [apply Rinv_le_contravar; lra | rewrite Rinv_1; lra].
    + assert (Hk0 : k = 0%nat) by (cbv in Hk; lia). subst k.
      cbn. rewrite Rmult_0_r, Rmult_0_r, exp_0. lra.
Defined.

(** ** Conservation and padding in the right-hand sides *)

Lemma big_sum_S (n : nat) (f : nat -> R) : big_sum (S n) f = big_sum n f + f n.
Proof.
  unfold big_sum, mk_vec. rewrite seq_S, map_app. cbn [Nat.add map].
  induction (map f (seq 0 n)) as [|a l IH]; cbn [app vsum fold_right].
  - lra.
  - fold (vsum (l ++ [f n])) (vsum l). rewrite IH. lra.
Qed.

Lemma big_sum_swap (n m : nat) (f : nat -> nat -> R) :
  big_sum n (fun x => big_sum m (fun y => f x y))
  = big_sum m (fun y => big_sum n (fun x => f x y)).
Proof.
  induction n as [|n IH].
  - cbn. symmetry. apply big_sum_zero. intros y _. reflexivity.
  - rewrite big_sum_S, IH, <- big_sum_plus.
    apply big_sum_ext. intros y _. rewrite big_sum_S. reflexivity.
Qed.

Lemma vsum_map_scale (c : R) (v : vec) : vsum (map (fun d => c * d) v) = c * vsum v.
Proof.
  induction v as [|a v IH]; cbn [map vsum fold_right]; [lra|].
  fold (vsum (map (fun d => c * d) v)) (vsum v). rewrite IH. lra.
Qed.

Lemma mu_deriv_total (nbr_idx nbr_mask : imat) (params : ctbn_params)
  (mu rho : mat) (i : nat) :
  vsum (mu_deriv nbr_idx nbr_mask params mu rho i) = 0.
Proof.
  unfold mu_deriv. cbv zeta.
  set (G := at_ [] (gamma nbr_idx nbr_mask params mu rho [i]) 0).
  set (N := ncols mu).
  change (big_sum N (fun x => big_sum N (fun y => mget G y x)
                              - big_sum N (fun y => mget G x y)) = 0).
  rewrite (big_sum_ext N _ (fun x => big_sum N (fun y => mget G y x)
                                     + (-1) * big_sum N (fun y => mget G x y)))
    by (intros x _; lra).
  rewrite big_sum_plus, big_sum_scale.
  rewrite (big_sum_swap N N (fun x y => mget G y x)). lra.
Qed.

(** X17.  The right-hand side of the mu equation sums to zero over the
    states, for every component, time, trajectory set and integrated row:
    the flow into the states equals the flow out of them, so the total mass
    of mu_i does not change along a solution. *)
Theorem mu_term_conserves_mass (seq_mask : ivec) (nbr_idx nbr_mask : imat)
  (params : ctbn_params) (mu_solns rho_solns : list Soln) (T : R)
  (i : nat) (t : R) (mu_i_t : vec) :
  vsum (mu_term seq_mask nbr_idx nbr_mask params mu_solns rho_solns T i t mu_i_t) = 0.
Proof.
  unfold mu_term, eval_mu_rho. rewrite vsum_map_scale, mu_deriv_total. lra.
Qed.

(** X18.  For a padded component (seq_mask[i] = 0), over the reals: the
    right-hand side of the mu equation is zero in every entry, at every time
    and for every state of the trajectories; the right-hand side of the rho
    equation raises when the number N of states and the number M of
    neighbour slots do not broadcast (N <> M, M <> 1 and N <> 1), and is
    zero in every entry when they do. *)
Theorem padded_component_is_frozen (seq_mask : ivec) (nbr_idx nbr_mask : imat)
  (params : ctbn_params) (mu_solns rho_solns : list Soln) (T : R)
  (i : nat) (t : R) (y_t : vec) :
  iget seq_mask i = 0%nat ->
  let mu := where_lt t T (map (fun s : Soln => s t) mu_solns)
                         (map (fun s : Soln => s t) rho_solns) in
  let rho_rhs :=
    rho_term seq_mask nbr_idx nbr_mask params mu_solns rho_solns T i t y_t in
  Forall (fun d => d = 0)
    (mu_term seq_mask nbr_idx nbr_mask params mu_solns rho_solns T i t y_t)
  /\ (broadcastable (ncols mu) (ncols nbr_idx) = false -> rho_rhs = None)
  /\ (broadcastable (ncols mu) (ncols nbr_idx) = true ->
      exists d, rho_rhs = Some d /\ Forall (fun v => v = 0) d).
Proof.
  intros Hpad mu rho_rhs. split; [|split].
  - unfold mu_term, eval_mu_rho. rewrite Hpad. cbn [INR].
    apply Forall_forall. intros d Hd. apply in_map_iff in Hd.
    destruct Hd as [d0 [<- _]]. lra.
  - intros Hb. unfold rho_rhs, rho_term, eval_mu_rho. fold mu.
    rewrite rho_deriv_raises by exact Hb. reflexivity.
  - intros Hb. unfold rho_rhs, rho_term, eval_mu_rho. fold mu.
    match goal with |- context [rho_deriv ?a ?b ?c ?m ?r ?j] =>
      destruct (rho_deriv_returns a b c m r j Hb) as [d Hd] end.
    rewrite Hd. eexists. split; [reflexivity|].
    rewrite Hpad. cbn [INR].
    apply Forall_forall. intros v Hv. apply in_map_iff in Hv.
    destruct Hv as [d0 [<- _]]. lra.
Qed.

Lemma padded_component_is_frozen_witness :
  Forall (fun d => d = 0)
    (mu_term padded_seq_mask no_nbr_idx no_nbr_mask decoupled_params
       [start_in_0; start_in_0] [start_in_0; start_in_0] 1 1 0 [1; 0])
  /\ exists d,
       rho_term padded_seq_mask no_nbr_idx no_nbr_mask decoupled_params
         [start_in_0; start_in_0] [start_in_0; start_in_0] 1 1 0 [1; 0] = Some d
       /\ Forall (fun v => v = 0) d.
Proof.
  destruct (padded_component_is_frozen padded_seq_mask no_nbr_idx no_nbr_mask
              decoupled_params [start_in_0; start_in_0] [start_in_0; start_in_0]
              1 1 0 [1; 0] eq_refl) as [Hmu [_ Hrho]].
  split; [exact Hmu|]. apply Hrho. apply broadcastable_one.
Defined.

(** ** The diagonal and the decoupled limit *)

Lemma q_tilde_entry (idx : ivec) (nbr_idx nbr_mask : imat) (params : ctbn_params)
  (mu : mat) (a x y : nat) :
  has_shape (ncols mu) (ncols mu) (S_ params) ->
  (a < length idx)%nat -> (x < ncols mu)%nat -> (y < ncols mu)%nat ->
  t3get (q_tilde nbr_idx nbr_mask params mu idx) a x y
  = (if Nat.eqb x y then 0 else mget (S_ params) x y)
    * exp (vget (h_ params) y
           + 2 * big_sum (ncols nbr_idx) (fun k => big_sum (ncols mu) (fun x' =>
                   mget mu (imget nbr_idx (iget idx a) k) x'
                   * INR (imget nbr_mask (iget idx a) k) * mget (J_ params) y x'))).
Proof.
  intros HS Ha Hx Hy. unfold q_tilde. cbv zeta.
  rewrite t3get_mk_ten3 by assumption.
  assert (Hr : nrows (S_ params) = ncols mu) by (destruct HS as [Hl _]; exact Hl).
  pose proof (ncols_of_shape _ _ _ HS ltac:(lia)) as Hc.
  rewrite mget_mat_zip by (rewrite ?Hr, ?Hc; assumption).
  rewrite mget_offdiag_mask by assumption.
  destruct (Nat.eqb x y); [rewrite Rmult_0_r | rewrite Rmult_1_r]; reflexivity.
Qed.

(** X19.  The rates returned by [q_tilde] and the transition probabilities
    returned by [gamma] are zero on the diagonal x = y, for every mu and
    rho: a component never "moves" to the state it is in. *)
Theorem no_self_transitions (idx : ivec) (nbr_idx nbr_mask : imat)
  (params : ctbn_params) (mu rho : mat) (a x : nat) :
  has_shape (ncols mu) (ncols mu) (S_ params) ->
  (a < length idx)%nat -> (x < ncols mu)%nat ->
  t3get (q_tilde nbr_idx nbr_mask params mu idx) a x x = 0
  /\ t3get (gamma nbr_idx nbr_mask params mu rho idx) a x x = 0.
Proof.
  intros HS Ha Hx.
  assert (Hq : t3get (q_tilde nbr_idx nbr_mask params mu idx) a x x = 0)
    by (rewrite q_tilde_entry by assumption; rewrite Nat.eqb_refl; lra).
  split; [exact Hq|].
  unfold gamma. cbv zeta. rewrite t3get_mk_ten3 by assumption. rewrite Hq. lra.
Qed.

Lemma no_self_transitions_witness :
  t3get (q_tilde pair_nbr_idx pair_nbr_mask repulsive_params pair_mu [0%nat]) 0 1 1 = 0
  /\ t3get (gamma pair_nbr_idx pair_nbr_mask repulsive_params pair_mu pair_mu [0%nat])
           0 1 1 = 0.
Proof.
  apply (no_self_transitions [0%nat] pair_nbr_idx pair_nbr_mask repulsive_params
           pair_mu pair_mu 0 1).
  - split; [reflexivity | repeat constructor].
  - simpl. lia.
  - cbv. lia.
Defined.

(** X20.  Without coupling (J = 0) the geometric mean-field rate is the
    single-component rate S[x,y]*exp(h[y]) off the diagonal for every mu,
    and so is the arithmetic mean-field rate when the row of mu of every
    masked-in neighbour sums to 1. *)
Theorem decoupled_rates (idx : ivec) (nbr_idx nbr_mask : imat)
  (params : ctbn_params) (mu : mat) (a x y : nat) :
  has_shape (ncols mu) (ncols mu) (S_ params) ->
  has_shape (ncols mu) (ncols mu) (J_ params) ->
  (forall u v, (u < ncols mu)%nat -> (v < ncols mu)%nat -> mget (J_ params) u v = 0) ->
  (a < length idx)%nat -> (x < ncols mu)%nat -> (y < ncols mu)%nat ->
  t3get (q_tilde nbr_idx nbr_mask params mu idx) a x y
  = mget (q_single_offdiag params) x y
  /\ ((forall k, (k < ncols nbr_idx)%nat -> imget nbr_mask (iget idx a) k <> 0%nat ->
         big_sum (ncols mu) (mget mu (imget nbr_idx (iget idx a) k)) = 1) ->
      t3get (q_bar nbr_idx nbr_mask params mu idx) a x y
      = mget (q_single_offdiag params) x y).
Proof.
  intros HS HJ Hzero Ha Hx Hy.
  rewrite (q_single_offdiag_entry params (ncols mu)) by assumption.
  split.
  - rewrite q_tilde_entry by assumption.
    rewrite (big_sum_zero (ncols nbr_idx)).
    + rewrite Rmult_0_r, Rplus_0_r. destruct (Nat.eqb x y); lra.
    + intros k _. apply big_sum_zero. intros x' Hx'.
      rewrite Hzero by assumption. lra.
  - intros Hone. rewrite q_bar_entry by assumption. unfold q_bar_clamped.
    destruct (Nat.eqb x y); [reflexivity|].
    rewrite (big_prod_ext (ncols nbr_idx) _ (fun _ => exp 0)).
    + rewrite big_prod_exp, (big_sum_zero _ (fun _ => 0)) by reflexivity.
      rewrite exp_0. lra.
    + intros k Hk. unfold neighbour_factor. rewrite exp_0.
      assert (Hfac : big_sum (ncols mu) (fun x' =>
                       mget mu (imget nbr_idx (iget idx a) k) x'
                       * exp (2 * mget (J_ params) y x'))
                     ^ imget nbr_mask (iget idx a) k = 1).
      { destruct (Nat.eq_dec (imget nbr_mask (iget idx a) k) 0) as [Hm | Hm].
        - rewrite Hm. reflexivity.
        - rewrite (big_sum_ext _ _ (mget mu (imget nbr_idx (iget idx a) k))).
          + rewrite Hone by assumption. apply pow1.
          + intros x' Hx'. rewrite Hzero by assumption.
            rewrite Rmult_0_r, exp_0. lra. }
      rewrite Hfac. apply Rmax_left.
      unfold smallest_float32.
      pose proof (pow_R1_Rle 2 126 ltac:(lra)) as Hp.
      apply Rle_trans with (/ 1); [apply Rinv_le_contravar; lra | rewrite Rinv_1; lra].
Qed.

Lemma decoupled_rates_witness :
  t3get (q_tilde pair_nbr_idx pair_nbr_mask decoupled_params pair_mu [0%nat]) 0 0 1
  = mget (q_single_offdiag decoupled_params) 0 1.
Proof.
  apply (decoupled_rates [0%nat] pair_nbr_idx pair_nbr_mask decoupled_params
           pair_mu 0 0 1).
  - split; [reflexivity | repeat constructor].
  - split; [reflexivity | repeat constructor].
  - intros u v Hu Hv. cbv in Hu, Hv.
    destruct u as [|[|u]]; destruct v as [|[|v]]; try lia; reflexivity.
  - simpl. lia.
  - cbv. lia.
  - cbv. lia.
Defined.

(** ** Joint states as numbers *)

Lemma idx_to_seq_cons (idx N K : nat) :
  idx_to_seq idx N (S K) = (idx mod N)%nat :: idx_to_seq (idx / N) N K.
Proof.
  unfold idx_to_seq. cbn [seq map]. rewrite <- seq_shift, map_map.
  cbn [Nat.pow]. rewrite Nat.div_1_r. f_equal.
  apply map_ext. intros j. cbn [Nat.pow]. rewrite Nat.Div0.div_div. reflexivity.
Qed.

Lemma list_sum_scale (c : nat) (l : list nat) :
  list_sum (map (fun v => (c * v)%nat) l) = (c * list_sum l)%nat.
Proof.
  induction l as [|a l IH]; cbn [map list_sum fold_right]; [lia|].
  fold (list_sum (map (fun v => (c * v)%nat) l)) (list_sum l). rewrite IH. lia.
Qed.

Lemma digits_value_cons (d : nat) (sq : ivec) (N : nat) :
  digits_value (d :: sq) N = (d + N * digits_value sq N)%nat.
Proof.
  unfold digits_value. cbn [length seq map].
  change (list_sum ((nth 0 (d :: sq) 0 * N ^ 0)%nat
                    :: map (fun j => (nth j (d :: sq) 0 * N ^ j)%nat)
                           (seq 1 (length sq))))
    with ((nth 0 (d :: sq) 0 * N ^ 0)
          + list_sum (map (fun j => (nth j (d :: sq) 0 * N ^ j)%nat)
                          (seq 1 (length sq))))%nat.
  rewrite <- seq_shift, map_map, <- list_sum_scale, map_map.
  f_equal; [cbn [nth Nat.pow]; lia|]. f_equal.
  apply map_ext. intros j. cbn [nth Nat.pow]. lia.
Qed.

Lemma length_idx_to_seq (idx N K : nat) : length (idx_to_seq idx N K) = K.
Proof.
  unfold idx_to_seq. rewrite length_map, length_seq. reflexivity.
Qed.

Lemma digits_of_idx (idx N K : nat) :
  digits_value (idx_to_seq idx N K) N = (idx mod N ^ K)%nat.
Proof.
  revert idx. induction K as [|K IH]; intros idx.
  - cbn. reflexivity.
  - rewrite idx_to_seq_cons, digits_value_cons, IH. cbn [Nat.pow].
    rewrite Nat.Div0.mod_mul_r. reflexivity.
Qed.

Lemma idx_of_digits (sq : ivec) (N : nat) :
  Forall (fun d => (d < N)%nat) sq ->
  idx_to_seq (digits_value sq N) N (length sq) = sq
  /\ (digits_value sq N < N ^ length sq)%nat.
Proof.
  induction 1 as [|d sq Hd Hall [IH1 IH2]].
  - split; [reflexivity | cbn; lia].
  - cbn [length]. rewrite idx_to_seq_cons, digits_value_cons. split.
    + f_equal.
      * rewrite Nat.mul_comm, Nat.Div0.mod_add. apply Nat.mod_small. exact Hd.
      * rewrite Nat.mul_comm, Nat.div_add by lia.
        rewrite Nat.div_small by exact Hd. exact IH1.
    + cbn [Nat.pow]. nia.
Qed.

(** *** int32 *)

Lemma wrap_int32_small (z : Z) : (0 <= z < 2 ^ 31)%Z -> wrap_int32 z = z.
Proof.
  intros Hz. unfold wrap_int32. rewrite Z.mod_small; lia.
Qed.

Lemma fold_wrap_sum (l : list nat) (acc : nat) :
  (Z.of_nat (acc + list_sum l) < 2 ^ 31)%Z ->
  fold_left (fun a t => wrap_int32 (a + t)) (map Z.of_nat l) (Z.of_nat acc)
  = Z.of_nat (acc + list_sum l).
Proof.
  revert acc. induction l as [|t l IH]; intros acc Hlt; cbn [map fold_left list_sum].
  - f_equal. cbn. lia.
  - change (list_sum (t :: l)) with (t + list_sum l)%nat in *.
    rewrite wrap_int32_small by lia.
    rewrite <- Nat2Z.inj_add, IH by (rewrite <- Nat.add_assoc; exact Hlt).
    f_equal. lia.
Qed.

Lemma list_sum_ge_member (l : list nat) (x : nat) : In x l -> (x <= list_sum l)%nat.
Proof.
  induction l as [|a l IH]; intros Hin; [destruct Hin|].
  change (list_sum (a :: l)) with (a + list_sum l)%nat.
  destruct Hin as [-> | Hin]; [lia | specialize (IH Hin); lia].
Qed.

Lemma pow_le_of_digit (N j n : nat) :
  (1 <= N)%nat -> (j < n)%nat -> (Z.of_nat N ^ Z.of_nat n <= 2 ^ 31)%Z ->
  (Z.of_nat N ^ Z.of_nat j <= int32_max)%Z.
Proof.
  intros HN Hj Hn. unfold int32_max.
  destruct (Nat.eq_dec N 1) as [-> | HN1].
  - rewrite Z.pow_1_l by lia. lia.
  - assert (Hmono : (Z.of_nat N ^ Z.of_nat (S j) <= Z.of_nat N ^ Z.of_nat n)%Z)
      by (apply Z.pow_le_mono_r; lia).
    rewrite Nat2Z.inj_succ, Z.pow_succ_r in Hmono by lia.
    assert (Hpos : (0 < Z.of_nat N ^ Z.of_nat j)%Z) by (apply Z.pow_pos_nonneg; lia).
    nia.
Qed.

(** Without overflow [seq_to_idx] is the number with these digits. *)
Lemma seq_to_idx_exact (sq : ivec) (N : nat) :
  Forall (fun d => (d < N)%nat) sq ->
  (Z.of_nat N ^ Z.of_nat (length sq) <= 2 ^ 31)%Z ->
  seq_to_idx sq N = Some (Z.of_nat (digits_value sq N)).
Proof.
  intros Hall Hfit.
  pose proof (proj2 (idx_of_digits sq N Hall)) as Hlt.
  assert (Hval : (Z.of_nat (digits_value sq N) < 2 ^ 31)%Z).
  { apply Z.lt_le_trans with (Z.of_nat (N ^ length sq)); [lia|].
    rewrite Nat2Z.inj_pow. exact Hfit. }
  unfold seq_to_idx.
  rewrite (mapM_pointwise _ (fun j => Z.of_nat (nth j sq 0 * N ^ j)%nat)).
  - rewrite <- map_map.
    rewrite (fold_wrap_sum _ 0) by (cbn [Nat.add]; exact Hval).
    reflexivity.
  - intros j Hj. apply in_seq in Hj. cbv zeta.
    assert (Hjl : (j < length sq)%nat) by lia.
    assert (HN : (1 <= N)%nat).
    { rewrite Forall_forall in Hall.
      pose proof (Hall _ (nth_In sq 0%nat Hjl)) as Hd. cbv beta in Hd. lia. }
    pose proof (pow_le_of_digit N j (length sq) HN Hjl Hfit) as Hp.
    destruct (Z.ltb_spec int32_max (Z.of_nat N ^ Z.of_nat j)) as [Hbad | _]; [lia|].
    f_equal. rewrite <- Nat2Z.inj_pow, <- Nat2Z.inj_mul.
    apply wrap_int32_small. split; [lia|].
    apply Z.le_lt_trans with (Z.of_nat (digits_value sq N)); [|exact Hval].
    apply inj_le. unfold digits_value. apply list_sum_ge_member.
    apply in_map_iff. exists j. split; [reflexivity|]. apply in_seq. lia.
Qed.

Lemma mapM_member_fails {A B : Type} (f : A -> option B) (l : list A) (a : A) :
  In a l -> f a = None -> mapM f l = None.
Proof.
  induction l as [|b l IH]; intros Hin Hf; [destruct Hin|].
  cbn [mapM]. destruct Hin as [-> | Hin].
  - rewrite Hf. reflexivity.
  - destruct (f b); [|reflexivity]. rewrite (IH Hin Hf). reflexivity.
Qed.

(** X21.  For a base N >= 1 and K digits with N^K at most 2^31:
    [idx_to_seq] gives K digits, each below N, and composing them back with
    [seq_to_idx] gives idx modulo N^K, hence idx itself for every idx below
    N^K.  (Beyond 2^31 the int32 arithmetic of [seq_to_idx] wraps around or
    raises.) *)
Theorem seq_to_idx_of_idx_to_seq (idx N K : nat) :
  (1 <= N)%nat -> (Z.of_nat N ^ Z.of_nat K <= 2 ^ 31)%Z ->
  length (idx_to_seq idx N K) = K
  /\ Forall (fun d => (d < N)%nat) (idx_to_seq idx N K)
  /\ seq_to_idx (idx_to_seq idx N K) N = Some (Z.of_nat (idx mod N ^ K))
  /\ ((idx < N ^ K)%nat -> seq_to_idx (idx_to_seq idx N K) N = Some (Z.of_nat idx)).
Proof.
  intros HN Hfit.
  assert (Hdigits : Forall (fun d => (d < N)%nat) (idx_to_seq idx N K)).
  { unfold idx_to_seq. apply Forall_forall. intros d Hd. apply in_map_iff in Hd.
    destruct Hd as [j [<- _]]. apply Nat.mod_upper_bound. lia. }
  assert (Hback : seq_to_idx (idx_to_seq idx N K) N = Some (Z.of_nat (idx mod N ^ K))).
  { rewrite seq_to_idx_exact, digits_of_idx; [reflexivity | exact Hdigits|].
    rewrite length_idx_to_seq. exact Hfit. }
  split; [apply length_idx_to_seq|]. split; [exact Hdigits|]. split; [exact Hback|].
  intros Hlt. rewrite Hback, Nat.mod_small by exact Hlt. reflexivity.
Qed.

Lemma seq_to_idx_of_idx_to_seq_witness :
  seq_to_idx (idx_to_seq 11 3 3) 3 = Some 11%Z.
Proof.
  apply (seq_to_idx_of_idx_to_seq 11 3 3); [lia | cbn; lia | cbn; lia].
Defined.

(** X22.  For a sequence of digits below N: when N^(length of the
    sequence) is at most 2^31, [seq_to_idx] returns a number that is at
    least 0 and below that power, and taking its digits returns the
    sequence; when some power N^j with j below the length is 2^31 or more,
    [seq_to_idx] raises. *)
Theorem idx_to_seq_of_seq_to_idx (sq : ivec) (N : nat) :
  Forall (fun d => (d < N)%nat) sq ->
  ((Z.of_nat N ^ Z.of_nat (length sq) <= 2 ^ 31)%Z ->
     exists v,
       seq_to_idx sq N = Some v
       /\ (0 <= v < Z.of_nat N ^ Z.of_nat (length sq))%Z
       /\ idx_to_seq (Z.to_nat v) N (length sq) = sq)
  /\ ((exists j, (j < length sq)%nat /\ (2 ^ 31 <= Z.of_nat N ^ Z.of_nat j)%Z) ->
      seq_to_idx sq N = None).
Proof.
  intros Hall. split.
  - intros Hfit. destruct (idx_of_digits sq N Hall) as [Hseq Hlt].
    exists (Z.of_nat (digits_value sq N)).
    split; [apply seq_to_idx_exact; assumption|]. split.
    + split; [lia|]. rewrite <- Nat2Z.inj_pow. lia.
    + rewrite Nat2Z.id. exact Hseq.
  - intros [j [Hj Hbig]]. unfold seq_to_idx.
    rewrite (mapM_member_fails _ (seq 0 (length sq)) j); [reflexivity | |].
    + apply in_seq. lia.
    + cbv zeta.
      destruct (Z.ltb_spec int32_max (Z.of_nat N ^ Z.of_nat j)) as [_ | Hok];
        [reflexivity|].
      unfold int32_max in Hok. lia.
Qed.

Lemma idx_to_seq_of_seq_to_idx_witness :
  exists v,
    seq_to_idx [2; 0; 1]%nat 3 = Some v
    /\ idx_to_seq (Z.to_nat v) 3 (length [2; 0; 1]%nat) = [2; 0; 1]%nat.
Proof.
  destruct (idx_to_seq_of_seq_to_idx [2; 0; 1]%nat 3) as [Hback _].
  - repeat constructor.
  - destruct Hback as [v [Hv [_ Hseq]]]; [cbn; lia|].
    exists v. split; assumption.
Defined.

(** ** Replacing one trajectory *)

Lemma enumerate_map_no_hit {A : Type} (l : list A) (s n : nat) (v : A) :
  (n < s)%nat ->
  map (fun '(k, old) => if Nat.eqb k n then v else old) (combine (seq s (length l)) l)
  = l.
Proof.
  revert s. induction l as [|a l IH]; intros s Hlt; cbn [length seq combine map];
    [reflexivity|].
  assert (He : Nat.eqb s n = false) by (apply Nat.eqb_neq; lia).
  rewrite He, IH by lia. reflexivity.
Qed.

Lemma enumerate_map_set {A : Type} (l : list A) (s n : nat) (v : A) :
  map (fun '(k, old) => if Nat.eqb k (s + n) then v else old)
      (combine (seq s (length l)) l)
  = set_nth l n v.
Proof.
  revert s n. induction l as [|a l IH]; intros s n; cbn [length seq combine map];
    [destruct n; reflexivity|].
  destruct n as [|n]; cbn [set_nth].
  - rewrite Nat.add_0_r, Nat.eqb_refl. f_equal. apply enumerate_map_no_hit. lia.
  - assert (He : Nat.eqb s (s + S n) = false) by (apply Nat.eqb_neq; lia).
    rewrite He. f_equal. replace (s + S n)%nat with (S s + n)%nat by lia. apply IH.
Qed.

Lemma set_nth_out_of_range {A : Type} (l : list A) (n : nat) (v : A) :
  (length l <= n)%nat -> set_nth l n v = l.
Proof.
  revert n. induction l as [|a l IH]; intros n Hn; [destruct n; reflexivity|].
  destruct n as [|n]; cbn [length] in Hn; [lia|].
  cbn [set_nth]. rewrite IH by lia. reflexivity.
Qed.

(** X23.  [replace_nth], written with one conditional per position, is the
    single-position update [old_arr.at[n].set(v)]: it keeps the length and
    returns the array unchanged when n is past its end. *)
Theorem replace_nth_is_single_update {A : Type} (old_arr : list A) (n : nat) (v : A) :
  replace_nth old_arr n v = set_nth old_arr n v
  /\ length (replace_nth old_arr n v) = length old_arr
  /\ ((length old_arr <= n)%nat -> replace_nth old_arr n v = old_arr).
Proof.
  assert (Heq : replace_nth old_arr n v = set_nth old_arr n v)
    by (unfold replace_nth; apply (enumerate_map_set old_arr 0 n v)).
  split; [exact Heq|]. split; [apply length_replace_nth|].
  intros Hn. rewrite Heq. apply set_nth_out_of_range. exact Hn.
Qed.

(** ** The number of trajectories *)

Lemma mapM_length {A B : Type} (f : A -> option B) (l : list A) (bs : list B) :
  mapM f l = Some bs -> length bs = length l.
Proof.
  revert bs. induction l as [|a l IH]; intros bs H; cbn [mapM] in H.
  - injection H as <-. reflexivity.
  - destruct (f a) as [b|]; [|discriminate].
    destruct (mapM f l) as [bs'|]; [|discriminate].
    injection H as <-. cbn [length]. rewrite (IH bs' eq_refl). reflexivity.
Qed.

(** X24.  When the driver has built its initial state, that state holds
    one mu and one rho trajectory per component (K of each) and the last
    index -1; and a sweep that returns has not changed the number of
    trajectories, whatever order the permutation gives, also one that
    repeats or leaves out indices. *)
Theorem trajectory_count_is_kept
  (expm : mat -> mat)
  (diffeqsolve_dense :
     R -> R -> (R -> vec -> option vec) -> R -> R -> vec -> option Soln)
  (Key : Type) (permutation : Key -> nat -> list nat) (prng : Key)
  (xs ys seq_mask : ivec) (nbr_idx nbr_mask : imat) (params : ctbn_params) (T : R) :
  (forall init,
     initial_state expm diffeqsolve_dense xs ys seq_mask nbr_idx nbr_mask params T
     = Some init ->
     length (fst (fst init)) = nrows nbr_idx
     /\ length (snd (fst init)) = nrows nbr_idx
     /\ snd init = (-1)%Z)
  /\ (forall (nparams : ctbn_params) (K : nat) (mu_0 rho_T : mat)
             (outer outer' : outer_state),
        update_fun diffeqsolve_dense Key permutation prng seq_mask nbr_idx nbr_mask
          nparams T K mu_0 rho_T outer = Some outer' ->
        length (fst (fst outer')) = length (fst (fst outer))
        /\ length (snd (fst outer')) = length (snd (fst outer))).
Proof.
  split.
  - intros init Hinit. unfold initial_state in Hinit. cbv zeta in Hinit.
    destruct (mapM _ _) as [sols|]; [|discriminate].
    destruct (mapM _ (seq 0 (nrows nbr_idx))) as [rho_solns|] eqn:Hrho; [|discriminate].
    destruct (mapM _ (seq 0 (nrows nbr_idx))) as [mu_solns|] eqn:Hmu in Hinit;
      [|discriminate].
    injection Hinit as <-. cbn [fst snd].
    apply mapM_length in Hrho, Hmu. rewrite length_seq in Hrho, Hmu.
    repeat split; assumption.
  - intros nparams K mu_0 rho_T [inner last_i] outer' Hsweep.
    unfold update_fun in Hsweep. cbn [fst snd].
    revert Hsweep. generalize (sweep_order Key permutation prng K last_i) at 1.
    intros order Hsweep.
    destruct (scan _ inner order) as [inner'|] eqn:Hscan; [|discriminate].
    injection Hsweep as <-. cbn [fst snd].
    revert inner Hscan. induction order as [|i order IH]; intros inner Hscan;
      cbn [scan] in Hscan.
    + injection Hscan as <-. split; reflexivity.
    + destruct (loop_body_fun diffeqsolve_dense seq_mask nbr_idx nbr_mask nparams T
                  mu_0 rho_T inner i) as [[c u]|] eqn:Hstep; [|discriminate].
      destruct (IH c Hscan) as [H1 H2]. rewrite H1, H2.
      destruct inner as [mu_solns rho_solns]. unfold loop_body_fun in Hstep.
      destruct (solve_rho _ _ _ _ _ _ _ _ _ _) as [r|]; [|discriminate].
      destruct (solve_mu _ _ _ _ _ _ _ _ _ _) as [m|]; [|discriminate].
      injection Hstep as <- _. cbn [fst snd]. rewrite !length_replace_nth.
      split; reflexivity.
Qed.

(** ** Exact trajectories: construction and range *)

(** [ExactRho] (and [ExactMu]) can be constructed exactly when q is
    square; once constructed, [ExactRho.evaluate] has one entry per row of
    the matrix exponential and no entry above 1. *)
Theorem exact_rho_construction_and_range (expm : mat -> mat) (q : mat) (T : R)
  (x y : nat) :
  (ExactRho_init expm q T x y = None <-> ncols q <> nrows q)
  /\ forall self t,
       ExactRho_init expm q T x y = Some self ->
       length (ExactRho_evaluate expm self t)
       = nrows (expm (mat_scale (row_normalise q) (T - t)))
       /\ Forall (fun r => r <= 1) (ExactRho_evaluate expm self t).
Proof.
  split.
  - unfold ExactRho_init. cbv zeta. rewrite Nat.eqb_refl. cbn [andb].
    destruct (Nat.eqb (ncols q) (nrows q)) eqn:He.
    + apply Nat.eqb_eq in He. split; [discriminate | intros H; contradiction].
    + apply Nat.eqb_neq in He. split; [intros _; exact He | reflexivity].
  - intros self t Hinit. unfold ExactRho_init in Hinit. cbv zeta in Hinit.
    destruct (_ && _); [|discriminate]. injection Hinit as <-.
    unfold ExactRho_evaluate, column. cbn [exq exT exy].
    split.
    + rewrite !length_map. reflexivity.
    + apply Forall_forall. intros r Hr. apply in_map_iff in Hr.
      destruct Hr as [r0 [<- _]]. apply Rmin_r.
Qed.

(** ** Cherries *)

Example cherries_of_seven :
  pickCherries seven_parents seven_distances
  = Returns [(5%nat, 6%nat, (4 # 4)%Q); (3%nat, 4%nat, 3%Q)].
Proof.
  vm_compute. reflexivity.
Qed.

Lemma Qltb_true (a b : Q) : Qltb a b = true <-> (a < b)%Q.
Proof.
  unfold Qltb. rewrite negb_true_iff. split.
  - intros H. apply Qnot_le_lt. intros Hle. apply Qle_bool_iff in Hle. congruence.
  - intros H. destruct (Qle_bool b a) eqn:E; [|reflexivity].
    apply Qle_bool_iff in E. exfalso. apply (Qlt_not_le _ _ H). exact E.
Qed.

Lemma Qltb_false (a b : Q) : Qltb a b = false <-> (b <= a)%Q.
Proof.
  unfold Qltb. rewrite negb_false_iff. apply Qle_bool_iff.
Qed.

Lemma in_enumerate {A : Type} (l : list A) (k : nat) (v d : A) :
  In (k, v) (enumerate l) <-> (k < length l)%nat /\ nth k l d = v.
Proof.
  unfold enumerate. rewrite (in_combine_seq l 0 k v d). rewrite Nat.sub_0_r.
  split; intros [H1 H2]; (split; [lia | exact H2]).
Qed.

Lemma filtered_positions_increasing {A : Type} (f : nat * A -> bool) (l : list A)
  (s : nat) :
  StronglySorted lt (map fst (filter f (combine (seq s (length l)) l)))
  /\ Forall (fun k => (s <= k)%nat) (map fst (filter f (combine (seq s (length l)) l))).
Proof.
  revert s. induction l as [|a l IH]; intros s; cbn [length seq combine filter map].
  - split; constructor.
  - destruct (IH (S s)) as [Hs Hge].
    assert (Hge' : Forall (fun k => (s <= k)%nat)
                     (map fst (filter f (combine (seq (S s) (length l)) l)))).
    { eapply Forall_impl; [|exact Hge]. cbn. intros k Hk. lia. }
    destruct (f (s, a)); cbn [map fst].
    + split.
      * constructor; [exact Hs|]. eapply Forall_impl; [|exact Hge]. cbn. intros k Hk. lia.
      * constructor; [lia | exact Hge'].
    + split; assumption.
Qed.

Lemma find_leaves_increasing (parentIndex : list Z) :
  StronglySorted lt (find_leaves parentIndex).
Proof.
  unfold find_leaves, enumerate. apply filtered_positions_increasing.
Qed.

Section CherryProperties.

Variables (parentIndex : list Z) (distanceToParent : list Q).

Let dist := leaf_distance parentIndex distanceToParent.

(** A pair produced while leaf i is the first leaf. *)
Let from_leaf (i : nat) (js : list nat) (c : cherry) : Prop :=
  let '(a, b, dij) := c in
  a = i /\ In b js /\ (0 < dij)%Q /\ dist a b = Some dij.

Lemma pairs_from_sound (i : nat) (js : list nat) (available : list bool)
  (ps : list cherry) (available' : list bool) :
  pairs_from parentIndex distanceToParent i js available = Some (ps, available') ->
  Forall (from_leaf i js) ps.
Proof.
  revert available ps available'.
  induction js as [|j js IH]; intros available ps available' H; cbn [pairs_from] in H.
  - injection H as <- <-. constructor.
  - assert (Hweaken : forall qs, Forall (from_leaf i js) qs ->
                                 Forall (from_leaf i (j :: js)) qs).
    { intros qs Hqs. eapply Forall_impl; [|exact Hqs].
      intros [[a b] dij] (Ha & Hb & Hd & Hw). repeat split; try assumption.
      right. exact Hb. }
    destruct (nth j available false).
    + fold dist in H. destruct (dist i j) as [dij|] eqn:Hw; [|discriminate].
      destruct (Qltb 0 dij) eqn:Hpos.
      * destruct (pairs_from parentIndex distanceToParent i js available)
          as [[qs av]|] eqn:Hrec; [|discriminate].
        injection H as <- <-. constructor.
        -- repeat split; [left; reflexivity | apply Qltb_true; exact Hpos | exact Hw].
        -- apply Hweaken. eapply IH. exact Hrec.
      * apply Hweaken. eapply IH. exact H.
    + apply Hweaken. eapply IH. exact H.
Qed.

Lemma leafPairs_sound (leaves : list nat) (available : list bool)
  (pairs : list cherry) (available' : list bool) :
  StronglySorted lt leaves ->
  leafPairs parentIndex distanceToParent leaves available = Some (pairs, available') ->
  Forall (fun c => let '(a, b, dij) := c in
                   (a < b)%nat /\ In a leaves /\ In b leaves
                   /\ (0 < dij)%Q /\ dist a b = Some dij) pairs.
Proof.
  revert available pairs available'.
  induction leaves as [|i rest IH]; intros available pairs available' Hsorted H;
    cbn [leafPairs] in H.
  - injection H as <- <-. constructor.
  - inversion Hsorted as [|? ? Hrest Hlt]; subst.
    assert (Hweaken : forall qs,
              Forall (fun c => let '(a, b, dij) := c in
                               (a < b)%nat /\ In a rest /\ In b rest
                               /\ (0 < dij)%Q /\ dist a b = Some dij) qs ->
              Forall (fun c => let '(a, b, dij) := c in
                               (a < b)%nat /\ In a (i :: rest) /\ In b (i :: rest)
                               /\ (0 < dij)%Q /\ dist a b = Some dij) qs).
    { intros qs Hqs. eapply Forall_impl; [|exact Hqs].
      intros [[a b] dij] (H1 & H2 & H3 & H4 & H5).
      repeat split; try assumption; right; assumption. }
    destruct (nth i available false).
    + destruct (pairs_from parentIndex distanceToParent i rest available)
        as [[ps av]|] eqn:Hps; [|discriminate].
      destruct (leafPairs parentIndex distanceToParent rest av)
        as [[qs av2]|] eqn:Hqs; [|discriminate].
      injection H as <- <-. apply Forall_app. split.
      * pose proof (pairs_from_sound i rest available ps av Hps) as Hfrom.
        eapply Forall_impl; [|exact Hfrom].
        intros [[a b] dij] (Ha & Hb & Hd & Hw). subst a.
        rewrite Forall_forall in Hlt.
        repeat split; [apply Hlt; exact Hb | left; reflexivity | right; exact Hb
                       | exact Hd | exact Hw].
      * apply Hweaken. eapply IH; [exact Hrest | exact Hqs].
    + apply Hweaken. eapply IH; [exact Hrest | exact H].
Qed.

End CherryProperties.

Lemma insert_by_distance_in (x c : cherry) (l : list cherry) :
  In c (insert_by_distance x l) <-> c = x \/ In c l.
Proof.
  induction l as [|y l IH]; cbn [insert_by_distance].
  - cbn. intuition.
  - destruct (Qltb (snd y) (snd x)); cbn [In]; [rewrite IH|]; intuition.
Qed.

Lemma sorted_by_distance_in (c : cherry) (l : list cherry) :
  In c (sorted_by_distance l) <-> In c l.
Proof.
  induction l as [|x l IH]; cbn [sorted_by_distance fold_right]; [reflexivity|].
  fold (sorted_by_distance l). rewrite insert_by_distance_in, IH. cbn. intuition.
Qed.

Lemma insert_by_distance_sorted (x : cherry) (l : list cherry) :
  StronglySorted closer l -> StronglySorted closer (insert_by_distance x l).
Proof.
  induction 1 as [|y l Hl IH Hy]; cbn [insert_by_distance].
  - constructor; constructor.
  - destruct (Qltb (snd y) (snd x)) eqn:E.
    + constructor; [exact IH|]. apply Forall_forall. intros c Hc.
      apply insert_by_distance_in in Hc. destruct Hc as [-> | Hc].
      * apply Qltb_true in E. unfold closer. apply Qlt_le_weak. exact E.
      * rewrite Forall_forall in Hy. apply Hy. exact Hc.
    + apply Qltb_false in E. constructor; [constructor; assumption|].
      constructor; [exact E|]. eapply Forall_impl; [|exact Hy].
      intros c Hc. unfold closer in *. eapply Qle_trans; eassumption.
Qed.

Lemma sorted_by_distance_sorted (l : list cherry) :
  StronglySorted closer (sorted_by_distance l).
Proof.
  induction l as [|x l IH]; cbn [sorted_by_distance fold_right]; [constructor|].
  apply insert_by_distance_sorted. exact IH.
Qed.

Lemma nth_set_nth_false (available : list bool) (k n : nat) :
  nth n (set_nth available k false) false = true ->
  nth n available false = true /\ n <> k.
Proof.
  revert k n. induction available as [|a l IH]; intros k n H.
  - destruct k; cbn in H; destruct n; discriminate.
  - destruct k as [|k]; destruct n as [|n]; cbn [set_nth nth] in *.
    + discriminate.
    + split; [exact H | discriminate].
    + split; [exact H | discriminate].
    + destruct (IH k n H) as [H1 H2]. split; [exact H1 | congruence].
Qed.

Lemma cherryPairs_in (lp : list cherry) (available : list bool) (c : cherry) :
  In c (cherryPairs lp available) -> In c lp.
Proof.
  revert available. induction lp as [|[[i j] dij] rest IH]; intros available H;
    cbn [cherryPairs] in H; [destruct H|].
  destruct (nth i available false && nth j available false).
  - destruct H as [<- | H]; [left; reflexivity | right; eapply IH; exact H].
  - right. eapply IH. exact H.
Qed.

Lemma cherryPairs_sorted (lp : list cherry) (available : list bool) :
  StronglySorted closer lp -> StronglySorted closer (cherryPairs lp available).
Proof.
  intros Hs. revert available.
  induction Hs as [|[[i j] dij] rest Hrest IH Hhd]; intros available;
    cbn [cherryPairs]; [constructor|].
  destruct (nth i available false && nth j available false); [|apply IH].
  constructor; [apply IH|]. apply Forall_forall. intros c Hc.
  rewrite Forall_forall in Hhd. apply Hhd. eapply cherryPairs_in. exact Hc.
Qed.

Lemma cherryPairs_disjoint (lp : list cherry) (available : list bool) :
  Forall (fun c => fst (fst c) <> snd (fst c)) lp ->
  NoDup (cherry_nodes (cherryPairs lp available))
  /\ Forall (fun n => nth n available false = true)
            (cherry_nodes (cherryPairs lp available)).
Proof.
  intros Hdiff. revert available.
  induction Hdiff as [|[[i j] dij] rest Hij _ IH]; intros available;
    cbn [cherryPairs]; [split; constructor|].
  cbn [fst snd] in Hij.
  destruct (nth i available false) eqn:Hi; cbn [andb]; [|apply IH].
  destruct (nth j available false) eqn:Hj; [|apply IH].
  destruct (IH (set_nth (set_nth available i false) j false)) as [Hnd Hav].
  cbn [cherry_nodes flat_map fst snd app].
  fold (cherry_nodes (cherryPairs rest (set_nth (set_nth available i false) j false))).
  assert (Hfresh : forall n,
            In n (cherry_nodes
                    (cherryPairs rest (set_nth (set_nth available i false) j false))) ->
            nth n available false = true /\ n <> i /\ n <> j).
  { intros n Hn. rewrite Forall_forall in Hav. specialize (Hav n Hn).
    apply nth_set_nth_false in Hav. destruct Hav as [Hav Hnj].
    apply nth_set_nth_false in Hav. destruct Hav as [Hav Hni].
    repeat split; assumption. }
  split.
  - constructor.
    + intros [Heq | Hin]; [apply Hij; symmetry; exact Heq|].
      destruct (Hfresh i Hin) as (_ & Hne & _). apply Hne. reflexivity.
    + constructor; [|exact Hnd].
      intros Hin. destruct (Hfresh j Hin) as (_ & _ & Hne). apply Hne. reflexivity.
  - constructor; [exact Hi|]. constructor; [exact Hj|].
    apply Forall_forall. intros n Hn. apply (Hfresh n Hn).
Qed.

(** X25.  Whenever [pickCherries] returns, every pair it yields consists of
    two leaves, the smaller index first, at a positive distance that is the
    length of the path between them through their common ancestor; no node
    occurs in two pairs; and the pairs come in order of nondecreasing
    distance. *)
Theorem cherries_are_disjoint_leaf_pairs (parentIndex : list Z)
  (distanceToParent : list Q) (cherries : list cherry) :
  pickCherries parentIndex distanceToParent = Returns cherries ->
  Forall (leaf_pair parentIndex distanceToParent) cherries
  /\ NoDup (cherry_nodes cherries)
  /\ StronglySorted closer cherries.
Proof.
  unfold pickCherries. cbv zeta.
  destruct (negb (Nat.eqb _ _)); [discriminate|].
  destruct (negb (Nat.eqb _ _)); [discriminate|].
  destruct (negb _); [discriminate|].
  destruct (negb (Nat.eqb _ _)); [discriminate|].
  destruct (leafPairs _ _ _ _) as [[pairs available]|] eqn:Hlp; [|discriminate].
  intros H. injection H as <-.
  pose proof (leafPairs_sound parentIndex distanceToParent _ _ _ _
                (find_leaves_increasing parentIndex) Hlp) as Hsound.
  assert (Hgood : Forall (leaf_pair parentIndex distanceToParent)
                         (cherryPairs (sorted_by_distance pairs) available)).
  { apply Forall_forall. intros c Hc. apply cherryPairs_in in Hc.
    apply (proj1 (sorted_by_distance_in _ _)) in Hc. rewrite Forall_forall in Hsound.
    specialize (Hsound c Hc). destruct c as [[a b] dij]. exact Hsound. }
  split; [exact Hgood|]. split.
  - apply cherryPairs_disjoint. apply Forall_forall. intros c Hc.
    apply (proj1 (sorted_by_distance_in _ _)) in Hc. rewrite Forall_forall in Hsound.
    specialize (Hsound c Hc). destruct c as [[a b] dij]. cbn [fst snd].
    destruct Hsound as (Hlt & _). lia.
  - apply cherryPairs_sorted. apply sorted_by_distance_sorted.
Qed.

Lemma cherries_are_disjoint_leaf_pairs_witness :
  Forall (leaf_pair seven_parents seven_distances)
         [(5%nat, 6%nat, (4 # 4)%Q); (3%nat, 4%nat, 3%Q)]
  /\ NoDup (cherry_nodes [(5%nat, 6%nat, (4 # 4)%Q); (3%nat, 4%nat, 3%Q)])
  /\ StronglySorted closer [(5%nat, 6%nat, (4 # 4)%Q); (3%nat, 4%nat, 3%Q)].
Proof.
  apply (cherries_are_disjoint_leaf_pairs seven_parents seven_distances).
  vm_compute. reflexivity.
Defined.

Lemma filter_none {A : Type} (f : A -> bool) (l : list A) :
  (forall x, In x l -> f x = false) -> filter f l = [].
Proof.
  induction l as [|a l IH]; intros H; cbn [filter]; [reflexivity|].
  rewrite (H a) by (left; reflexivity). apply IH. intros x Hx. apply H. right. exact Hx.
Qed.

Lemma roots_spec (parentIndex : list Z) (k : nat) :
  In k (map fst (filter (fun '(_, p) => Z.ltb p 0) (enumerate parentIndex)))
  <-> (k < length parentIndex)%nat /\ (nth k parentIndex 0 < 0)%Z.
Proof.
  rewrite in_map_iff. split.
  - intros [[k' p] [Hk Hin]]. cbn in Hk. subst k'. apply filter_In in Hin.
    destruct Hin as [Hin Hp]. apply (in_enumerate parentIndex k p 0%Z) in Hin.
    destruct Hin as [Hlt Hnth]. apply Z.ltb_lt in Hp. split; [exact Hlt | lia].
  - intros [Hlt Hneg]. exists (k, nth k parentIndex 0%Z). split; [reflexivity|].
    apply filter_In. split.
    + apply (in_enumerate parentIndex k _ 0%Z). split; [exact Hlt | reflexivity].
    + apply Z.ltb_lt. exact Hneg.
Qed.

(** X26.  [pickCherries] raises an assertion error with one of its four
    messages, and yields nothing, when the two lists differ in length, when
    a node precedes its parent, when the list is empty, when node 0 has no
    negative parent, when another node has a negative parent, or when a
    distance is negative. *)
Theorem pickCherries_rejects (parentIndex : list Z) (distanceToParent : list Q) :
  length parentIndex <> length distanceToParent
  \/ (exists n, (n < length parentIndex)%nat /\ (Z.of_nat n < nth n parentIndex 0)%Z)
  \/ parentIndex = []
  \/ (0 <= nth 0 parentIndex 0)%Z
  \/ (exists n, (1 <= n < length parentIndex)%nat /\ (nth n parentIndex 0 < 0)%Z)
  \/ (exists x, In x distanceToParent /\ (x < 0)%Q) ->
  exists msg,
    pickCherries parentIndex distanceToParent = Raises (AssertionError msg)
    /\ In msg cherry_messages.
Proof.
  intros Hbad. unfold pickCherries. cbv zeta.
  destruct (Nat.eqb (length parentIndex) (length distanceToParent)) eqn:Hlen; cbn [negb].
  2: { eexists. split; [reflexivity | cbn; tauto]. }
  apply Nat.eqb_eq in Hlen.
  destruct Hbad as [Hbad | Hbad]; [contradiction|].
  destruct (Nat.eqb (length (filter _ (enumerate parentIndex))) 0) eqn:Hpre; cbn [negb].
  2: { eexists. split; [reflexivity | cbn; tauto]. }
  apply Nat.eqb_eq, length_zero_iff_nil in Hpre.
  destruct Hbad as [[n [Hn Hp]] | Hbad].
  { exfalso.
    assert (Hin : In (n, nth n parentIndex 0%Z)
                     (filter (fun '(n, p) => Z.ltb (Z.of_nat n) p) (enumerate parentIndex))).
    { apply filter_In. split.
      - apply (in_enumerate parentIndex n _ 0%Z). split; [exact Hn | reflexivity].
      - apply Z.ltb_lt. exact Hp. }
    rewrite Hpre in Hin. destruct Hin. }
  destruct (list_eq_dec Nat.eq_dec _ [0%nat]) as [Hroots | Hroots]; cbn [negb].
  2: { eexists. split; [reflexivity | cbn; tauto]. }
  assert (Hroot : forall k, (k < length parentIndex)%nat /\ (nth k parentIndex 0 < 0)%Z
                            <-> k = 0%nat).
  { intros k. rewrite <- roots_spec, Hroots. cbn. intuition. }
  destruct Hbad as [-> | Hbad]; [cbn in Hroots; discriminate|].
  destruct Hbad as [H0 | Hbad].
  { exfalso. destruct (proj2 (Hroot 0%nat) eq_refl) as [_ Hneg]. lia. }
  destruct Hbad as [[n [Hn Hneg]] | [x [Hx Hxneg]]].
  { exfalso. assert (n = 0%nat) by (apply Hroot; split; [lia | exact Hneg]). lia. }
  destruct (Nat.eqb (length (filter _ distanceToParent)) 0) eqn:Hd; cbn [negb].
  2: { eexists. split; [reflexivity | cbn; tauto]. }
  exfalso. apply Nat.eqb_eq, length_zero_iff_nil in Hd.
  assert (Hin : In x (filter (fun d => Qltb d 0) distanceToParent))
    by (apply filter_In; split; [exact Hx | apply Qltb_true; exact Hxneg]).
  rewrite Hd in Hin. destruct Hin.
Qed.

Lemma pickCherries_rejects_witness :
  exists msg,
    pickCherries [] [] = Raises (AssertionError msg) /\ In msg cherry_messages.
Proof.
  apply (pickCherries_rejects [] []).
  right. right. left. reflexivity.
Defined.

Lemma valid_tree_passes (parentIndex : list Z) (distanceToParent : list Q) :
  valid_tree parentIndex distanceToParent ->
  pickCherries parentIndex distanceToParent
  = match leafPairs parentIndex distanceToParent (find_leaves parentIndex)
            (repeat true (length parentIndex)) with
    | None => Diverges
    | Some (pairs, available) =>
        Returns (cherryPairs (sorted_by_distance pairs) available)
    end.
Proof.
  intros (Hlen & Hpre & Hne & Hroot & Hpos & Hdist).
  unfold pickCherries. cbv zeta.
  rewrite Hlen, Nat.eqb_refl. cbn [negb].
  rewrite (filter_none (fun '(n, p) => Z.ltb (Z.of_nat n) p) (enumerate parentIndex)).
  2: { intros [n p] Hin. apply (in_enumerate parentIndex n p 0%Z) in Hin.
       destruct Hin as [Hn <-]. apply Z.ltb_ge. apply Hpre. exact Hn. }
  cbn [length Nat.eqb negb].
  assert (Hroots : map fst (filter (fun '(_, p) => Z.ltb p 0) (enumerate parentIndex))
                   = [0%nat]).
  { destruct parentIndex as [|p0 tl]; [cbn in Hne; lia|].
    cbn [nth] in Hroot. unfold enumerate. cbn [length seq combine filter].
    assert (Hp0 : Z.ltb p0 0 = true) by (apply Z.ltb_lt; exact Hroot).
    rewrite Hp0. cbn [map fst]. f_equal.
    rewrite filter_none; [reflexivity|].
    intros [k p] Hin. apply (in_combine_seq tl 1 k p 0%Z) in Hin.
    destruct Hin as [Hk Hnth]. apply Z.ltb_ge. subst p.
    specialize (Hpos k). cbn [length] in Hpos.
    replace (nth k (p0 :: tl) 0%Z) with (nth (k - 1) tl 0%Z) in Hpos
      by (destruct k; [lia | cbn [nth]; f_equal; lia]).
    apply Hpos. lia. }
  rewrite Hroots.
  destruct (list_eq_dec Nat.eq_dec [0%nat] [0%nat]) as [_ | Hcontra];
    [|contradiction Hcontra; reflexivity].
  cbn [negb].
  rewrite (filter_none (fun d => Qltb d 0) distanceToParent)
    by (intros x Hx; apply Qltb_false; apply Hdist; exact Hx).
  reflexivity.
Qed.

Lemma length_incr_nth (l : list nat) (k : nat) : length (incr_nth l k) = length l.
Proof.
  revert k. induction l as [|a l IH]; intros k; destruct k; cbn [incr_nth length];
    try reflexivity.
  rewrite IH. reflexivity.
Qed.

Lemma incr_nth_zero (l : list nat) (m k : nat) :
  (m < length l)%nat ->
  (nth k (incr_nth l m) 0%nat = 0%nat <-> nth k l 0%nat = 0%nat /\ k <> m).
Proof.
  revert m k. induction l as [|a l IH]; intros m k Hm; cbn [length] in Hm; [lia|].
  destruct m as [|m]; destruct k as [|k]; cbn [incr_nth nth].
  - split; [discriminate | intros [_ H]; contradiction H; reflexivity].
  - split; [intros H; split; [exact H | discriminate] | intros [H _]; exact H].
  - split; [intros H; split; [exact H | discriminate] | intros [H _]; exact H].
  - rewrite IH by lia. split; intros [H1 H2]; (split; [exact H1 | congruence]).
Qed.

Lemma children_counted (ps : list Z) (init : list nat) (k : nat) :
  (forall p, In p ps -> (p < Z.of_nat (length init))%Z) ->
  let counts :=
    fold_left (fun nChildren parent =>
                 if Z.leb 0 parent then incr_nth nChildren (Z.to_nat parent)
                 else nChildren) ps init in
  length counts = length init
  /\ (nth k counts 0%nat = 0%nat
      <-> nth k init 0%nat = 0%nat /\ forall p, In p ps -> p <> Z.of_nat k).
Proof.
  revert init. induction ps as [|p ps IH]; intros init Hrange; cbn [fold_left].
  - split; [reflexivity|]. split; [intros H; split; [exact H | intros p []] | tauto].
  - assert (Hp : (p < Z.of_nat (length init))%Z) by (apply Hrange; left; reflexivity).
    destruct (Z.leb 0 p) eqn:Hsign.
    + apply Z.leb_le in Hsign.
      destruct (IH (incr_nth init (Z.to_nat p))) as [Hlen Hzero].
      { intros q Hq. rewrite length_incr_nth. apply Hrange. right. exact Hq. }
      rewrite length_incr_nth in Hlen. split; [exact Hlen|].
      cbv zeta in Hzero. rewrite Hzero, incr_nth_zero by lia. split.
      * intros [[H1 H2] H3]. split; [exact H1|]. intros q [<- | Hq]; [lia | apply H3; exact Hq].
      * intros [H1 H2]. split; [split; [exact H1|] | intros q Hq; apply H2; right; exact Hq].
        intros Hk. apply (H2 p (or_introl eq_refl)). lia.
    + apply Z.leb_gt in Hsign.
      destruct (IH init) as [Hlen Hzero].
      { intros q Hq. apply Hrange. right. exact Hq. }
      split; [exact Hlen|]. cbv zeta in Hzero. rewrite Hzero. split.
      * intros [H1 H2]. split; [exact H1|]. intros q [<- | Hq]; [lia | apply H2; exact Hq].
      * intros [H1 H2]. split; [exact H1 | intros q Hq; apply H2; right; exact Hq].
Qed.

Lemma find_leaves_spec (parentIndex : list Z) (i : nat) :
  (forall n, (n < length parentIndex)%nat -> (nth n parentIndex 0 <= Z.of_nat n)%Z) ->
  In i (find_leaves parentIndex)
  <-> (i < length parentIndex)%nat
      /\ forall n, (n < length parentIndex)%nat -> nth n parentIndex 0%Z <> Z.of_nat i.
Proof.
  intros Hpre.
  destruct (children_counted parentIndex (repeat 0%nat (length parentIndex)) i)
    as [Hlen Hzero].
  { intros p Hp. rewrite repeat_length. destruct (In_nth _ _ 0%Z Hp) as [n [Hn <-]].
    specialize (Hpre n Hn). lia. }
  fold (count_children parentIndex) in Hlen, Hzero. rewrite repeat_length in Hlen.
  unfold find_leaves. rewrite in_map_iff. split.
  - intros [[i' c] [Hi Hin]]. cbn in Hi. subst i'. apply filter_In in Hin.
    destruct Hin as [Hin Hc]. apply (in_enumerate _ i c 0%nat) in Hin.
    destruct Hin as [Hlt Hnth]. apply Nat.eqb_eq in Hc. subst c.
    rewrite Hlen in Hlt. split; [exact Hlt|].
    intros n Hn. apply (proj1 Hzero Hc). apply nth_In. exact Hn.
  - intros [Hlt Hnone]. exists (i, 0%nat). split; [reflexivity|].
    apply filter_In. split; [|reflexivity].
    apply (in_enumerate _ i 0%nat 0%nat). rewrite Hlen. split; [exact Hlt|].
    apply Hzero. split.
    + destruct (Nat.lt_ge_cases i (length parentIndex)) as [Hi | Hi].
      * rewrite nth_repeat_lt by exact Hi. reflexivity.
      * lia.
    + intros p Hp. destruct (In_nth _ _ 0%Z Hp) as [n [Hn <-]]. apply Hnone. exact Hn.
Qed.

(** X27.  On a list of parents in which no node precedes its parent, the
    leaves that [pickCherries] pairs up are, in increasing order, exactly
    the nodes that no node names as its parent; a padding node, being its
    own parent, is never among them. *)
Theorem leaves_are_childless_nodes (parentIndex : list Z) (i : nat) :
  (forall n, (n < length parentIndex)%nat -> (nth n parentIndex 0 <= Z.of_nat n)%Z) ->
  StronglySorted lt (find_leaves parentIndex)
  /\ (In i (find_leaves parentIndex)
      <-> (i < length parentIndex)%nat
          /\ forall n, (n < length parentIndex)%nat ->
                       nth n parentIndex 0%Z <> Z.of_nat i)
  /\ (In i (find_leaves parentIndex) -> nth i parentIndex 0%Z <> Z.of_nat i).
Proof.
  intros Hpre. split; [apply find_leaves_increasing|].
  split; [apply find_leaves_spec; exact Hpre|].
  intros Hin. apply (find_leaves_spec parentIndex i Hpre) in Hin.
  destruct Hin as [Hlt Hnone]. apply Hnone. exact Hlt.
Qed.

Lemma seven_parents_preorder :
  forall n, (n < length seven_parents)%nat -> (nth n seven_parents 0 <= Z.of_nat n)%Z.
Proof.
  intros n Hn. cbn in Hn.
  do 7 (destruct n as [|n]; [cbn; lia|]). lia.
Qed.

Lemma leaves_are_childless_nodes_witness :
  StronglySorted lt (find_leaves seven_parents).
Proof.
  apply (leaves_are_childless_nodes seven_parents 3). exact seven_parents_preorder.
Defined.

(** ** Termination of the walk to the common ancestor *)

Section Walk.

Variables (parentIndex : list Z) (distanceToParent : list Q).
Hypothesis preorder :
  forall n, (n < length parentIndex)%nat -> (nth n parentIndex 0 <= Z.of_nat n)%Z.
Hypothesis one_root :
  forall n, (1 <= n < length parentIndex)%nat -> (0 <= nth n parentIndex 0)%Z.

Lemma walk_stuck_left (fuel ia ja : nat) (dij : Q) :
  (ja < ia)%nat -> parent_of parentIndex ia = ia ->
  mrca_walk parentIndex distanceToParent fuel ia ja dij = None.
Proof.
  intros Hlt Hself. revert dij. induction fuel as [|fuel IH]; intros dij;
    cbn [mrca_walk]; [reflexivity|].
  assert (He : Nat.eqb ia ja = false) by (apply Nat.eqb_neq; lia).
  assert (Hl : Nat.ltb ja ia = true) by (apply Nat.ltb_lt; exact Hlt).
  rewrite He, Hl, Hself. apply IH.
Qed.

Lemma walk_stuck_right (fuel ia ja : nat) (dij : Q) :
  (ia < ja)%nat -> parent_of parentIndex ja = ja ->
  mrca_walk parentIndex distanceToParent fuel ia ja dij = None.
Proof.
  intros Hlt Hself. revert dij. induction fuel as [|fuel IH]; intros dij;
    cbn [mrca_walk]; [reflexivity|].
  assert (He : Nat.eqb ia ja = false) by (apply Nat.eqb_neq; lia).
  assert (Hl : Nat.ltb ja ia = false) by (apply Nat.ltb_ge; lia).
  rewrite He, Hl, Hself. apply IH.
Qed.

Lemma parent_below (n : nat) :
  (1 <= n < length parentIndex)%nat ->
  (parent_of parentIndex n <= n)%nat /\ (parent_of parentIndex n < length parentIndex)%nat.
Proof.
  intros Hn. unfold parent_of.
  pose proof (preorder n ltac:(lia)). pose proof (one_root n Hn). lia.
Qed.

Lemma walk_within_budget (fuel : nat) :
  forall ia ja dij r budget,
    (ia < length parentIndex)%nat -> (ja < length parentIndex)%nat ->
    mrca_walk parentIndex distanceToParent fuel ia ja dij = Some r ->
    (ia + ja < budget)%nat ->
    mrca_walk parentIndex distanceToParent budget ia ja dij = Some r.
Proof.
  induction fuel as [|fuel IH]; intros ia ja dij r budget Hia Hja Hrun Hbudget;
    cbn [mrca_walk] in Hrun; [discriminate|].
  destruct budget as [|budget]; [lia|]. cbn [mrca_walk].
  destruct (Nat.eqb ia ja) eqn:He; [exact Hrun|].
  apply Nat.eqb_neq in He.
  destruct (Nat.ltb ja ia) eqn:Hl.
  - apply Nat.ltb_lt in Hl.
    destruct (parent_below ia ltac:(lia)) as [Hle Hrange].
    destruct (Nat.eq_dec (parent_of parentIndex ia) ia) as [Hself | Hmove].
    + rewrite Hself in Hrun. rewrite walk_stuck_left in Hrun by assumption. discriminate.
    + apply (IH _ _ _ _ budget Hrange Hja Hrun). lia.
  - apply Nat.ltb_ge in Hl.
    destruct (parent_below ja ltac:(lia)) as [Hle Hrange].
    destruct (Nat.eq_dec (parent_of parentIndex ja) ja) as [Hself | Hmove].
    + rewrite Hself in Hrun. rewrite walk_stuck_right in Hrun by (try assumption; lia).
      discriminate.
    + apply (IH _ _ _ _ budget Hia Hrange Hrun). lia.
Qed.

End Walk.

(** X28.  In the loop that walks two nodes up to their common ancestor, a
    run that ends takes at most ia + ja rounds, so the budget of the model
    cuts no run short; and once the larger node is its own parent (a padding
    node above a real one) no number of rounds ends the loop. *)
Theorem walk_ends_early_or_never (parentIndex : list Z) (distanceToParent : list Q)
  (ia ja : nat) (dij : Q) :
  (forall n, (n < length parentIndex)%nat -> (nth n parentIndex 0 <= Z.of_nat n)%Z) ->
  (forall n, (1 <= n < length parentIndex)%nat -> (0 <= nth n parentIndex 0)%Z) ->
  (ia < length parentIndex)%nat -> (ja < length parentIndex)%nat ->
  (forall fuel r,
     mrca_walk parentIndex distanceToParent fuel ia ja dij = Some r ->
     mrca_walk parentIndex distanceToParent (S (ia + ja)) ia ja dij = Some r)
  /\ ((ja < ia)%nat -> nth ia parentIndex 0%Z = Z.of_nat ia ->
      forall fuel, mrca_walk parentIndex distanceToParent fuel ia ja dij = None)
  /\ ((ia < ja)%nat -> nth ja parentIndex 0%Z = Z.of_nat ja ->
      forall fuel, mrca_walk parentIndex distanceToParent fuel ia ja dij = None).
Proof.
  intros Hpre Hroot Hia Hja. split; [|split].
  - intros fuel r Hrun.
    apply (walk_within_budget parentIndex distanceToParent Hpre Hroot fuel
             ia ja dij r (S (ia + ja)) Hia Hja Hrun). lia.
  - intros Hlt Hself fuel. apply walk_stuck_left; [exact Hlt|].
    unfold parent_of. rewrite Hself. apply Nat2Z.id.
  - intros Hlt Hself fuel. apply walk_stuck_right; [exact Hlt|].
    unfold parent_of. rewrite Hself. apply Nat2Z.id.
Qed.

Lemma walk_ends_early_or_never_witness :
  mrca_walk [-1; 1; 1]%Z [0; 1; 1]%Q 1000 1 0 0%Q = None.
Proof.
  destruct (walk_ends_early_or_never [-1; 1; 1]%Z [0; 1; 1]%Q 1 0 0%Q)
    as [_ [Hnever _]].
  - intros n Hn. cbn in Hn. do 3 (destruct n as [|n]; [cbn; lia|]). lia.
  - intros n Hn. cbn in Hn. destruct n as [|[|[|n]]]; cbn; lia.
  - cbn. lia.
  - cbn. lia.
  - apply Hnever; [lia | reflexivity].
Defined.

(** ** Termination and maximality of the pairing *)

Section Pairing.

Variables (parentIndex : list Z) (distanceToParent : list Q).

Let dist := leaf_distance parentIndex distanceToParent.
Let good (n : nat) : Prop :=
  (n < length parentIndex)%nat /\ nth n parentIndex 0%Z <> Z.of_nat n.

Hypothesis preorder :
  forall n, (n < length parentIndex)%nat -> (nth n parentIndex 0 <= Z.of_nat n)%Z.
Hypothesis one_root :
  forall n, (1 <= n < length parentIndex)%nat -> (0 <= nth n parentIndex 0)%Z.

Lemma walk_terminates (padding_free : no_padding_above parentIndex) (fuel : nat) :
  forall ia ja dij,
    good ia -> good ja -> (ia + ja < fuel)%nat ->
    exists r, mrca_walk parentIndex distanceToParent fuel ia ja dij = Some r.
Proof.
  assert (Hstep : forall n m, good n -> (m < n)%nat ->
            good (parent_of parentIndex n) /\ (parent_of parentIndex n < n)%nat).
  { intros n m [Hn Hself] Hm. unfold parent_of.
    pose proof (preorder n Hn) as Hle. pose proof (one_root n ltac:(lia)) as Hge.
    pose proof (padding_free n ltac:(lia) Hself) as Hpar.
    split; [split|]; [lia | | lia].
    rewrite Z2Nat.id by lia. exact Hpar. }
  induction fuel as [|fuel IH]; intros ia ja dij Hia Hja Hfuel; [lia|].
  cbn [mrca_walk]. destruct (Nat.eqb ia ja) eqn:He; [eexists; reflexivity|].
  apply Nat.eqb_neq in He. destruct (Nat.ltb ja ia) eqn:Hl.
  - apply Nat.ltb_lt in Hl. destruct (Hstep ia ja Hia Hl) as [Hg Hlt].
    apply IH; [exact Hg | exact Hja | lia].
  - apply Nat.ltb_ge in Hl. destruct (Hstep ja ia Hja ltac:(lia)) as [Hg Hlt].
    apply IH; [exact Hia | exact Hg | lia].
Qed.

Lemma pairs_from_terminates (padding_free : no_padding_above parentIndex)
  (i : nat) (js : list nat) :
  good i -> Forall good js ->
  forall available,
    exists res, pairs_from parentIndex distanceToParent i js available = Some res.
Proof.
  intros Hi Hjs. induction Hjs as [|j js Hj _ IH]; intros available;
    cbn [pairs_from]; [eexists; reflexivity|].
  destruct (nth j available false); [|apply IH].
  destruct (walk_terminates padding_free (S (i + j)) i j 0%Q Hi Hj ltac:(lia))
    as [dij Hw].
  unfold leaf_distance. rewrite Hw.
  destruct (Qltb 0 dij); [|apply IH].
  destruct (IH available) as [[ps av] Hrec]. rewrite Hrec. eexists. reflexivity.
Qed.

Lemma leafPairs_terminates (padding_free : no_padding_above parentIndex)
  (leaves : list nat) :
  Forall good leaves ->
  forall available,
    exists res, leafPairs parentIndex distanceToParent leaves available = Some res.
Proof.
  induction 1 as [|i rest Hi Hrest IH]; intros available; cbn [leafPairs];
    [eexists; reflexivity|].
  destruct (nth i available false); [|apply IH].
  destruct (pairs_from_terminates padding_free i rest Hi Hrest available)
    as [[ps av] Hps].
  rewrite Hps. destruct (IH av) as [[qs av2] Hqs]. rewrite Hqs.
  eexists. reflexivity.
Qed.

Lemma leaves_good : Forall good (find_leaves parentIndex).
Proof.
  apply Forall_forall. intros i Hi.
  apply (find_leaves_spec parentIndex i preorder) in Hi. destruct Hi as [Hlt Hnone].
  split; [exact Hlt | apply Hnone; exact Hlt].
Qed.

(** Availability only goes down, a leaf is dropped only as a duplicate of
    the current leaf, and a later leaf that stays available was paired with
    the current leaf. *)
Lemma pairs_from_flags (i : nat) (js : list nat) :
  forall available ps available',
    pairs_from parentIndex distanceToParent i js available = Some (ps, available') ->
    (forall x, nth x available' false = true -> nth x available false = true)
    /\ (forall x, nth x available false = true -> nth x available' false = false ->
          In x js /\ exists dij, dist i x = Some dij /\ (dij <= 0)%Q)
    /\ (forall j, In j js -> nth j available' false = true ->
          exists dij, In (i, j, dij) ps).
Proof.
  induction js as [|j js IH]; intros available ps available' H; cbn [pairs_from] in H.
  - injection H as <- <-. split; [tauto|]. split; [intros x H1 H2; congruence|].
    intros j [].
  - destruct (nth j available false) eqn:Hj.
    + fold dist in H. destruct (dist i j) as [dij|] eqn:Hw; [|discriminate].
      destruct (Qltb 0 dij) eqn:Hpos.
      * destruct (pairs_from parentIndex distanceToParent i js available)
          as [[qs av]|] eqn:Hrec; [|discriminate].
        injection H as <- <-. destruct (IH _ _ _ Hrec) as (HA & HB & HC).
        split; [exact HA|]. split.
        -- intros x H1 H2. destruct (HB x H1 H2) as [Hin Hd]. split; [right|]; assumption.
        -- intros j' [<- | Hin] Hav.
           ++ exists dij. left. reflexivity.
           ++ destruct (HC j' Hin Hav) as [d Hd]. exists d. right. exact Hd.
      * apply Qltb_false in Hpos.
        destruct (IH _ _ _ H) as (HA & HB & HC). split; [|split].
        -- intros x Hx. apply HA in Hx. apply nth_set_nth_false in Hx. apply Hx.
        -- intros x H1 H2. destruct (Nat.eq_dec x j) as [-> | Hne].
           ++ split; [left; reflexivity|]. exists dij. split; assumption.
           ++ assert (Hx : nth x (set_nth available j false) false = true).
              { clear - H1 Hne. revert x j H1 Hne.
                induction available as [|a l IHl]; intros x j H1 Hne.
                - destruct x; discriminate.
                - destruct j as [|j]; destruct x as [|x]; cbn [set_nth nth] in *;
                    try assumption; [contradiction Hne; reflexivity|].
                  apply IHl; [exact H1 | congruence]. }
              destruct (HB x Hx H2) as [Hin Hd]. split; [right|]; assumption.
        -- intros j' [<- | Hin] Hav.
           ++ exfalso. apply HA in Hav. apply nth_set_nth_false in Hav.
              destruct Hav as [_ Hne]. apply Hne. reflexivity.
           ++ apply HC; assumption.
    + destruct (IH _ _ _ H) as (HA & HB & HC). split; [exact HA|]. split.
      * intros x H1 H2. destruct (HB x H1 H2) as [Hin Hd]. split; [right|]; assumption.
      * intros j' [<- | Hin] Hav.
        -- apply HA in Hav. congruence.
        -- apply HC; assumption.
Qed.

Lemma leafPairs_flags (leaves : list nat) :
  StronglySorted lt leaves ->
  forall available pairs available',
    leafPairs parentIndex distanceToParent leaves available = Some (pairs, available') ->
    (forall x, nth x available' false = true -> nth x available false = true)
    /\ (forall x, nth x available false = true -> nth x available' false = false ->
          exists i dij, In i leaves /\ (i < x)%nat
                        /\ dist i x = Some dij /\ (dij <= 0)%Q)
    /\ (forall i j, In i leaves -> In j leaves -> (i < j)%nat ->
          nth i available' false = true -> nth j available' false = true ->
          exists dij, In (i, j, dij) pairs).
Proof.
  induction 1 as [|i0 rest Hrest IH Hlt]; intros available pairs available' H;
    cbn [leafPairs] in H.
  - injection H as <- <-. split; [tauto|]. split; [intros x H1 H2; congruence|].
    intros i j [].
  - rewrite Forall_forall in Hlt.
    assert (Hskip : forall av,
              leafPairs parentIndex distanceToParent rest av = Some (pairs, available') ->
              (av = available -> nth i0 available false = false) ->
              (forall i j, In i (i0 :: rest) -> In j (i0 :: rest) -> (i < j)%nat ->
                 nth i available' false = true -> nth j available' false = true ->
                 (i = i0 -> exists dij, In (i, j, dij) pairs) ->
                 exists dij, In (i, j, dij) pairs)).
    { intros av Hrec _ i j Hi Hj Hij Hai Haj Hhead.
      destruct Hi as [<- | Hi]; [apply Hhead; reflexivity|].
      destruct Hj as [<- | Hj]; [specialize (Hlt i Hi); lia|].
      destruct (IH _ _ _ Hrec) as (_ & _ & HC). apply HC; assumption. }
    destruct (nth i0 available false) eqn:Hi0.
    + destruct (pairs_from parentIndex distanceToParent i0 rest available)
        as [[ps av]|] eqn:Hps; [|discriminate].
      destruct (leafPairs parentIndex distanceToParent rest av)
        as [[qs av2]|] eqn:Hqs; [|discriminate].
      injection H as <- <-.
      destruct (pairs_from_flags _ _ _ _ _ Hps) as (PA & PB & PC).
      destruct (IH _ _ _ Hqs) as (LA & LB & LC).
      split; [intros x Hx; apply PA, LA; exact Hx|]. split.
      * intros x H1 H2. destruct (nth x av false) eqn:Hmid.
        -- destruct (LB x Hmid H2) as (i & dij & Hin & Hix & Hd & Hz).
           exists i, dij. repeat split; try assumption. right. exact Hin.
        -- destruct (PB x H1 Hmid) as [Hin [dij [Hd Hz]]].
           exists i0, dij. repeat split; try assumption; [left; reflexivity|].
           apply Hlt. exact Hin.
      * intros i j Hi Hj Hij Hai Haj.
        destruct Hi as [<- | Hi].
        -- destruct Hj as [<- | Hj]; [lia|].
           destruct (PC j Hj (LA j Haj)) as [dij Hd]. exists dij.
           apply in_or_app. left. exact Hd.
        -- destruct Hj as [<- | Hj]; [specialize (Hlt i Hi); lia|].
           destruct (LC i j Hi Hj Hij Hai Haj) as [dij Hd]. exists dij.
           apply in_or_app. right. exact Hd.
    + destruct (IH _ _ _ H) as (LA & LB & LC).
      split; [exact LA|]. split.
      * intros x H1 H2. destruct (LB x H1 H2) as (i & dij & Hin & Hix & Hd & Hz).
        exists i, dij. repeat split; try assumption. right. exact Hin.
      * intros i j Hi Hj Hij Hai Haj.
        destruct Hi as [<- | Hi]; [apply LA in Hai; congruence|].
        destruct Hj as [<- | Hj]; [specialize (Hlt i Hi); lia|].
        apply LC; assumption.
Qed.

End Pairing.

Lemma nth_set_nth_other (available : list bool) (k n : nat) :
  n <> k -> nth n (set_nth available k false) false = nth n available false.
Proof.
  revert k n. induction available as [|a l IH]; intros k n Hne.
  - destruct k; reflexivity.
  - destruct k as [|k]; destruct n as [|n]; cbn [set_nth nth]; try reflexivity;
      [contradiction Hne; reflexivity|].
    apply IH. congruence.
Qed.

(** The greedy pass uses at least one node of every pair whose two nodes
    were available when it started. *)
Lemma cherryPairs_covers (lp : list cherry) :
  forall available i j dij,
    In (i, j, dij) lp ->
    nth i available false = true -> nth j available false = true ->
    In i (cherry_nodes (cherryPairs lp available))
    \/ In j (cherry_nodes (cherryPairs lp available)).
Proof.
  induction lp as [|[[a b] e] rest IH]; intros available i j dij Hin Hi Hj;
    [destruct Hin|].
  cbn [cherryPairs].
  destruct (nth a available false && nth b available false) eqn:Htake.
  - cbn [cherry_nodes flat_map fst snd app].
    fold (cherry_nodes (cherryPairs rest (set_nth (set_nth available a false) b false))).
    destruct (Nat.eq_dec i a) as [-> | Hia]; [left; left; reflexivity|].
    destruct (Nat.eq_dec i b) as [-> | Hib]; [left; right; left; reflexivity|].
    destruct (Nat.eq_dec j a) as [-> | Hja]; [right; left; reflexivity|].
    destruct (Nat.eq_dec j b) as [-> | Hjb]; [right; right; left; reflexivity|].
    destruct Hin as [Heq | Hin]; [injection Heq as -> -> _; contradiction Hia; reflexivity|].
    destruct (IH (set_nth (set_nth available a false) b false) i j dij Hin) as [H | H].
    + rewrite !nth_set_nth_other by assumption. exact Hi.
    + rewrite !nth_set_nth_other by assumption. exact Hj.
    + left. right. right. exact H.
    + right. right. right. exact H.
  - destruct Hin as [Heq | Hin].
    + injection Heq as -> -> _. rewrite Hi, Hj in Htake. discriminate.
    + apply (IH available i j dij Hin Hi Hj).
Qed.

(** X29.  On a valid tree with no padding node above a real node,
    [pickCherries] returns; and the pairing it returns is maximal: of any
    two leaves that are left without partner, one is a duplicate, at
    distance zero from an earlier leaf.  So at most one leaf that is not a
    duplicate stays unpaired. *)
Theorem pickCherries_pairs_all_but_one (parentIndex : list Z)
  (distanceToParent : list Q) :
  valid_tree parentIndex distanceToParent ->
  no_padding_above parentIndex ->
  exists cherries,
    pickCherries parentIndex distanceToParent = Returns cherries
    /\ forall i j,
         In i (find_leaves parentIndex) -> In j (find_leaves parentIndex) ->
         (i < j)%nat ->
         ~ In i (cherry_nodes cherries) -> ~ In j (cherry_nodes cherries) ->
         duplicate_leaf parentIndex distanceToParent i
         \/ duplicate_leaf parentIndex distanceToParent j.
Proof.
  intros Hvalid Hpad. pose proof Hvalid as (_ & Hpre & _ & _ & Hroot & _).
  rewrite (valid_tree_passes _ _ Hvalid).
  destruct (leafPairs_terminates parentIndex distanceToParent Hpre Hroot Hpad
              (find_leaves parentIndex) (leaves_good parentIndex Hpre)
              (repeat true (length parentIndex)))
    as [[pairs available] Hlp].
  rewrite Hlp. eexists. split; [reflexivity|].
  intros i j Hi Hj Hij Hni Hnj.
  destruct (leafPairs_flags parentIndex distanceToParent _
              (find_leaves_increasing parentIndex) _ _ _ Hlp) as (LA & LB & LC).
  assert (Hstart : forall x, In x (find_leaves parentIndex) ->
            nth x (repeat true (length parentIndex)) false = true).
  { intros x Hx. apply (find_leaves_spec parentIndex x Hpre) in Hx.
    apply nth_repeat_lt. apply Hx. }
  destruct (nth i available false) eqn:Hai.
  2: { left. destruct (LB i (Hstart i Hi) Hai) as (a & dij & H1 & H2 & H3 & H4).
       exists a, dij. repeat split; assumption. }
  destruct (nth j available false) eqn:Haj.
  2: { right. destruct (LB j (Hstart j Hj) Haj) as (a & dij & H1 & H2 & H3 & H4).
       exists a, dij. repeat split; assumption. }
  exfalso. destruct (LC i j Hi Hj Hij Hai Haj) as [dij Hin].
  apply sorted_by_distance_in in Hin.
  destruct (cherryPairs_covers _ available i j dij Hin Hai Haj); contradiction.
Qed.

Lemma seven_valid : valid_tree seven_parents seven_distances.
Proof.
  unfold valid_tree. split; [reflexivity|]. split; [exact seven_parents_preorder|].
  split; [cbn; lia|]. split; [cbn; lia|]. split.
  - intros n Hn. cbn in Hn. destruct n as [|n]; [lia|].
    do 6 (destruct n as [|n]; [cbn; lia|]). lia.
  - intros x Hx. cbn in Hx.
    repeat (destruct Hx as [<- | Hx]; [discriminate|]). destruct Hx.
Qed.

Lemma seven_no_padding : no_padding_above seven_parents.
Proof.
  intros n Hn _. cbn in Hn. destruct n as [|n]; [lia|].
  do 6 (destruct n as [|n]; [vm_compute; discriminate|]). lia.
Qed.

Lemma pickCherries_pairs_all_but_one_witness :
  exists cherries, pickCherries seven_parents seven_distances = Returns cherries.
Proof.
  destruct (pickCherries_pairs_all_but_one seven_parents seven_distances
              seven_valid seven_no_padding) as [cherries [Hres _]].
  exists cherries. exact Hres.
Defined.

(** ** Discretised times *)

Lemma Int_part_IZR (n : Z) : Int_part (IZR n) = n.
Proof.
  unfold Int_part.
  rewrite <- (up_tech (IZR n) n); [lia | lra |].
  rewrite plus_IZR. lra.
Qed.

Lemma frac_part_IZR (n : Z) : frac_part (IZR n) = 0.
Proof.
  unfold frac_part. rewrite Int_part_IZR. lra.
Qed.

Lemma jnp_round_IZR (n : Z) : jnp_round (IZR n) = IZR n.
Proof.
  unfold jnp_round. cbv zeta. rewrite frac_part_IZR, Int_part_IZR.
  destruct (Rlt_dec 0 (1 / 2)) as [_ | H]; [reflexivity | lra].
Qed.

Lemma jnp_round_near (x : R) :
  (exists n : Z, jnp_round x = IZR n) /\ x - 1 / 2 <= jnp_round x <= x + 1 / 2.
Proof.
  unfold jnp_round. cbv zeta.
  pose proof (base_fp x) as [Hge Hlt].
  assert (Hx : x = IZR (Int_part x) + frac_part x) by (unfold frac_part; lra).
  destruct (Rlt_dec (frac_part x) (1 / 2)) as [H1 | H1].
  - split; [eexists; reflexivity | lra].
  - destruct (Rlt_dec (1 / 2) (frac_part x)) as [H2 | H2].
    + split; [eexists; reflexivity | rewrite plus_IZR; lra].
    + destruct (Z.even (Int_part x)).
      * split; [eexists; reflexivity | lra].
      * split; [eexists; reflexivity | rewrite plus_IZR; lra].
Qed.

Lemma ln_base_nonzero (logBase : R) : 0 < logBase -> logBase <> 1 -> ln logBase <> 0.
Proof.
  intros Hpos Hne H0. apply Hne. apply ln_inv; [exact Hpos | lra |].
  rewrite ln_1. exact H0.
Qed.

(** X30.  For a positive base other than 1, [discretizeTime] inverts
    [undiscretizeTime] on every integer grid index; on a positive time it
    returns an integer; and for a base above 1 the time recovered from the
    grid index of t lies within a factor sqrt(logBase) of t. *)
Theorem time_grid_round_trip (logBase : R) :
  0 < logBase -> logBase <> 1 ->
  (forall n : Z,
     discretizeTime (undiscretizeTime (IZR n) logBase) logBase = IZR n)
  /\ (forall t, 0 < t ->
        exists n : Z, discretizeTime t logBase = IZR n)
  /\ (1 < logBase -> forall t, 0 < t ->
        t / sqrt logBase
        <= undiscretizeTime (discretizeTime t logBase) logBase
        <= t * sqrt logBase).
Proof.
  intros Hpos Hne. pose proof (ln_base_nonzero logBase Hpos Hne) as Hln.
  split; [|split].
  - intros n. unfold discretizeTime, undiscretizeTime, Rpower.
    rewrite ln_exp.
    replace (IZR n * ln logBase / ln logBase) with (IZR n) by (field; exact Hln).
    apply jnp_round_IZR.
  - intros t _. unfold discretizeTime. apply jnp_round_near.
  - intros Hgt t Ht. unfold discretizeTime, undiscretizeTime.
    set (x := ln t / ln logBase).
    destruct (jnp_round_near x) as [_ [Hlo Hhi]].
    assert (Hlnpos : 0 < ln logBase) by (rewrite <- ln_1; apply ln_increasing; lra).
    assert (Ht_eq : t = exp (x * ln logBase)).
    { unfold x. replace (ln t / ln logBase * ln logBase) with (ln t) by (field; exact Hln).
      symmetry. apply exp_ln. exact Ht. }
    assert (Hsqrt : sqrt logBase = exp (1 / 2 * ln logBase)).
    { rewrite <- (Rpower_sqrt logBase Hpos). unfold Rpower. f_equal. lra. }
    unfold Rpower. rewrite Hsqrt. split.
    + unfold Rdiv at 1. rewrite <- exp_Ropp. rewrite Ht_eq at 1. rewrite <- exp_plus.
      destruct (Req_dec (x * ln logBase + - (1 / 2 * ln logBase)) (jnp_round x * ln logBase)) as [-> | Hd];
        [lra|]. left. apply exp_increasing. nra.
    + rewrite Ht_eq at 1. rewrite <- exp_plus.
      destruct (Req_dec (jnp_round x * ln logBase) (x * ln logBase + 1 / 2 * ln logBase)) as [-> | Hd];
        [lra|]. left. apply exp_increasing. nra.
Qed.

Lemma defaultLogBase_gt_1 : 1 < defaultLogBase.
Proof.
  unfold defaultLogBase, Rpower. rewrite <- exp_0 at 1. apply exp_increasing.
  assert (0 < ln 10) by (rewrite <- ln_1; apply ln_increasing; lra). lra.
Qed.

Lemma time_grid_round_trip_witness :
  discretizeTime (undiscretizeTime 3 defaultLogBase) defaultLogBase = 3.
Proof.
  pose proof defaultLogBase_gt_1 as Hgt.
  assert (Hpos : 0 < defaultLogBase) by lra.
  assert (Hne : defaultLogBase <> 1) by lra.
  destruct (time_grid_round_trip defaultLogBase Hpos Hne) as [Hrt _].
  exact (Hrt 3%Z).
Defined.
